(** * vader_cluster: disk registry, grid queries, encounters and photoevaporation

    A shallow embedding of [src/vader_cluster.py].

    Numbers.  Python floats are modelled by rationals ([Q]): the comparisons
    [<], [<=], [==] of the source are the order of [Q], and sums and products
    are exact.  The transcendental functions of numpy ([sqrt], [power], [pi])
    and the unit constants of AMUSE are not part of the repository; they are
    fields of the classes [Numpy] and [Units] below, and every theorem holds
    for all their instances.

    Quantities.  An AMUSE quantity is modelled by its magnitude in base (cgs)
    units; [x | units.u] is [x * u] and [q.value_in(units.u)] is [q / u],
    where [u] is the size of the unit.  [q.value_in(u) | u] is the quantity
    [q] itself.

    Exceptions.  A function that can raise returns [py A]. *)

From Stdlib Require Import QArith Qround Lqa ZArith List Bool Lia.
From stdpp Require Import base option list gmap.

Local Open Scope Q_scope.

(** ** Python exceptions *)

Inductive exn : Set := IndexError | KeyError | ValueError.

Inductive py (A : Type) : Type :=
| Returns (a : A)
| Raises (e : exn).
Arguments Returns {A} a.
Arguments Raises {A} e.

Definition py_bind {A B : Type} (m : py A) (k : A -> py B) : py B :=
  match m with
  | Returns a => k a
  | Raises e => Raises e
  end.

#[global] Instance py_mret : MRet py := @Returns.
#[global] Instance py_mbind : MBind py := fun A B k m => py_bind m k.

(** [l[i]] of a Python list or numpy array, for [0 <= i]. *)
Definition getitem {A : Type} (l : list A) (i : nat) : py A :=
  match l !! i with
  | Some a => Returns a
  | None => Raises IndexError
  end.

(** ** Float comparisons *)

Definition Qltb (x y : Q) : bool := negb (Qle_bool y x).
Definition Qleb (x y : Q) : bool := Qle_bool x y.
Definition Qeqb (x y : Q) : bool := Qeq_bool x y.

(** ** External interfaces: numpy and the AMUSE units *)

Class Numpy := {
  numpy_pi : Q;
  numpy_sqrt : Q -> Q;
  numpy_power : Q -> Q -> Q;   (* also Python's [**] with a float exponent *)
}.

Class Units := {
  au : Q;         (* cm *)
  MSun : Q;       (* g *)
  MJupiter : Q;   (* g *)
  MEarth : Q;     (* g *)
  LSun : Q;       (* erg / s *)
  constants_G : Q;
}.

(** ** Grid Query Layer *)

Record Cell : Set := {
  r : Q;                (* cell radius *)
  column_density : Q;   (* g / cm**2 *)
  area : Q;             (* cm**2 *)
}.

Record Disk : Set := {
  grid : list Cell;
  alpha : Q;
  inner_boundary_mass_out : Q;
}.

(** Default [density_limit] of [get_disk_radius]. *)
Definition radius_density_limit : Q := 1e-10.
(** Default [density_limit] of [truncate_disk]. *)
Definition truncate_density_limit : Q := 1e-11.

(** The loop of [get_disk_radius] over the cells still to visit. *)
Fixpoint scan_radius (density_limit prev_r : Q) (cells : list Cell) : Q :=
  match cells with
  | [] => prev_r
  | c :: rest =>
      if Qltb (column_density c) density_limit then prev_r
      else scan_radius density_limit (r c) rest
  end.

Definition get_disk_radius (disk : Disk) (density_limit : Q) : py Q :=
  c0 ← getitem (grid disk) 0;
  Returns (scan_radius density_limit (r c0) (grid disk)).

Definition cell_mass (c : Cell) : Q := column_density c * area c.

(** [zip(mass_cells, column_density, area)] stops after [len(mass_cells)]
    cells, the number of radii [<= radius]. *)
Definition get_disk_mass (disk : Disk) (radius : Q) : Q :=
  let mass_cells := List.filter (fun c => Qleb (r c) radius) (grid disk) in
  fold_left (fun total_mass c => total_mass + cell_mass c)
            (take (length mass_cells) (grid disk)) 0.

Definition truncate_cell (new_radius density_limit : Q) (c : Cell) : Cell :=
  if Qltb new_radius (r c)
  then {| r := r c; column_density := density_limit; area := area c |}
  else c.

Definition truncate_disk (disk : Disk) (new_radius density_limit : Q) : Disk :=
  {| grid := map (truncate_cell new_radius density_limit) (grid disk);
     alpha := alpha disk;
     inner_boundary_mass_out := inner_boundary_mass_out disk |}.

(** [numpy.where(cond)[0][0]]: the first index at which [cond] holds. *)
Fixpoint where_first {A : Type} (cond : A -> bool) (l : list A) : py nat :=
  match l with
  | [] => Raises IndexError
  | x :: rest =>
      if cond x then Returns 0%nat
      else i ← where_first cond rest; Returns (S i)
  end.

(** The loop [for i in range(init_cell)[::-1]] of [evaporate], with [n] cells
    left to visit: the next one is cell [n - 1].  Leaving the loop returns
    [None]. *)
Fixpoint evaporate_loop (disk : Disk) (mass_to_remove swiped_mass : Q) (n : nat)
  : py (option Disk) :=
  match n with
  | O => Returns None
  | S i =>
      c ← getitem (grid disk) i;
      let swiped_mass := swiped_mass + cell_mass c in
      if Qltb swiped_mass mass_to_remove
      then evaporate_loop disk mass_to_remove swiped_mass i
      else if (i =? 0)%nat then Returns None
           else Returns (Some (truncate_disk disk (r c) truncate_density_limit))
  end.

Definition evaporate (disk : Disk) (mass_to_remove : Q) : py (option Disk) :=
  radius ← get_disk_radius disk radius_density_limit;
  init_cell ← where_first (fun c => Qeqb (r c) radius) (grid disk);
  evaporate_loop disk mass_to_remove 0 init_cell.

(** ** Table bracketing *)

(** [column.max()] and [column.min()]: [ValueError] on an empty array. *)
Definition numpy_max (column : list Q) : py Q :=
  match column with
  | [] => Raises ValueError
  | x :: rest => Returns (fold_left (fun m y => if Qltb m y then y else m) rest x)
  end.

Definition numpy_min (column : list Q) : py Q :=
  match column with
  | [] => Raises ValueError
  | x :: rest => Returns (fold_left (fun m y => if Qltb y m then y else m) rest x)
  end.

(** [try: body / except ValueError: handler]. *)
Definition try_except_ValueError {A : Type} (body handler : py A) : py A :=
  match body with
  | Raises ValueError => handler
  | _ => body
  end.

Definition find_indices (column : list Q) (val : Q) : py (nat * nat) :=
  value_below ← try_except_ValueError
                   (numpy_max (List.filter (fun x => Qltb x val) column))
                   (numpy_min column);
  index_i ← where_first (fun x => Qeqb x value_below) column;
  value_above ← try_except_ValueError
                   (numpy_min (List.filter (fun x => Qltb val x) column))
                   (numpy_max column);
  index_j ← where_first (fun x => Qeqb x value_above) column;
  Returns (index_i, index_j).

(** ** Stars *)

Definition Vec3 : Set := (Q * Q * Q)%type.

Definition vsub (u v : Vec3) : Vec3 :=
  let '(ux, uy, uz) := u in let '(vx, vy, vz) := v in (ux - vx, uy - vy, uz - vz).

Definition numpy_cross (u v : Vec3) : Vec3 :=
  let '(ux, uy, uz) := u in let '(vx, vy, vz) := v in
  (uy * vz - uz * vy, uz * vx - ux * vz, ux * vy - uy * vx).

Record Star : Set := {
  key : N;
  stellar_mass : Q;
  mass : Q;
  position : Vec3;
  velocity : Vec3;
  collisional_radius : Q;
  disk_radius : Q;
  disk_mass : Q;
  disk_size_np : Q;
  disk_mass_np : Q;
  dispersed : bool;
  checked : bool;
  code : bool;
  dispersal_time : Q;
  encounters : Z;
  truncation_mass_loss : Q;
  cumulative_truncation_mass_loss : Q;
  photoevap_mass_loss : Q;
  cumulative_photoevap_mass_loss : Q;
  initial_disk_mass : Q;
  EUV : bool;
  g0 : Q;
  nearby_supernovae : bool;
}.

(** Attribute assignments [s.attr = v]. *)
Definition set_mass (v : Q) (s : Star) : Star :=
  let '(Build_Star a b _ d e f g h i j k l m n o p q r0 s0 t u w x) := s in
  Build_Star a b v d e f g h i j k l m n o p q r0 s0 t u w x.
Definition set_collisional_radius (v : Q) (s : Star) : Star :=
  let '(Build_Star a b c d e _ g h i j k l m n o p q r0 s0 t u w x) := s in
  Build_Star a b c d e v g h i j k l m n o p q r0 s0 t u w x.
Definition set_disk_radius (v : Q) (s : Star) : Star :=
  let '(Build_Star a b c d e f _ h i j k l m n o p q r0 s0 t u w x) := s in
  Build_Star a b c d e f v h i j k l m n o p q r0 s0 t u w x.
Definition set_disk_mass (v : Q) (s : Star) : Star :=
  let '(Build_Star a b c d e f g _ i j k l m n o p q r0 s0 t u w x) := s in
  Build_Star a b c d e f g v i j k l m n o p q r0 s0 t u w x.
Definition set_disk_size_np (v : Q) (s : Star) : Star :=
  let '(Build_Star a b c d e f g h _ j k l m n o p q r0 s0 t u w x) := s in
  Build_Star a b c d e f g h v j k l m n o p q r0 s0 t u w x.
Definition set_disk_mass_np (v : Q) (s : Star) : Star :=
  let '(Build_Star a b c d e f g h i _ k l m n o p q r0 s0 t u w x) := s in
  Build_Star a b c d e f g h i v k l m n o p q r0 s0 t u w x.
Definition set_dispersed (v : bool) (s : Star) : Star :=
  let '(Build_Star a b c d e f g h i j _ l m n o p q r0 s0 t u w x) := s in
  Build_Star a b c d e f g h i j v l m n o p q r0 s0 t u w x.
Definition set_checked (v : bool) (s : Star) : Star :=
  let '(Build_Star a b c d e f g h i j k _ m n o p q r0 s0 t u w x) := s in
  Build_Star a b c d e f g h i j k v m n o p q r0 s0 t u w x.
Definition set_code (v : bool) (s : Star) : Star :=
  let '(Build_Star a b c d e f g h i j k l _ n o p q r0 s0 t u w x) := s in
  Build_Star a b c d e f g h i j k l v n o p q r0 s0 t u w x.
Definition set_dispersal_time (v : Q) (s : Star) : Star :=
  let '(Build_Star a b c d e f g h i j k l m _ o p q r0 s0 t u w x) := s in
  Build_Star a b c d e f g h i j k l m v o p q r0 s0 t u w x.
Definition set_encounters (v : Z) (s : Star) : Star :=
  let '(Build_Star a b c d e f g h i j k l m n _ p q r0 s0 t u w x) := s in
  Build_Star a b c d e f g h i j k l m n v p q r0 s0 t u w x.
Definition set_truncation_mass_loss (v : Q) (s : Star) : Star :=
  let '(Build_Star a b c d e f g h i j k l m n o _ q r0 s0 t u w x) := s in
  Build_Star a b c d e f g h i j k l m n o v q r0 s0 t u w x.
Definition set_cumulative_truncation_mass_loss (v : Q) (s : Star) : Star :=
  let '(Build_Star a b c d e f g h i j k l m n o p _ r0 s0 t u w x) := s in
  Build_Star a b c d e f g h i j k l m n o p v r0 s0 t u w x.
Definition set_photoevap_mass_loss (v : Q) (s : Star) : Star :=
  let '(Build_Star a b c d e f g h i j k l m n o p q _ s0 t u w x) := s in
  Build_Star a b c d e f g h i j k l m n o p q v s0 t u w x.
Definition set_cumulative_photoevap_mass_loss (v : Q) (s : Star) : Star :=
  let '(Build_Star a b c d e f g h i j k l m n o p q r0 _ t u w x) := s in
  Build_Star a b c d e f g h i j k l m n o p q r0 v t u w x.
Definition set_EUV (v : bool) (s : Star) : Star :=
  let '(Build_Star a b c d e f g h i j k l m n o p q r0 s0 t _ w x) := s in
  Build_Star a b c d e f g h i j k l m n o p q r0 s0 t v w x.
Definition set_g0 (v : Q) (s : Star) : Star :=
  let '(Build_Star a b c d e f g h i j k l m n o p q r0 s0 t u _ x) := s in
  Build_Star a b c d e f g h i j k l m n o p q r0 s0 t u v x.
Definition set_nearby_supernovae (v : bool) (s : Star) : Star :=
  let '(Build_Star a b c d e f g h i j k l m n o p q r0 s0 t u w _) := s in
  Build_Star a b c d e f g h i j k l m n o p q r0 s0 t u w v.

Section Physics.
Context {np : Numpy} {un : Units}.

Definition vlength (v : Vec3) : Q :=
  let '(x, y, z) := v in numpy_sqrt (x * x + y * y + z * z).

Definition distance (star1 star2 : Star) : Q :=
  let '(x1, y1, z1) := position star1 in
  let '(x2, y2, z2) := position star2 in
  numpy_sqrt ((x2 - x1) * (x2 - x1) + (y2 - y1) * (y2 - y1) + (z2 - z1) * (z2 - z1)).

Definition radiation_at_distance (rad d : Q) : Q :=
  rad / (4 * numpy_pi * (d * d)).

(** The result is a quantity in [LSun]. *)
Definition luminosity_fit (mass : Q) : Q :=
  if Qltb 0.12 mass && Qltb mass 0.24 then
    (1.70294e16 * numpy_power mass 42.557) * LSun
  else if Qltb 0.24 mass && Qltb mass 0.56 then
    (9.11137e-9 * numpy_power mass 3.8845) * LSun
  else if Qltb 0.56 mass && Qltb mass 0.70 then
    (1.10021e-6 * numpy_power mass 12.237) * LSun
  else if Qltb 0.70 mass && Qltb mass 0.91 then
    (2.38690e-4 * numpy_power mass 27.199) * LSun
  else if Qltb 0.91 mass && Qltb mass 1.37 then
    (1.02477e-4 * numpy_power mass 18.465) * LSun
  else if Qltb 1.37 mass && Qltb mass 2.07 then
    (9.66362e-4 * numpy_power mass 11.410) * LSun
  else if Qltb 2.07 mass && Qltb mass 3.72 then
    (6.49335e-2 * numpy_power mass 5.6147) * LSun
  else if Qltb 3.72 mass && Qltb mass 10.0 then
    (6.99075e-1 * numpy_power mass 3.8058) * LSun
  else if Qltb 10.0 mass && Qltb mass 20.2 then
    (9.73664e0 * numpy_power mass 2.6620) * LSun
  else if Qltb 20.2 mass then
    (1.31175e2 * numpy_power mass 1.7974) * LSun
  else 0 * LSun.

(** ** Encounter Resolver *)

Definition periastron_distance (stars : Star * Star) : Q :=
  let mu := constants_G * (mass stars.1 + mass stars.2) in
  let r := vsub (position stars.1) (position stars.2) in
  let v := vsub (velocity stars.1) (velocity stars.2) in
  let E := vlength v * vlength v / 2 - mu / vlength r in
  let a := - mu / 2 / E in
  let p := vlength (numpy_cross r v) * vlength (numpy_cross r v) / mu in
  let e := numpy_sqrt (1 - p / a) in
  p / (1 + e).

Definition nth2 {A : Type} (p : A * A) (i : nat) : A :=
  if (i =? 0)%nat then p.1 else p.2.

Definition set_nth2 {A : Type} (p : A * A) (i : nat) (x : A) : A * A :=
  if (i =? 0)%nat then (x, p.2) else (p.1, x).

Definition truncation_radius (closest_approach : Q) (s partner : Star) : Q :=
  ((closest_approach / au / 3)
   * numpy_power ((stellar_mass s / MSun) / (stellar_mass partner / MSun)) 0.32)
  * au.

(** The branch [truncation_radius <= 0.5 | units.au] of [resolve_encounter]. *)
Definition disperse_in_encounter (truncation_radius time : Q) (s : Star) : Star :=
  let s := set_dispersed true s in
  let s := set_disk_radius truncation_radius s in
  let s := set_disk_mass (0.0 * MJupiter) s in
  let s := set_dispersal_time time s in
  let s := set_truncation_mass_loss (disk_mass s) s in
  set_cumulative_truncation_mass_loss
    (cumulative_truncation_mass_loss s + disk_mass s) s.

(** The other branch: the disk is truncated and its mass recomputed. *)
Definition truncate_in_encounter (truncation_radius R_disk : Q) (s : Star) (c : Disk)
  : Star * Disk :=
  let old_mass := get_disk_mass c R_disk in
  let new_disk := truncate_disk c truncation_radius truncate_density_limit in
  let new_mass := get_disk_mass new_disk truncation_radius in
  let s := set_truncation_mass_loss (old_mass - new_mass) s in
  let s := set_cumulative_truncation_mass_loss
             (cumulative_truncation_mass_loss s + (old_mass - new_mass)) s in
  let s := set_disk_mass new_mass s in
  let s := set_mass (stellar_mass s + disk_mass s) s in
  (s, new_disk).

(** One turn of [for i in range(2)]; the state is
    [(stars, new_codes, truncated)]. *)
Definition resolve_star (closest_approach time : Q)
    (disk_codes : option Disk * option Disk) (i : nat)
    (st : (Star * Star) * list (option Disk) * bool)
  : (Star * Star) * list (option Disk) * bool :=
  let '(stars, new_codes, truncated) := st in
  match nth2 disk_codes i with
  | None => (stars, new_codes ++ [None], truncated)
  | Some c =>
      let s := nth2 stars i in
      let truncation_radius :=
        truncation_radius closest_approach s (nth2 stars (1 - i)) in
      let R_disk := disk_radius s in
      let '(s, new_codes, truncated) :=
        if Qltb truncation_radius R_disk then
          let s := set_encounters (encounters s + 1)%Z s in
          if Qleb truncation_radius (0.5 * au) then
            (disperse_in_encounter truncation_radius time s,
             new_codes ++ [Some c], true)
          else
            let '(s, new_disk) :=
              truncate_in_encounter truncation_radius R_disk s c in
            (s, new_codes ++ [Some new_disk], true)
        else (s, new_codes ++ [Some c], truncated) in
      let s :=
        if Qltb truncation_radius (disk_size_np s) then
          let s := set_disk_size_np truncation_radius s in
          set_disk_mass_np (disk_mass_np s * 1.6) s
        else s in
      (set_nth2 stars i s, new_codes, truncated)
  end.

(** Returns the stars as the call leaves them, then [truncated, new_codes]. *)
Definition resolve_encounter (stars : Star * Star)
    (disk_codes : option Disk * option Disk) (time : Q)
  : (Star * Star) * list (option Disk) * bool :=
  let closest_approach := periastron_distance stars in
  let stars := (set_collisional_radius (0.49 * closest_approach) stars.1,
                set_collisional_radius (0.49 * closest_approach) stars.2) in
  fold_left (fun st i => resolve_star closest_approach time disk_codes i st)
            [0%nat; 1%nat] (stars, [], false).

End Physics.

(** ** Disk Registry *)

(** The list [disk_codes], the dict [disk_codes_indices] (star key to position
    in [disk_codes]) and the counter [active_disks] of [main]. *)
Record Registry : Type := {
  disk_codes : list Disk;
  disk_codes_indices : gmap N nat;
  active_disks : Z;
}.

(** [d[k]] of a Python dict. *)
Definition dict_get {V : Type} (d : gmap N V) (k : N) : py V :=
  match d !! k with
  | Some v => Returns v
  | None => Raises KeyError
  end.

(** [disk_codes.append(s_code); disk_codes_indices[s.key] = len(disk_codes) - 1]. *)
Definition register (k : N) (s_code : Disk) (reg : Registry) : Registry :=
  let codes := disk_codes reg ++ [s_code] in
  {| disk_codes := codes;
     disk_codes_indices := <[k := (length codes - 1)%nat]> (disk_codes_indices reg);
     active_disks := active_disks reg |}.

Definition empty_registry : Registry :=
  {| disk_codes := []; disk_codes_indices := ∅; active_disks := 0 |}.

(** The creation loop over the small stars, then
    [active_disks = len(small_stars)]. *)
Definition initial_registry (small_stars : list (N * Disk)) : Registry :=
  let reg := fold_left (fun reg s => register s.1 s.2 reg) small_stars empty_registry in
  {| disk_codes := disk_codes reg;
     disk_codes_indices := disk_codes_indices reg;
     active_disks := Z.of_nat (length small_stars) |}.

(** The block every retirement path ends with:
    [to_del = disk_codes_indices[key]; disk_codes[to_del].stop();
     del disk_codes[to_del]; (shift the larger indices);
     del disk_codes_indices[key]; active_disks -= 1]. *)
Definition delete_code (k : N) (reg : Registry) : py Registry :=
  to_del ← dict_get (disk_codes_indices reg) k;
  _ ← getitem (disk_codes reg) to_del;
  let indices := (fun i => if (to_del <? i)%nat then (i - 1)%nat else i)
                   <$> disk_codes_indices reg in
  Returns {| disk_codes := delete to_del (disk_codes reg);
             disk_codes_indices := delete k indices;
             active_disks := (active_disks reg - 1)%Z |}.

(** The places of [main] that retire a disk. *)
Inductive retirement : Set :=
| Supernova              (* r_disk == 0 after a supernova *)
| DispersedInEncounter   (* dispersed in resolve_encounter, not yet checked *)
| Diverged               (* the solver did not converge *)
| DensityThreshold       (* radius < 0.5 au or mean density under the threshold *)
| PhotoevapThreshold     (* cumulative loss >= initial mass, or mass under the floor *)
| EvaporatedAway.        (* evaporate returned None *)

Section Orchestrator.
Context {np : Numpy} {un : Units}.

(** The attribute assignments of each retirement path. *)
Definition retire_star (why : retirement) (t : Q) (s : Star) : Star :=
  match why with
  | Supernova =>
      let s := set_disk_radius (0 * au) s in
      let s := set_disk_mass (0 * MSun) s in
      let s := set_dispersed true s in
      let s := set_nearby_supernovae true s in
      let s := set_checked true s in
      set_dispersal_time t s
  | DispersedInEncounter =>
      let s := set_disk_radius (0 * au) s in
      let s := set_disk_mass (0 * MSun) s in
      let s := set_checked true s in
      let s := set_code false s in
      set_dispersal_time t s
  | Diverged =>
      let s := set_dispersed true s in
      let s := set_code false s in
      let s := set_checked true s in
      set_dispersal_time t s
  | DensityThreshold | PhotoevapThreshold | EvaporatedAway =>
      let s := set_disk_radius (0 * au) s in
      let s := set_disk_mass (0 * MSun) s in
      let s := set_dispersed true s in
      let s := set_checked true s in
      let s := set_code false s in
      set_dispersal_time t s
  end.

Definition retire_disk (why : retirement) (t : Q) (s : Star) (reg : Registry)
  : py (Star * Registry) :=
  let s := retire_star why t s in
  reg ← delete_code (key s) reg;
  Returns (s, reg).

(** ** Photoevaporation Engine *)

Definition init_total_radiation (small_stars : list Star) : gmap N Q :=
  fold_left (fun total_radiation ss => <[key ss := 0]> total_radiation)
            small_stars ∅.

Definition EUV_dmin (ss : Star) : Q :=
  5 * 1e17 * 0.25 * numpy_sqrt (disk_radius ss / 1e14).

(** The body of the inner loop, for the bright star [s] of luminosity [lum]
    and one element [ss] of [small_stars]; dispersed stars are not in
    [small_stars[small_stars.dispersed == False]]. *)
Definition irradiate (s : Star) (lum : Q) (ss : Star) (total_radiation : gmap N Q)
  : py (Star * gmap N Q) :=
  if dispersed ss then Returns (ss, total_radiation)
  else
    let dist := distance s ss in
    if Qltb dist (EUV_dmin ss) then Returns (set_EUV true ss, total_radiation)
    else
      let radiation_ss := radiation_at_distance lum dist in
      let radiation_ss_G0 := radiation_ss / 1.6e-3 in
      old ← dict_get total_radiation (key ss);
      Returns (ss, <[key ss := old + radiation_ss_G0]> total_radiation).

Fixpoint irradiate_all (s : Star) (lum : Q) (small_stars : list Star)
    (total_radiation : gmap N Q) : py (list Star * gmap N Q) :=
  match small_stars with
  | [] => Returns ([], total_radiation)
  | ss :: rest =>
      '(ss, total_radiation) ← irradiate s lum ss total_radiation;
      '(rest, total_radiation) ← irradiate_all s lum rest total_radiation;
      Returns (ss :: rest, total_radiation)
  end.

(** The loop [for s in bright_stars]. *)
Fixpoint fuv_radiation (bright_stars small_stars : list Star)
    (total_radiation : gmap N Q) : py (list Star * gmap N Q) :=
  match bright_stars with
  | [] => Returns (small_stars, total_radiation)
  | s :: rest =>
      let lum := luminosity_fit (stellar_mass s / MSun) in
      '(small_stars, total_radiation) ←
        irradiate_all s lum small_stars total_radiation;
      fuv_radiation rest small_stars total_radiation
  end.

Definition total_radiation_of (bright_stars small_stars : list Star)
  : py (list Star * gmap N Q) :=
  fuv_radiation bright_stars small_stars (init_total_radiation small_stars).

(** The query point [xi] of the interpolation, filled in the order of the
    source: [xi[0][0]], [xi[0][1]], [xi[0][3]], [xi[0][2]]. *)
Definition query_point (total_radiation : gmap N Q) (reg : Registry) (ss : Star)
  : py (Q * Q * Q * Q) :=
  let xi0 := stellar_mass ss / MSun in
  xi1 ← dict_get total_radiation (key ss);
  i ← dict_get (disk_codes_indices reg) (key ss);
  c ← getitem (disk_codes reg) i;
  radius ← get_disk_radius c radius_density_limit;
  let xi3 := radius / au in
  i ← dict_get (disk_codes_indices reg) (key ss);
  c ← getitem (disk_codes reg) i;
  let xi2 := get_disk_mass c (xi3 * au) / MJupiter in
  Returns (xi0, xi1, xi2, xi3).

(** [disk_codes[i] = c]. *)
Definition setitem (l : list Disk) (i : nat) (c : Disk) : py (list Disk) :=
  _ ← getitem l i; Returns (<[i := c]> l).

(** The end of the per-star body of the photoevaporation pass, from
    [total_photoevap_mass_loss = ...euv + ...fuv] on.  The last component of
    the result lists the calls of [evaporate] with their arguments. *)
Definition apply_photoevaporation
    (t total_photoevap_mass_loss_euv total_photoevap_mass_loss_fuv : Q)
    (ss : Star) (reg : Registry)
  : py (Star * Registry * list (Disk * Q)) :=
  let total_photoevap_mass_loss :=
    total_photoevap_mass_loss_euv + total_photoevap_mass_loss_fuv in
  let ss := set_photoevap_mass_loss total_photoevap_mass_loss ss in
  let ss := set_cumulative_photoevap_mass_loss
              (cumulative_photoevap_mass_loss ss + total_photoevap_mass_loss) ss in
  if Qleb (initial_disk_mass ss) (cumulative_photoevap_mass_loss ss)
     || Qltb (disk_mass ss) (0.03 * MEarth)
  then
    '(ss, reg) ← retire_disk PhotoevapThreshold t ss reg;
    Returns (ss, reg, [])
  else
    i ← dict_get (disk_codes_indices reg) (key ss);
    c ← getitem (disk_codes reg) i;
    evaporated_disk ← evaporate c total_photoevap_mass_loss;
    let calls := [(c, total_photoevap_mass_loss)] in
    match evaporated_disk with
    | Some evaporated_disk =>
        i ← dict_get (disk_codes_indices reg) (key ss);
        codes ← setitem (disk_codes reg) i evaporated_disk;
        let reg := {| disk_codes := codes;
                      disk_codes_indices := disk_codes_indices reg;
                      active_disks := active_disks reg |} in
        i ← dict_get (disk_codes_indices reg) (key ss);
        c ← getitem (disk_codes reg) i;
        radius ← get_disk_radius c radius_density_limit;
        let ss := set_disk_radius radius ss in
        let ss := set_disk_mass (get_disk_mass c (disk_radius ss)) ss in
        Returns (ss, reg, calls)
    | None =>
        '(ss, reg) ← retire_disk EvaporatedAway t ss reg;
        Returns (ss, reg, calls)
    end.

End Orchestrator.

(** ** Instances used to run the model on examples *)

(** A rational square root: exact on squares of rationals, and elsewhere
    within [1e-20] below the root. *)
Definition sample_sqrt (q : Q) : Q :=
  let scale := (10 ^ 20)%positive in
  Z.sqrt (Qnum q * Zpos (Qden q) * Zpos scale * Zpos scale) # (Qden q * scale).

(** A coarse power: exact at integer exponents, linear in between. *)
Definition sample_power (x y : Q) : Q :=
  Qpower x (Qfloor y) * (1 + (y - inject_Z (Qfloor y)) * (x - 1)).

(** [numpy.pi] is the double [884279719003555 / 2**48]. *)
Definition sample_numpy : Numpy := {|
  numpy_pi := 884279719003555 # 281474976710656;
  numpy_sqrt := sample_sqrt;
  numpy_power := sample_power;
|}.

(** The sizes of the units in cgs. *)
Definition cgs_units : Units := {|
  au := 1.49597870691e13;
  MSun := 1.98892e33;
  MJupiter := 1.8987e30;
  MEarth := 5.9722e27;
  LSun := 3.839e33;
  constants_G := 6.67428e-8;
|}.

Section Samples.
#[local] Existing Instances sample_numpy cgs_units.

(** A star of one solar mass with a disk of a tenth of its mass and a
    radius of 100 au. *)
Definition sample_star (k : N) (position velocity : Vec3) : Star :=
  {| key := k; stellar_mass := 1 * MSun; mass := 1.1 * MSun;
     position := position; velocity := velocity;
     collisional_radius := 6.1714e16;
     disk_radius := 100 * au; disk_mass := 0.1 * MSun;
     disk_size_np := 100 * au; disk_mass_np := 0.1 * MSun;
     dispersed := false; checked := false; code := true; dispersal_time := 0;
     encounters := 0;
     truncation_mass_loss := 0; cumulative_truncation_mass_loss := 0;
     photoevap_mass_loss := 0; cumulative_photoevap_mass_loss := 0;
     initial_disk_mass := 0.1 * MSun; EUV := false; g0 := 0;
     nearby_supernovae := false |}.

(** A bright star of 20 solar masses without a disk. *)
Definition sample_bright_star (k : N) (position : Vec3) : Star :=
  {| key := k; stellar_mass := 20 * MSun; mass := 20 * MSun;
     position := position; velocity := (0, 0, 0);
     collisional_radius := 6.1714e16;
     disk_radius := 0 * au; disk_mass := 0 * MSun;
     disk_size_np := 0; disk_mass_np := 0;
     dispersed := false; checked := false; code := false; dispersal_time := 0;
     encounters := 0;
     truncation_mass_loss := 0; cumulative_truncation_mass_loss := 0;
     photoevap_mass_loss := 0; cumulative_photoevap_mass_loss := 0;
     initial_disk_mass := 0; EUV := false; g0 := 0;
     nearby_supernovae := false |}.

(** A grid of four cells whose outer edge is the third cell. *)
Definition sample_disk : Disk :=
  {| grid := [ {| r := 1 * au; column_density := 100; area := 1e27 |};
               {| r := 50 * au; column_density := 10; area := 1e30 |};
               {| r := 100 * au; column_density := 1; area := 1e30 |};
               {| r := 150 * au; column_density := 1e-12; area := 1e30 |} ];
     alpha := 5e-3; inner_boundary_mass_out := 0 |}.

(** Two stars 200 au apart; the first moves across the line between them
    at 300 m/s. *)
Definition sample_encounter : Star * Star :=
  (sample_star 1 (200 * au, 0, 0) (0, 30000, 0),
   sample_star 2 (0, 0, 0) (0, 0, 0)).

End Samples.

(** ** Predicates and sums used in the statements *)

(** The radii of a solver grid grow with the cell index. *)
Definition increasing_radii (cells : list Cell) : Prop :=
  forall i j ci cj, (i < j)%nat -> cells !! i = Some ci -> cells !! j = Some cj ->
                    r ci < r cj.

(** The masses of [cells] added from the last cell to the first. *)
Definition outside_in_mass (cells : list Cell) : Q :=
  fold_right (fun c swiped_mass => swiped_mass + cell_mass c) 0 cells.

(** The registry is dense: the star keys map to distinct positions, the
    positions in use are exactly those under [active_disks], and
    [active_disks] is the number of disk codes. *)
Definition dense (reg : Registry) : Prop :=
  (forall k1 k2 i, disk_codes_indices reg !! k1 = Some i ->
                   disk_codes_indices reg !! k2 = Some i -> k1 = k2) /\
  (forall i : nat, (exists k, disk_codes_indices reg !! k = Some i)
                   <-> (Z.of_nat i < active_disks reg)%Z) /\
  active_disks reg = Z.of_nat (length (disk_codes reg)).

(** The registries [main] can be in: the one built from small stars with
    distinct keys, and the ones left by a retirement. *)
Inductive reachable {np : Numpy} {un : Units} : Registry -> Prop :=
| reachable_initial (small_stars : list (N * Disk)) :
    NoDup small_stars.*1 ->
    reachable (initial_registry small_stars)
| reachable_retire (reg reg' : Registry) (why : retirement) (t : Q) (s s' : Star) :
    reachable reg ->
    retire_disk why t s reg = Returns (s', reg') ->
    reachable reg'.

Section FarField.
Context {np : Numpy} {un : Units}.

(** The FUV flux, in units of G0, that the bright star [s] adds to the
    total of the small star [ss]: its luminosity over the sphere of radius
    their distance, and nothing when [ss] is in the EUV regime of [s]. *)
Definition fuv_contribution (s ss : Star) : Q :=
  if Qltb (distance s ss) (EUV_dmin ss) then 0
  else radiation_at_distance (luminosity_fit (stellar_mass s / MSun))
                             (distance s ss) / 1.6e-3.

Definition fuv_sum (bright_stars : list Star) (ss : Star) : Q :=
  fold_left (fun total s => total + fuv_contribution s ss) bright_stars 0.

(** What the loops read of a small star. *)
Definition placement (ss : Star) : N * bool * Vec3 * Q :=
  (key ss, dispersed ss, position ss, disk_radius ss).

End FarField.

(** ** More of the source: mean density, initial profile, table rows, disk check *)

Definition set_stellar_mass (v : Q) (s : Star) : Star :=
  let '(Build_Star a _ c d e f g h i j k l m n o p q r0 s0 t u w x) := s in
  Build_Star a v c d e f g h i j k l m n o p q r0 s0 t u w x.

(** [numpy.mean]: the mean of an empty array is [nan], here [None]. *)
Definition numpy_mean (values : list Q) : option Q :=
  match values with
  | [] => None
  | _ => Some (fold_left Qplus values 0 / inject_Z (Z.of_nat (length values)))
  end.

(** The mean runs over [disk.grid[:radius_index]]: the cells before the one
    at the disk radius. *)
Definition get_disk_density (disk : Disk) : py (option Q) :=
  radius ← get_disk_radius disk radius_density_limit;
  radius_index ← where_first (fun c => Qeqb (r c) radius) (grid disk);
  let density := column_density <$> take radius_index (grid disk) in
  Returns (numpy_mean density).

(** [a <= b] where [a] may be [nan]: a comparison with [nan] is false. *)
Definition nan_leb (a : option Q) (b : Q) : bool :=
  match a with
  | Some a => Qleb a b
  | None => false
  end.

(** [disk_codes[disk_codes_indices[k]]]. *)
Definition disk_code_of (reg : Registry) (k : N) : py Disk :=
  i ← dict_get (disk_codes_indices reg) k;
  getitem (disk_codes reg) i.

(** [l.index(x)] of a Python list. *)
Fixpoint list_index (x : nat) (l : list nat) : py nat :=
  match l with
  | [] => Raises ValueError
  | y :: rest =>
      if (y =? x)%nat then Returns 0%nat
      else i ← list_index x rest; Returns (S i)
  end.

(** [Mdot_values = numpy.ndarray(shape=(8, ))]: eight slots nothing was
    written to, [None]. *)
Definition empty_Mdot_values : list (option Q) := replicate 8 None.

(** The loop [for x in indices_list:
      Mdot_values[indices_list.index(x)] = grid_log10Mdot[x]],
    over the entries [todo] still to visit. *)
Fixpoint fill_Mdot_values (grid_log10Mdot : list Q) (indices_list todo : list nat)
    (Mdot_values : list (option Q)) : py (list (option Q)) :=
  match todo with
  | [] => Returns Mdot_values
  | x :: rest =>
      v ← getitem grid_log10Mdot x;
      slot ← list_index x indices_list;
      _ ← getitem Mdot_values slot;
      fill_Mdot_values grid_log10Mdot indices_list rest (<[slot := Some v]> Mdot_values)
  end.

Definition Mdot_values_of (grid_log10Mdot : list Q) (indices_list : list nat)
  : py (list (option Q)) :=
  fill_Mdot_values grid_log10Mdot indices_list indices_list empty_Mdot_values.

Section MoreOfMain.
Context {np : Numpy} {un : Units}.

(** [Sigma] of the source function [column_density], for the cell radii
    [grid_r]; [numpy_exp] is [numpy.exp], and [(r <= rc)] counts as 1 or 0. *)
Definition column_density_profile (numpy_exp : Q -> Q) (grid_r : list Q)
    (rc mass lower_density : Q) : list Q :=
  let rd := rc in
  let Md := mass in
  let Sigma_0 := Md / (2 * numpy_pi * (rc * rc) * (1 - numpy_exp (- rd / rc))) in
  (fun r => Sigma_0 * (rc / r) * numpy_exp (- r / rc)
            * (if Qleb r rc then 1 else 0) + lower_density) <$> grid_r.

(** Default [lower_density] of [column_density]. *)
Definition profile_lower_density : Q := 1e-12.

(** [disk.grid.column_density = sigma]. *)
Definition set_column_density (disk : Disk) (sigma : list Q) : Disk :=
  {| grid := zip_with (fun c d => {| r := r c; column_density := d; area := area c |})
                      (grid disk) sigma;
     alpha := alpha disk;
     inner_boundary_mass_out := inner_boundary_mass_out disk |}.

(** [initialize_vader_code], from the disk [disk] as
    [initialize_keplerian_grid] leaves it: the column density is set to the
    profile and [alpha] to the parameter. *)
Definition initialize_vader_code (numpy_exp : Q -> Q) (disk : Disk)
    (disk_radius disk_mass alpha : Q) : Disk :=
  let sigma := column_density_profile numpy_exp (r <$> grid disk) disk_radius disk_mass
                                      profile_lower_density in
  let disk := set_column_density disk sigma in
  {| grid := grid disk; alpha := alpha;
     inner_boundary_mass_out := inner_boundary_mass_out disk |}.

(** The eight rows of the table that bracket the star, two per axis, in the
    order of [indices_list]. *)
Definition fried_indices (grid_stellar_mass grid_FUV grid_disk_mass grid_disk_radius
                          : list Q) (total_radiation_ss : Q) (ss : Star)
  : py (list nat) :=
  '(stellar_mass_i, stellar_mass_j) ←
    find_indices grid_stellar_mass (stellar_mass ss / MSun);
  '(FUV_i, FUV_j) ← find_indices grid_FUV total_radiation_ss;
  '(disk_mass_i, disk_mass_j) ← find_indices grid_disk_mass (disk_mass ss / MJupiter);
  '(disk_radius_i, disk_radius_j) ←
    find_indices grid_disk_radius (disk_radius ss / au);
  Returns [stellar_mass_i; stellar_mass_j; FUV_i; FUV_j;
           disk_mass_i; disk_mass_j; disk_radius_i; disk_radius_j].

(** [s.dispersion_threshold], the same for every small star. *)
Definition dispersion_threshold : Q := 1e-5.

(** The body of [for s, c in zip(small_stars, disk_codes)]; [diverged_c] is
    [diverged_disks[c]]. *)
Definition check_disk (t : Q) (s : Star) (c : Disk) (diverged_c : bool)
    (reg : Registry) : py (Star * Registry) :=
  if dispersed s && negb (checked s) then
    retire_disk DispersedInEncounter t s reg
  else
    let update (s : Star) : py (Star * Registry) :=
      let s := set_stellar_mass (stellar_mass s + inner_boundary_mass_out c) s in
      radius ← get_disk_radius c radius_density_limit;
      let s := set_disk_radius radius s in
      let s := set_disk_mass (get_disk_mass c (disk_radius s)) s in
      let s := set_mass (stellar_mass s + disk_mass s) s in
      Returns (s, reg) in
    if code s && negb (checked s) then
      if diverged_c then retire_disk Diverged t s reg
      else
        disk_density ← get_disk_density c;
        if Qltb (disk_radius s / au) 0.5 || nan_leb disk_density dispersion_threshold
        then retire_disk DensityThreshold t s reg
        else update s
    else update s.

(** The loop: [zip] pairs the stars and the codes by position, as they are
    when the loop starts, and stops at the shorter of the two. *)
Fixpoint check_disks (t : Q) (small_stars : list Star) (codes : list (Disk * bool))
    (reg : Registry) : py (list Star * Registry) :=
  match small_stars, codes with
  | s :: small_stars, (c, diverged_c) :: codes =>
      '(s, reg) ← check_disk t s c diverged_c reg;
      '(small_stars, reg) ← check_disks t small_stars codes reg;
      Returns (s :: small_stars, reg)
  | _, _ => Returns (small_stars, reg)
  end.

End MoreOfMain.

(** A coarse exponential to run examples: [1 / (1 - x)], for [x <= 0]. *)
Definition sample_exp (x : Q) : Q := 1 / (1 - x).

(** * Theorems *)

(** ** Comparisons *)

Lemma Qltb_lt (x y : Q) : Qltb x y = true <-> x < y.
Proof.
  unfold Qltb. rewrite negb_true_iff, <- not_true_iff_false, Qle_bool_iff.
  split; [apply Qnot_le_lt | apply Qlt_not_le].
Qed.

Lemma Qltb_ge (x y : Q) : Qltb x y = false <-> y <= x.
Proof.
  unfold Qltb. rewrite negb_false_iff. apply Qle_bool_iff.
Qed.

Lemma Qleb_le (x y : Q) : Qleb x y = true <-> x <= y.
Proof. apply Qle_bool_iff. Qed.

Lemma Qleb_gt (x y : Q) : Qleb x y = false <-> y < x.
Proof.
  unfold Qleb. rewrite <- not_true_iff_false, Qle_bool_iff.
  split; [apply Qnot_le_lt | apply Qlt_not_le].
Qed.

Lemma Qeqb_eq (x y : Q) : Qeqb x y = true <-> x == y.
Proof. apply Qeq_bool_iff. Qed.

Lemma Qeqb_neq (x y : Q) : Qeqb x y = false <-> ~ x == y.
Proof.
  unfold Qeqb. rewrite <- not_true_iff_false, Qeq_bool_iff. tauto.
Qed.

(** Case analysis on a float comparison, with the order fact in context. *)
Ltac case_Qltb x y :=
  let H := fresh "Hcmp" in
  destruct (Qltb x y) eqn:H;
  [apply Qltb_lt in H | apply Qltb_ge in H].

Ltac case_Qleb x y :=
  let H := fresh "Hcmp" in
  destruct (Qleb x y) eqn:H;
  [apply Qleb_le in H | apply Qleb_gt in H].

(** ** Exceptions *)

Lemma bind_Returns {A B : Type} (m : py A) (k : A -> py B) (b : B) :
  m ≫= k = Returns b -> exists a, m = Returns a /\ k a = Returns b.
Proof. destruct m as [a|e]; [eauto | discriminate]. Qed.

Lemma getitem_Returns {A : Type} (l : list A) (i : nat) (a : A) :
  getitem l i = Returns a <-> l !! i = Some a.
Proof. unfold getitem. destruct (l !! i); split; congruence. Qed.

Lemma getitem_lt {A : Type} (l : list A) (i : nat) :
  (i < length l)%nat -> exists a, getitem l i = Returns a /\ l !! i = Some a.
Proof.
  intros Hi. destruct (lookup_lt_is_Some_2 l i Hi) as [a Ha].
  exists a. split; [by apply getitem_Returns | done].
Qed.

(** ** Grid Query Layer *)

(** [scan_radius] stops at the first cell under the limit: [k] counts the
    cells before it. *)
Lemma scan_radius_spec (density_limit prev_r : Q) (cells : list Cell) :
  exists k : nat,
    (k <= length cells)%nat /\
    (forall j cj, (j < k)%nat -> cells !! j = Some cj ->
                  density_limit <= column_density cj) /\
    (forall ck, cells !! k = Some ck -> column_density ck < density_limit) /\
    scan_radius density_limit prev_r cells
    = match k with
      | O => prev_r
      | S k' => from_option r prev_r (cells !! k')
      end.
Proof.
  revert prev_r. induction cells as [|c rest IH]; intros prev_r.
  - exists 0%nat. repeat split; [done | intros; lia | naive_solver].
  - simpl. case_Qltb (column_density c) density_limit.
    + exists 0%nat. repeat split; [lia | intros; lia | naive_solver].
    + destruct (IH (r c)) as (k & Hk & Hdense & Hstop & Hres).
      exists (S k). repeat split.
      * simpl. lia.
      * intros [|j] cj Hj Hlook; simpl in Hlook.
        -- by inversion Hlook; subst.
        -- apply (Hdense j); [lia | done].
      * intros ck Hlook. by apply Hstop.
      * rewrite Hres. destruct k as [|k']; simpl; [done|].
        destruct (rest !! k') as [ck|] eqn:Hk'; simpl; [done|].
        apply lookup_ge_None in Hk'. lia.
Qed.

(** After a truncation at [new_radius], the scan stops at a cell inside it. *)
Lemma scan_radius_truncated (new_radius prev_r : Q) (cells : list Cell) :
  prev_r <= new_radius ->
  scan_radius radius_density_limit prev_r
    (map (truncate_cell new_radius truncate_density_limit) cells) <= new_radius.
Proof.
  revert prev_r. induction cells as [|c rest IH]; intros prev_r Hprev; simpl; [done|].
  unfold truncate_cell at 1 2.
  case_Qltb new_radius (r c); simpl.
  - done.
  - case_Qltb (column_density c) radius_density_limit; [done | by apply IH].
Qed.

Lemma where_first_Returns {A : Type} (cond : A -> bool) (l : list A) (i : nat) :
  where_first cond l = Returns i ->
  exists x, l !! i = Some x /\ cond x = true /\
            forall j y, (j < i)%nat -> l !! j = Some y -> cond y = false.
Proof.
  revert i. induction l as [|x rest IH]; intros i; simpl; [discriminate|].
  destruct (cond x) eqn:Hx.
  - intros [= <-]. exists x. repeat split; [done | intros; lia].
  - intros Hb. apply bind_Returns in Hb as (i' & Hi' & [= <-]).
    destruct (IH _ Hi') as (y & Hy & Hcy & Hbefore).
    exists y. repeat split; [done | done |].
    intros [|j] z Hj Hz; simpl in Hz; [by inversion Hz; subst|].
    apply (Hbefore j); [lia | done].
Qed.

Lemma where_first_total {A : Type} (cond : A -> bool) (l : list A) (i : nat) (x : A) :
  l !! i = Some x -> cond x = true ->
  exists i', where_first cond l = Returns i' /\ (i' <= i)%nat.
Proof.
  revert i. induction l as [|y rest IH]; intros i Hi Hx; [done|]. simpl.
  destruct (cond y) eqn:Hy.
  - exists 0%nat. split; [done | lia].
  - destruct i as [|i]; simpl in Hi; [congruence|].
    destruct (IH _ Hi Hx) as (i' & -> & Hle).
    exists (S i'). split; [done | lia].
Qed.

Lemma evaporate_loop_total (disk : Disk) (mass_to_remove swiped_mass : Q) (n : nat) :
  (n <= length (grid disk))%nat ->
  exists res, evaporate_loop disk mass_to_remove swiped_mass n = Returns res.
Proof.
  revert swiped_mass. induction n as [|i IH]; intros swiped_mass Hn; simpl; [eauto|].
  destruct (getitem_lt (grid disk) i) as (c & -> & _); [lia|]. simpl.
  case_Qltb (swiped_mass + cell_mass c) mass_to_remove.
  - apply IH. lia.
  - destruct (i =? 0)%nat; eauto.
Qed.

(** A disk is returned only from a turn of the loop with [i <> 0]. *)
Lemma evaporate_loop_Some (disk d' : Disk) (mass_to_remove swiped_mass : Q) (n : nat) :
  evaporate_loop disk mass_to_remove swiped_mass n = Returns (Some d') ->
  exists i c, (1 <= i < n)%nat /\ grid disk !! i = Some c /\
              d' = truncate_disk disk (r c) truncate_density_limit.
Proof.
  revert swiped_mass. induction n as [|i IH]; intros swiped_mass; simpl; [discriminate|].
  intros Hb. apply bind_Returns in Hb as (c & Hc & Hb).
  apply getitem_Returns in Hc.
  case_Qltb (swiped_mass + cell_mass c) mass_to_remove.
  - destruct (IH _ Hb) as (j & cj & Hj & Hcj & ->).
    exists j, cj. repeat split; [lia | lia | done].
  - destruct (i =? 0)%nat eqn:Hi0; [discriminate|].
    apply Nat.eqb_neq in Hi0. inversion Hb; subst.
    exists i, c. repeat split; [lia | lia | done].
Qed.

(** [None] means that the target was not met before the innermost cell. *)
Lemma evaporate_loop_None (disk : Disk) (mass_to_remove swiped_mass : Q) (n : nat) :
  swiped_mass < mass_to_remove ->
  evaporate_loop disk mass_to_remove swiped_mass n = Returns None ->
  swiped_mass + outside_in_mass (drop 1 (take n (grid disk))) < mass_to_remove.
Proof.
  revert swiped_mass. induction n as [|i IH]; intros swiped_mass Hlt; simpl.
  - intros _. lra.
  - intros Hb. apply bind_Returns in Hb as (c & Hc & Hb).
    apply getitem_Returns in Hc.
    destruct i as [|i].
    + replace (drop 1 (take 1 (grid disk))) with (@nil Cell).
      * simpl. lra.
      * destruct (grid disk); done.
    + case_Qltb (swiped_mass + cell_mass c) mass_to_remove; [|discriminate].
      specialize (IH _ Hcmp Hb).
      rewrite (take_S_r _ _ _ Hc).
      rewrite drop_app_le by (rewrite length_take; apply lookup_lt_Some in Hc; lia).
      unfold outside_in_mass in *. rewrite fold_right_app. simpl.
      assert (Hacc : forall (l : list Cell) (a : Q),
                 fold_right (fun c0 s => s + cell_mass c0) a l
                 == a + fold_right (fun c0 s => s + cell_mass c0) 0 l).
      { induction l as [|x l IHl]; intros a; simpl; [lra|]. rewrite (IHl a). lra. }
      rewrite Hacc. lra.
Qed.

Lemma truncate_disk_length (disk : Disk) (new_radius density_limit : Q) :
  length (grid (truncate_disk disk new_radius density_limit)) = length (grid disk).
Proof. simpl. apply length_map. Qed.

Lemma truncate_disk_lookup (disk : Disk) (new_radius density_limit : Q) (i : nat) :
  grid (truncate_disk disk new_radius density_limit) !! i
  = truncate_cell new_radius density_limit <$> grid disk !! i.
Proof. simpl. apply list_lookup_fmap. Qed.

Lemma get_disk_radius_truncated (disk : Disk) (new_radius : Q) (c0 : Cell) :
  grid disk !! 0%nat = Some c0 -> r c0 <= new_radius ->
  exists radius,
    get_disk_radius (truncate_disk disk new_radius truncate_density_limit)
                    radius_density_limit = Returns radius
    /\ radius <= new_radius.
Proof.
  intros Hc0 Hle. unfold get_disk_radius, getitem.
  rewrite truncate_disk_lookup, Hc0. simpl.
  eexists. split; [reflexivity|].
  apply scan_radius_truncated.
  unfold truncate_cell. by destruct (Qltb new_radius (r c0)).
Qed.

(** [get_disk_radius] returns on a grid with cells, and the radius is that
    of one of the cells. *)
Lemma get_disk_radius_cell (disk : Disk) (density_limit : Q) :
  grid disk <> [] ->
  exists (i : nat) (c : Cell),
    get_disk_radius disk density_limit = Returns (r c) /\
    grid disk !! i = Some c.
Proof.
  intros Hne. unfold get_disk_radius, getitem.
  destruct (grid disk) as [|c0 rest] eqn:Hgrid; [done|]. simpl.
  destruct (scan_radius_spec density_limit (r c0) (c0 :: rest))
    as ([|k'] & Hk & _ & _ & Hres); simpl in Hres; rewrite Hres.
  - by exists 0%nat, c0.
  - destruct (lookup_lt_is_Some_2 (c0 :: rest) k') as [c Hc]; [simpl in *; lia|].
    exists k', c. by rewrite Hc.
Qed.

(** C7: [get_disk_radius] returns the radius of the last cell before the
    column density first drops under [density_limit] (all [k] cells before
    the drop are at or above the limit), and the radius of the first cell
    when that cell is already under the limit ([k = 0]). *)
Theorem get_disk_radius_outer_edge (disk : Disk) (density_limit : Q) :
  grid disk <> [] ->
  exists (k : nat) (c : Cell),
    get_disk_radius disk density_limit = Returns (r c) /\
    grid disk !! (k - 1)%nat = Some c /\
    (k <= length (grid disk))%nat /\
    (forall j cj, (j < k)%nat -> grid disk !! j = Some cj ->
                  density_limit <= column_density cj) /\
    (forall ck, grid disk !! k = Some ck -> column_density ck < density_limit).
Proof.
  intros Hne. unfold get_disk_radius, getitem.
  destruct (grid disk) as [|c0 rest] eqn:Hgrid; [done|]. simpl.
  destruct (scan_radius_spec density_limit (r c0) (c0 :: rest))
    as (k & Hk & Hdense & Hstop & Hres).
  simpl in Hres. rewrite Hres.
  destruct k as [|k'].
  - exists 0%nat, c0. repeat split; [lia | intros; lia | done].
  - destruct ((c0 :: rest) !! k') as [c|] eqn:Hc.
    + exists (S k'), c. simpl. rewrite Nat.sub_0_r.
      repeat split; [done | done | done | done].
    + apply lookup_ge_None in Hc. simpl in *. lia.
Qed.

Lemma get_disk_radius_outer_edge_witness :
  exists (k : nat) (c : Cell),
    let disk := {| grid := [ {| r := 1; column_density := 1; area := 1 |};
                             {| r := 2; column_density := 1e-12; area := 1 |} ];
                   alpha := 0; inner_boundary_mass_out := 0 |} in
    get_disk_radius disk radius_density_limit = Returns (r c) /\
    grid disk !! (k - 1)%nat = Some c /\
    (k <= length (grid disk))%nat /\
    (forall j cj, (j < k)%nat -> grid disk !! j = Some cj ->
                  radius_density_limit <= column_density cj) /\
    (forall ck, grid disk !! k = Some ck -> column_density ck < radius_density_limit).
Proof.
  apply (get_disk_radius_outer_edge
           {| grid := [ {| r := 1; column_density := 1; area := 1 |};
                        {| r := 2; column_density := 1e-12; area := 1 |} ];
              alpha := 0; inner_boundary_mass_out := 0 |}).
  simpl. discriminate.
Defined.

(** C8: a truncation at a radius not inside the innermost cell is seen by the
    radius query: the density written by [truncate_disk] is under the limit
    of [get_disk_radius], and the radius found afterwards is at most the
    truncation radius. *)
Theorem truncation_visible_to_radius_query (disk : Disk) (new_radius : Q) (c0 : Cell) :
  grid disk !! 0%nat = Some c0 ->
  r c0 <= new_radius ->
  truncate_density_limit < radius_density_limit /\
  exists radius,
    get_disk_radius (truncate_disk disk new_radius truncate_density_limit)
                    radius_density_limit = Returns radius
    /\ radius <= new_radius.
Proof.
  intros Hc0 Hle. split; [reflexivity|].
  by apply (get_disk_radius_truncated disk new_radius c0).
Qed.

Lemma truncation_visible_to_radius_query_witness :
  let disk := {| grid := [ {| r := 1; column_density := 1; area := 1 |};
                           {| r := 2; column_density := 1; area := 1 |};
                           {| r := 3; column_density := 1; area := 1 |} ];
                 alpha := 0; inner_boundary_mass_out := 0 |} in
  truncate_density_limit < radius_density_limit /\
  exists radius,
    get_disk_radius (truncate_disk disk 2 truncate_density_limit)
                    radius_density_limit = Returns radius
    /\ radius <= 2.
Proof.
  apply (truncation_visible_to_radius_query
           {| grid := [ {| r := 1; column_density := 1; area := 1 |};
                        {| r := 2; column_density := 1; area := 1 |};
                        {| r := 3; column_density := 1; area := 1 |} ];
              alpha := 0; inner_boundary_mass_out := 0 |}
           2 {| r := 1; column_density := 1; area := 1 |}).
  - reflexivity.
  - simpl. discriminate.
Defined.

(** C9: a disk returned by [evaporate] was truncated at the radius of a cell
    of index at least 1; on a grid of increasing radii its innermost cell is
    as before, and the grid keeps all its cells. *)
Theorem evaporate_keeps_innermost_cell (disk d' : Disk) (mass_to_remove : Q) :
  increasing_radii (grid disk) ->
  evaporate disk mass_to_remove = Returns (Some d') ->
  exists i c,
    (1 <= i)%nat /\ grid disk !! i = Some c /\
    d' = truncate_disk disk (r c) truncate_density_limit /\
    grid d' !! 0%nat = grid disk !! 0%nat /\
    length (grid d') = length (grid disk) /\
    grid d' <> [].
Proof.
  intros Hinc Hev. unfold evaporate in Hev.
  apply bind_Returns in Hev as (radius & _ & Hev).
  apply bind_Returns in Hev as (init_cell & _ & Hev).
  apply evaporate_loop_Some in Hev as (i & c & Hi & Hc & ->).
  exists i, c. repeat split; [lia | done | | apply truncate_disk_length |].
  - rewrite truncate_disk_lookup.
    destruct (grid disk !! 0%nat) as [c0|] eqn:Hc0; [|done]. simpl. f_equal.
    unfold truncate_cell.
    case_Qltb (r c) (r c0); [|done].
    assert (r c0 < r c) by (apply (Hinc 0%nat i); [lia | done | done]). lra.
  - intros Hnil. apply (f_equal length) in Hnil.
    rewrite truncate_disk_length in Hnil. apply lookup_lt_Some in Hc.
    simpl in Hnil. lia.
Qed.

Lemma evaporate_keeps_innermost_cell_witness :
  let disk := {| grid := [ {| r := 1; column_density := 1; area := 1 |};
                           {| r := 2; column_density := 1; area := 1 |};
                           {| r := 3; column_density := 1; area := 1 |};
                           {| r := 4; column_density := 1e-12; area := 1 |} ];
                 alpha := 0; inner_boundary_mass_out := 0 |} in
  exists i c,
    (1 <= i)%nat /\ grid disk !! i = Some c /\
    truncate_disk disk 2 truncate_density_limit
    = truncate_disk disk (r c) truncate_density_limit /\
    grid (truncate_disk disk 2 truncate_density_limit) !! 0%nat = grid disk !! 0%nat /\
    length (grid (truncate_disk disk 2 truncate_density_limit)) = length (grid disk) /\
    grid (truncate_disk disk 2 truncate_density_limit) <> [].
Proof.
  apply (evaporate_keeps_innermost_cell
           {| grid := [ {| r := 1; column_density := 1; area := 1 |};
                        {| r := 2; column_density := 1; area := 1 |};
                        {| r := 3; column_density := 1; area := 1 |};
                        {| r := 4; column_density := 1e-12; area := 1 |} ];
              alpha := 0; inner_boundary_mass_out := 0 |}
           _ (1 # 2)).
  - intros i j ci cj Hij Hi Hj.
    destruct i as [|[|[|[|i]]]]; destruct j as [|[|[|[|j]]]];
      simpl in Hi, Hj; try lia; try discriminate;
      inversion Hi; inversion Hj; subst; reflexivity.
  - reflexivity.
Defined.

(** C2 as stated fails: on a grid of two dense cells the loop meets the
    target at the innermost cell and returns [None], although the mass inside
    the outer edge (1) and the mass of the whole disk (2) are not less than
    [mass_to_remove] (1/2). *)
Lemma evaporate_null_with_enough_mass :
  let disk := {| grid := [ {| r := 1; column_density := 1; area := 1 |};
                           {| r := 2; column_density := 1; area := 1 |} ];
                 alpha := 0; inner_boundary_mass_out := 0 |} in
  0 < 1 # 2 /\
  evaporate disk (1 # 2) = Returns None /\
  get_disk_radius disk radius_density_limit = Returns 2 /\
  where_first (fun c => Qeqb (r c) 2) (grid disk) = Returns 1%nat /\
  ~ outside_in_mass (take 1 (grid disk)) < 1 # 2 /\
  ~ get_disk_mass disk 2 < 1 # 2.
Proof.
  repeat split; try reflexivity; vm_compute; discriminate.
Qed.

(** C2, amended: on a grid of increasing radii and for a positive
    [mass_to_remove], [evaporate] returns; a returned disk has a radius at
    most the radius of the input disk; and [None] is returned only when the
    mass added outside-in over the cells inside the outer edge, the innermost
    cell left out, is less than [mass_to_remove]. *)
Theorem evaporate_monotone (disk : Disk) (mass_to_remove : Q) :
  grid disk <> [] ->
  increasing_radii (grid disk) ->
  0 < mass_to_remove ->
  exists radius init_cell res,
    get_disk_radius disk radius_density_limit = Returns radius /\
    where_first (fun c => Qeqb (r c) radius) (grid disk) = Returns init_cell /\
    evaporate disk mass_to_remove = Returns res /\
    match res with
    | Some d' =>
        exists radius', get_disk_radius d' radius_density_limit = Returns radius'
                        /\ radius' <= radius
    | None =>
        outside_in_mass (drop 1 (take init_cell (grid disk))) < mass_to_remove
    end.
Proof.
  intros Hne Hinc Hpos.
  destruct (get_disk_radius_cell disk radius_density_limit Hne)
    as (k & c & Hrad & Hc).
  destruct (where_first_total (fun c' => Qeqb (r c') (r c)) (grid disk) _ c Hc)
    as (init_cell & Hwhere & _); [by apply Qeqb_eq|].
  destruct (where_first_Returns _ _ _ Hwhere) as (x & Hx & Hrx & _).
  apply Qeqb_eq in Hrx.
  destruct (evaporate_loop_total disk mass_to_remove 0 init_cell) as [res Hres].
  { apply lookup_lt_Some in Hx. lia. }
  exists (r c), init_cell, res. repeat split; [done | done | |].
  - unfold evaporate. rewrite Hrad. simpl. rewrite Hwhere. done.
  - destruct res as [d'|].
    + apply evaporate_loop_Some in Hres as (i & ci & Hi & Hci & ->).
      destruct (grid disk !! 0%nat) as [c0|] eqn:Hc0.
      2:{ apply lookup_ge_None in Hc0. destruct (grid disk); simpl in *; [done | lia]. }
      assert (r c0 < r ci) by (apply (Hinc 0%nat i); [lia | done | done]).
      assert (r ci < r x) by (apply (Hinc i init_cell); [lia | done | done]).
      destruct (get_disk_radius_truncated disk (r ci) c0 Hc0) as (radius' & Hr' & Hle);
        [lra|].
      exists radius'. split; [done | lra].
    + apply evaporate_loop_None in Hres; [lra | done].
Qed.

Lemma evaporate_monotone_witness :
  let disk := {| grid := [ {| r := 1; column_density := 1; area := 1 |};
                           {| r := 2; column_density := 1; area := 1 |};
                           {| r := 3; column_density := 1; area := 1 |};
                           {| r := 4; column_density := 1e-12; area := 1 |} ];
                 alpha := 0; inner_boundary_mass_out := 0 |} in
  exists radius init_cell res,
    get_disk_radius disk radius_density_limit = Returns radius /\
    where_first (fun c => Qeqb (r c) radius) (grid disk) = Returns init_cell /\
    evaporate disk (1 # 2) = Returns res /\
    match res with
    | Some d' =>
        exists radius', get_disk_radius d' radius_density_limit = Returns radius'
                        /\ radius' <= radius
    | None => outside_in_mass (drop 1 (take init_cell (grid disk))) < 1 # 2
    end.
Proof.
  apply (evaporate_monotone
           {| grid := [ {| r := 1; column_density := 1; area := 1 |};
                        {| r := 2; column_density := 1; area := 1 |};
                        {| r := 3; column_density := 1; area := 1 |};
                        {| r := 4; column_density := 1e-12; area := 1 |} ];
              alpha := 0; inner_boundary_mass_out := 0 |} (1 # 2)).
  - simpl. discriminate.
  - intros i j ci cj Hij Hi Hj.
    destruct i as [|[|[|[|i]]]]; destruct j as [|[|[|[|j]]]];
      simpl in Hi, Hj; try lia; try discriminate;
      inversion Hi; inversion Hj; subst; reflexivity.
  - reflexivity.
Defined.

(** ** Table bracketing *)

Lemma fold_max_spec (rest : list Q) (x : Q) :
  let m := fold_left (fun m y => if Qltb m y then y else m) rest x in
  In m (x :: rest) /\ forall y, In y (x :: rest) -> y <= m.
Proof.
  revert x. induction rest as [|z rest IH]; intros x; simpl.
  - split; [by left | intros y [->|[]]; lra].
  - destruct (IH (if Qltb x z then z else x)) as [Hin Hmax]. simpl in Hin, Hmax.
    split.
    + destruct Hin as [Heq|Hin]; [|by right; right].
      rewrite <- Heq. destruct (Qltb x z); [right; by left | by left].
    + intros y Hy.
      assert (Hstep : x <= (if Qltb x z then z else x) /\
                      z <= (if Qltb x z then z else x)).
      { case_Qltb x z; lra. }
      pose proof (Hmax _ (or_introl eq_refl)) as Hfirst.
      destruct Hy as [->|[->|Hy]]; [lra | lra | apply Hmax; by right].
Qed.

Lemma fold_min_spec (rest : list Q) (x : Q) :
  let m := fold_left (fun m y => if Qltb y m then y else m) rest x in
  In m (x :: rest) /\ forall y, In y (x :: rest) -> m <= y.
Proof.
  revert x. induction rest as [|z rest IH]; intros x; simpl.
  - split; [by left | intros y [->|[]]; lra].
  - destruct (IH (if Qltb z x then z else x)) as [Hin Hmin]. simpl in Hin, Hmin.
    split.
    + destruct Hin as [Heq|Hin]; [|by right; right].
      rewrite <- Heq. destruct (Qltb z x); [right; by left | by left].
    + intros y Hy.
      assert (Hstep : (if Qltb z x then z else x) <= x /\
                      (if Qltb z x then z else x) <= z).
      { case_Qltb z x; lra. }
      pose proof (Hmin _ (or_introl eq_refl)) as Hfirst.
      destruct Hy as [->|[->|Hy]]; [lra | lra | apply Hmin; by right].
Qed.

Lemma numpy_max_spec (column : list Q) :
  column <> [] ->
  exists m, numpy_max column = Returns m /\ In m column /\
            forall y, In y column -> y <= m.
Proof.
  destruct column as [|x rest]; [done|]. intros _.
  eexists. split; [reflexivity | apply fold_max_spec].
Qed.

Lemma numpy_min_spec (column : list Q) :
  column <> [] ->
  exists m, numpy_min column = Returns m /\ In m column /\
            forall y, In y column -> m <= y.
Proof.
  destruct column as [|x rest]; [done|]. intros _.
  eexists. split; [reflexivity | apply fold_min_spec].
Qed.

(** The first row holding a value of the column. *)
Lemma where_first_value (column : list Q) (v : Q) :
  In v column ->
  exists i vi, where_first (fun x => Qeqb x v) column = Returns i /\
               column !! i = Some vi /\ vi == v.
Proof.
  intros Hin. apply list_elem_of_In, list_elem_of_lookup in Hin as [i0 Hi0].
  destruct (where_first_total (fun x => Qeqb x v) column i0 v Hi0) as (i & Hi & _).
  { by apply Qeqb_eq. }
  destruct (where_first_Returns _ _ _ Hi) as (vi & Hvi & Heq & _).
  exists i, vi. repeat split; [done | done | by apply Qeqb_eq].
Qed.

(** The value under the query: the largest value strictly less than it, or
    the minimum of the column when there is none. *)
Lemma value_below_spec (column : list Q) (val row_val : Q) :
  In row_val column -> row_val == val ->
  exists value_below,
    try_except_ValueError (numpy_max (List.filter (fun x => Qltb x val) column))
                          (numpy_min column) = Returns value_below /\
    In value_below column /\
    ((value_below < val /\ forall x, In x column -> x < val -> x <= value_below) \/
     (value_below == val /\ forall x, In x column -> val <= x)).
Proof.
  intros Hin Heq.
  destruct (List.filter (fun x => Qltb x val) column) as [|y ys] eqn:Hfilter.
  - simpl. destruct (numpy_min_spec column) as (m & -> & Hm & Hmin).
    { intros ->. done. }
    assert (Hall : forall x, In x column -> val <= x).
    { intros x Hx. apply Qltb_ge.
      destruct (Qltb x val) eqn:Hlt; [|done].
      assert (In x (List.filter (fun x => Qltb x val) column))
        by (apply filter_In; done).
      rewrite Hfilter in *. done. }
    exists m. repeat split; [done|]. right. split; [|done].
    specialize (Hmin _ Hin). specialize (Hall _ Hm). lra.
  - destruct (numpy_max_spec (y :: ys)) as (m & Hmax & Hm & Hgreatest); [done|].
    rewrite Hmax. simpl. rewrite <- Hfilter in Hm, Hgreatest.
    apply filter_In in Hm as [Hm Hlt]. apply Qltb_lt in Hlt.
    exists m. repeat split; [done|]. left. split; [done|].
    intros x Hx Hxlt. apply Hgreatest, filter_In. split; [done | by apply Qltb_lt].
Qed.

Lemma value_above_spec (column : list Q) (val row_val : Q) :
  In row_val column -> row_val == val ->
  exists value_above,
    try_except_ValueError (numpy_min (List.filter (fun x => Qltb val x) column))
                          (numpy_max column) = Returns value_above /\
    In value_above column /\
    ((val < value_above /\ forall x, In x column -> val < x -> value_above <= x) \/
     (value_above == val /\ forall x, In x column -> x <= val)).
Proof.
  intros Hin Heq.
  destruct (List.filter (fun x => Qltb val x) column) as [|y ys] eqn:Hfilter.
  - simpl. destruct (numpy_max_spec column) as (m & -> & Hm & Hmax).
    { intros ->. done. }
    assert (Hall : forall x, In x column -> x <= val).
    { intros x Hx. apply Qltb_ge.
      destruct (Qltb val x) eqn:Hlt; [|done].
      assert (In x (List.filter (fun x => Qltb val x) column))
        by (apply filter_In; done).
      rewrite Hfilter in *. done. }
    exists m. repeat split; [done|]. right. split; [|done].
    specialize (Hmax _ Hin). specialize (Hall _ Hm). lra.
  - destruct (numpy_min_spec (y :: ys)) as (m & Hmin & Hm & Hleast); [done|].
    rewrite Hmin. simpl. rewrite <- Hfilter in Hm, Hleast.
    apply filter_In in Hm as [Hm Hlt]. apply Qltb_lt in Hlt.
    exists m. repeat split; [done|]. left. split; [done|].
    intros x Hx Hxlt. apply Hleast, filter_In. split; [done | by apply Qltb_lt].
Qed.

(** C4 as stated fails: in the column [1, 2, 3] the query 2 is the value of
    row 1, and the brackets are rows 0 and 2. *)
Lemma find_indices_exact_value_brackets_differ :
  [1; 2; 3] !! 1%nat = Some 2 /\
  find_indices [1; 2; 3] 2 = Returns (0%nat, 2%nat) /\
  [1; 2; 3] !! 0%nat = Some 1 /\ [1; 2; 3] !! 2%nat = Some 3 /\
  ~ 1 == 2 /\ ~ 3 == 2.
Proof. repeat split; try reflexivity; vm_compute; discriminate. Qed.

(** C4, amended: for a query equal to the value of a row, [find_indices]
    returns two rows of the column without raising; the row below holds the
    largest value strictly less than the query, or the query's value when
    that is the minimum of the column; the row above holds the smallest value
    strictly greater, or the query's value when that is the maximum. *)
Theorem find_indices_brackets (column : list Q) (val : Q) (row : nat) (row_val : Q) :
  column !! row = Some row_val ->
  row_val == val ->
  exists i j vi vj,
    find_indices column val = Returns (i, j) /\
    column !! i = Some vi /\ column !! j = Some vj /\
    ((vi < val /\ forall x, In x column -> x < val -> x <= vi) \/
     (vi == val /\ forall x, In x column -> val <= x)) /\
    ((val < vj /\ forall x, In x column -> val < x -> vj <= x) \/
     (vj == val /\ forall x, In x column -> x <= val)).
Proof.
  intros Hrow Heq.
  assert (Hin : In row_val column)
    by (apply list_elem_of_In, list_elem_of_lookup; eauto).
  destruct (value_below_spec column val row_val Hin Heq) as (vb & Hvb & Hvb_in & Hbelow).
  destruct (value_above_spec column val row_val Hin Heq) as (va & Hva & Hva_in & Habove).
  destruct (where_first_value column vb Hvb_in) as (i & vi & Hi & Hvi & Hvi_eq).
  destruct (where_first_value column va Hva_in) as (j & vj & Hj & Hvj & Hvj_eq).
  exists i, j, vi, vj. repeat split; [| done | done | |].
  - unfold find_indices. rewrite Hvb. simpl. rewrite Hi. simpl.
    rewrite Hva. simpl. rewrite Hj. done.
  - destruct Hbelow as [[Hlt Hall]|[Hval Hall]]; [left | right].
    + split; [lra | intros x Hx Hxv; specialize (Hall x Hx Hxv); lra].
    + split; [lra | done].
  - destruct Habove as [[Hlt Hall]|[Hval Hall]]; [left | right].
    + split; [lra | intros x Hx Hxv; specialize (Hall x Hx Hxv); lra].
    + split; [lra | done].
Qed.

Lemma find_indices_brackets_witness :
  exists i j vi vj,
    find_indices [1; 2; 3] 2 = Returns (i, j) /\
    [1; 2; 3] !! i = Some vi /\ [1; 2; 3] !! j = Some vj /\
    ((vi < 2 /\ forall x, In x [1; 2; 3] -> x < 2 -> x <= vi) \/
     (vi == 2 /\ forall x, In x [1; 2; 3] -> 2 <= x)) /\
    ((2 < vj /\ forall x, In x [1; 2; 3] -> 2 < x -> vj <= x) \/
     (vj == 2 /\ forall x, In x [1; 2; 3] -> x <= 2)).
Proof.
  apply (find_indices_brackets [1; 2; 3] 2 1%nat 2); reflexivity.
Defined.

(** ** Luminosity fit *)

(** An interval of the fit that does not hold the mass is skipped. *)
Lemma fit_interval_skipped {A : Type} (lo hi mass : Q) (fit rest : A) :
  ~ (lo < mass /\ mass < hi) ->
  (if Qltb lo mass && Qltb mass hi then fit else rest) = rest.
Proof.
  intros Hout. case_Qltb lo mass; case_Qltb mass hi; simpl; try done.
  exfalso. auto.
Qed.

Lemma fit_tail_skipped {A : Type} (lo mass : Q) (fit rest : A) :
  ~ lo < mass ->
  (if Qltb lo mass then fit else rest) = rest.
Proof. intros Hout. by case_Qltb lo mass. Qed.

Section LuminosityFit.
Context {np : Numpy} {un : Units}.

(** C10: at every boundary of the fit, and at or under 0.12 MSun, no
    interval holds the mass and [luminosity_fit] returns 0 LSun; a bright
    star of such a mass adds a zero flux at any distance. *)
Theorem luminosity_fit_boundary_zero (mass : Q) :
  mass <= 0.12 \/ mass == 0.24 \/ mass == 0.56 \/ mass == 0.70 \/
  mass == 0.91 \/ mass == 1.37 \/ mass == 2.07 \/ mass == 3.72 \/
  mass == 10.0 \/ mass == 20.2 ->
  luminosity_fit mass == 0 /\
  forall d, radiation_at_distance (luminosity_fit mass) d / 1.6e-3 == 0.
Proof.
  intros Hmass.
  assert (Hfit : luminosity_fit mass = 0 * LSun).
  { unfold luminosity_fit.
    do 9 (rewrite fit_interval_skipped by lra).
    rewrite fit_tail_skipped by lra. done. }
  rewrite Hfit. split; [ring|].
  intros d. unfold radiation_at_distance, Qdiv. ring.
Qed.

End LuminosityFit.

Lemma luminosity_fit_boundary_zero_witness :
  @luminosity_fit sample_numpy cgs_units 0.24 == 0 /\
  forall d, @radiation_at_distance sample_numpy
              (@luminosity_fit sample_numpy cgs_units 0.24) d / 1.6e-3 == 0.
Proof.
  apply (@luminosity_fit_boundary_zero sample_numpy cgs_units 0.24).
  right. left. reflexivity.
Defined.

(** ** Encounter Resolver *)

Section Encounter.
Context {np : Numpy} {un : Units}.

(** A turn of the loop leaves the other star as it is, adds one entry to
    [new_codes] and never resets [truncated]. *)
Lemma resolve_star_frame (closest_approach time : Q)
    (disk_codes : option Disk * option Disk) (i : nat)
    (stars : Star * Star) (new_codes : list (option Disk)) (truncated : bool) :
  exists s code truncated',
    resolve_star closest_approach time disk_codes i (stars, new_codes, truncated)
    = (set_nth2 stars i s, new_codes ++ [code], truncated') /\
    stellar_mass s = stellar_mass (nth2 stars i) /\
    (truncated = true -> truncated' = true).
Proof.
  unfold resolve_star.
  destruct (nth2 disk_codes i) as [c|].
  2:{ exists (nth2 stars i), None, truncated. split; [|done].
      f_equal. f_equal. unfold set_nth2, nth2.
      destruct (i =? 0)%nat, stars; done. }
  set (s := nth2 stars i). set (partner := nth2 stars (1 - i)).
  destruct s as [].
  cbn.
  repeat match goal with
         | |- context [Qltb ?a ?b] => destruct (Qltb a b); cbn
         | |- context [Qleb ?a ?b] => destruct (Qleb a b); cbn
         end; eauto 10.
Qed.

(** The turn of a star whose truncation radius is under its disk radius
    and at most 0.5 au. *)
Lemma resolve_star_dispersed (closest_approach time : Q)
    (disk_codes : option Disk * option Disk) (i : nat)
    (stars : Star * Star) (new_codes : list (option Disk)) (truncated : bool)
    (c : Disk) :
  let s := nth2 stars i in
  let radius := truncation_radius closest_approach s (nth2 stars (1 - i)) in
  nth2 disk_codes i = Some c ->
  radius < disk_radius s ->
  radius <= 0.5 * au ->
  exists s',
    resolve_star closest_approach time disk_codes i (stars, new_codes, truncated)
    = (set_nth2 stars i s', new_codes ++ [Some c], true) /\
    dispersed s' = true /\
    disk_mass s' == 0 /\
    disk_radius s' = radius /\
    dispersal_time s' = time /\
    encounters s' = (encounters s + 1)%Z.
Proof.
  intros s radius Hc Hlt Hle. unfold resolve_star. rewrite Hc.
  fold s. fold radius.
  apply Qltb_lt in Hlt. apply Qleb_le in Hle. rewrite Hlt, Hle.
  clear Hlt Hle Hc. clearbody radius. destruct s as [].
  cbn. match goal with |- context [Qltb ?a ?b] => destruct (Qltb a b) end;
    cbn; eexists; (split; [reflexivity|]);
    cbn; repeat split; first [reflexivity | ring].
Qed.

Lemma nth2_set_nth2 {A : Type} (p : A * A) (i : nat) (x : A) :
  nth2 (set_nth2 p i x) i = x.
Proof. unfold nth2, set_nth2. by destruct (i =? 0)%nat. Qed.

Lemma nth2_set_nth2_other {A : Type} (p : A * A) (i j : nat) (x : A) :
  (i =? 0)%nat <> (j =? 0)%nat -> nth2 (set_nth2 p i x) j = nth2 p j.
Proof. unfold nth2, set_nth2. by destruct (i =? 0)%nat, (j =? 0)%nat. Qed.

Lemma stellar_mass_set_collisional_radius (v : Q) (s : Star) :
  stellar_mass (set_collisional_radius v s) = stellar_mass s.
Proof. by destruct s. Qed.

Lemma disk_radius_set_collisional_radius (v : Q) (s : Star) :
  disk_radius (set_collisional_radius v s) = disk_radius s.
Proof. by destruct s. Qed.

Lemma encounters_set_collisional_radius (v : Q) (s : Star) :
  encounters (set_collisional_radius v s) = encounters s.
Proof. by destruct s. Qed.

(** C1, amended: a star of the encounter whose truncation radius is under
    its disk radius and at most 0.5 au is marked dispersed: its disk mass
    is zeroed, its disk radius is set to the truncation radius, the
    dispersal time is the time of the encounter, the encounter counter
    grows by one, the encounter counts as truncating and the disk handle
    is handed back as it was. *)
Theorem resolve_encounter_disperses (stars : Star * Star)
    (disk_codes : option Disk * option Disk) (time : Q) (i : nat) (c : Disk) :
  let s := nth2 stars i in
  let radius :=
    truncation_radius (periastron_distance stars) s (nth2 stars (1 - i)) in
  (i < 2)%nat ->
  nth2 disk_codes i = Some c ->
  radius < disk_radius s ->
  radius <= 0.5 * au ->
  exists stars' new_codes,
    resolve_encounter stars disk_codes time = (stars', new_codes, true) /\
    dispersed (nth2 stars' i) = true /\
    disk_mass (nth2 stars' i) == 0 /\
    disk_radius (nth2 stars' i) = radius /\
    dispersal_time (nth2 stars' i) = time /\
    encounters (nth2 stars' i) = (encounters s + 1)%Z /\
    new_codes !! i = Some (Some c).
Proof.
  intros s radius Hi Hc Hlt Hle. unfold resolve_encounter.
  set (ca := periastron_distance stars) in *.
  set (stars0 := (set_collisional_radius (0.49 * ca) stars.1,
                  set_collisional_radius (0.49 * ca) stars.2)).
  assert (Hsm : forall j, stellar_mass (nth2 stars0 j) = stellar_mass (nth2 stars j)).
  { intros j. unfold nth2, stars0. destruct (j =? 0)%nat; simpl;
      apply stellar_mass_set_collisional_radius. }
  assert (Hdr : forall j, disk_radius (nth2 stars0 j) = disk_radius (nth2 stars j)).
  { intros j. unfold nth2, stars0. destruct (j =? 0)%nat; simpl;
      apply disk_radius_set_collisional_radius. }
  assert (Hen : forall j, encounters (nth2 stars0 j) = encounters (nth2 stars j)).
  { intros j. unfold nth2, stars0. destruct (j =? 0)%nat; simpl;
      apply encounters_set_collisional_radius. }
  clearbody stars0. cbn [fold_left].
  destruct i as [|[|i]]; [| |lia].
  - (* the first star: dispersed in turn 0, untouched in turn 1 *)
    destruct (resolve_star_dispersed ca time disk_codes 0 stars0 [] false c)
      as (s' & -> & Hd & Hm & Hr & Ht & He); [done | | |].
    { unfold truncation_radius. rewrite !Hsm, Hdr. done. }
    { unfold truncation_radius. rewrite !Hsm. done. }
    destruct (resolve_star_frame ca time disk_codes 1 (set_nth2 stars0 0 s')
                ([] ++ [Some c]) true) as (s1' & code & tr' & -> & _ & Htr).
    rewrite (Htr eq_refl).
    eexists _, _. split; [reflexivity|].
    rewrite nth2_set_nth2_other by done. rewrite nth2_set_nth2.
    repeat split; try done.
    + rewrite Hr. unfold truncation_radius. by rewrite !Hsm.
    + by rewrite He, Hen.
  - (* the second star: star 0 keeps its stellar mass in turn 0 *)
    destruct (resolve_star_frame ca time disk_codes 0 stars0 [] false)
      as (s0' & code & tr0 & -> & Hsm0 & _).
    set (stars1 := set_nth2 stars0 0 s0').
    assert (H1 : nth2 stars1 1 = nth2 stars0 1)
      by (apply nth2_set_nth2_other; done).
    assert (H0 : stellar_mass (nth2 stars1 0) = stellar_mass (nth2 stars 0)).
    { unfold stars1. rewrite nth2_set_nth2, Hsm0. apply Hsm. }
    destruct (resolve_star_dispersed ca time disk_codes 1 stars1 ([] ++ [code]) tr0 c)
      as (s' & -> & Hd & Hm & Hr & Ht & He); [done | | |].
    { rewrite H1. unfold truncation_radius. simpl (1 - 1)%nat.
      rewrite H0, Hsm, Hdr. done. }
    { rewrite H1. unfold truncation_radius. simpl (1 - 1)%nat.
      rewrite H0, Hsm. done. }
    eexists _, _. split; [reflexivity|].
    rewrite nth2_set_nth2.
    repeat split; try done.
    + rewrite Hr, H1. unfold truncation_radius. simpl (1 - 1)%nat.
      by rewrite H0, Hsm.
    + by rewrite He, H1, Hen.
Qed.

End Encounter.

Section EncounterExamples.
#[local] Existing Instances sample_numpy cgs_units.

(** C1 as stated fails: the first star of [sample_encounter] has a
    truncation radius under 0.5 au; after the call its disk radius is that
    truncation radius and not zero, and the recorded truncation mass loss
    is zero although the disk had a mass. *)
Lemma resolve_encounter_dispersal_radius_and_loss :
  let stars := sample_encounter in
  let radius :=
    truncation_radius (periastron_distance stars) stars.1 stars.2 in
  let '(stars', new_codes, truncated) :=
    resolve_encounter stars (Some sample_disk, Some sample_disk) 1000 in
  radius <= 0.5 * au /\ radius < disk_radius stars.1 /\
  dispersed stars'.1 = true /\
  ~ disk_radius stars'.1 == 0 /\
  0 < disk_mass stars.1 /\
  ~ truncation_mass_loss stars'.1 == disk_mass stars.1 /\
  truncation_mass_loss stars'.1 == 0 /\
  cumulative_truncation_mass_loss stars'.1
  == cumulative_truncation_mass_loss stars.1.
Proof. vm_compute. repeat split; try reflexivity; discriminate. Qed.

Lemma resolve_encounter_disperses_witness :
  let stars := sample_encounter in
  let radius :=
    truncation_radius (periastron_distance stars) stars.1 stars.2 in
  exists stars' new_codes,
    resolve_encounter stars (Some sample_disk, Some sample_disk) 1000
    = (stars', new_codes, true) /\
    dispersed (nth2 stars' 0) = true /\
    disk_mass (nth2 stars' 0) == 0 /\
    disk_radius (nth2 stars' 0) = radius /\
    dispersal_time (nth2 stars' 0) = 1000 /\
    encounters (nth2 stars' 0) = (encounters stars.1 + 1)%Z /\
    new_codes !! 0%nat = Some (Some sample_disk).
Proof.
  apply (resolve_encounter_disperses sample_encounter
           (Some sample_disk, Some sample_disk) 1000 0 sample_disk).
  - lia.
  - reflexivity.
  - vm_compute. reflexivity.
  - vm_compute. discriminate.
Defined.

End EncounterExamples.

(** ** Disk Registry *)

Lemma dict_get_Returns {V : Type} (d : gmap N V) (k : N) (v : V) :
  dict_get d k = Returns v <-> d !! k = Some v.
Proof. unfold dict_get. destruct (d !! k); split; congruence. Qed.

(** The positions after [n] small stars were registered on top of [reg]. *)
Lemma register_all_spec (small_stars : list (N * Disk)) (reg : Registry) :
  let reg' := fold_left (fun reg s => register s.1 s.2 reg) small_stars reg in
  NoDup small_stars.*1 ->
  (forall k, k ∈ small_stars.*1 -> disk_codes_indices reg !! k = None) ->
  length (disk_codes reg') = (length (disk_codes reg) + length small_stars)%nat /\
  (forall k i, disk_codes_indices reg' !! k = Some i <->
               disk_codes_indices reg !! k = Some i \/
               (exists j, small_stars.*1 !! j = Some k /\
                          i = (length (disk_codes reg) + j)%nat)).
Proof.
  revert reg. induction small_stars as [|[k0 c0] rest IH]; intros reg reg' Hnd Hfresh.
  - subst reg'. simpl. split; [lia|]. intros k i. split; [by left|].
    intros [H|(j & Hj & _)]; done.
  - subst reg'. simpl in *. apply NoDup_cons in Hnd as [Hk0 Hnd].
    destruct (IH (register k0 c0 reg) Hnd) as [Hlen Hidx].
    { intros k Hk. simpl. rewrite lookup_insert_ne by (intros ->; done).
      apply Hfresh. by right. }
    simpl in Hlen. rewrite length_app in Hlen. simpl in Hlen.
    split; [lia|].
    intros k i. rewrite Hidx. simpl. rewrite length_app. simpl. split.
    + intros [Hreg|(j & Hj & ->)].
      * apply lookup_insert_Some in Hreg as [[<- <-]|[Hne Hreg]]; [|by left].
        right. exists 0%nat. split; [done | lia].
      * right. exists (S j). split; [done | lia].
    + intros [Hreg|([|j] & Hj & ->)].
      * left. rewrite lookup_insert_ne; [done|].
        intros <-. rewrite Hfresh in Hreg; [done | by left].
      * simpl in Hj. inversion Hj; subst k. left.
        rewrite lookup_insert_eq. f_equal. lia.
      * right. exists j. split; [done | lia].
Qed.

Lemma initial_registry_dense (small_stars : list (N * Disk)) :
  NoDup small_stars.*1 -> dense (initial_registry small_stars).
Proof.
  intros Hnd.
  destruct (register_all_spec small_stars empty_registry Hnd) as [Hlen Hidx].
  { intros k _. apply lookup_empty. }
  simpl in Hlen, Hidx.
  unfold dense, initial_registry. simpl. repeat split.
  - intros k1 k2 i H1 H2.
    apply Hidx in H1 as [H1|(j1 & Hj1 & ->)]; [by rewrite lookup_empty in H1|].
    apply Hidx in H2 as [H2|(j2 & Hj2 & Hj)]; [by rewrite lookup_empty in H2|].
    assert (j1 = j2) as -> by lia. congruence.
  - intros [k Hk].
    apply Hidx in Hk as [Hk|(j & Hj & ->)]; [by rewrite lookup_empty in Hk|].
    apply lookup_lt_Some in Hj. rewrite length_fmap in Hj. lia.
  - intros Hi.
    destruct (lookup_lt_is_Some_2 small_stars.*1 i) as [k Hk].
    { rewrite length_fmap. lia. }
    exists k. apply Hidx. right. exists i. split; [done | lia].
  - rewrite Hlen. done.
Qed.

(** What [delete_code] does to a dense registry that holds the key. *)
Lemma delete_code_dense (k : N) (to_del : nat) (reg : Registry) :
  dense reg ->
  disk_codes_indices reg !! k = Some to_del ->
  exists reg',
    delete_code k reg = Returns reg' /\
    disk_codes_indices reg' !! k = None /\
    (forall k' i, k' <> k -> disk_codes_indices reg !! k' = Some i ->
       disk_codes_indices reg' !! k'
       = Some (if (to_del <? i)%nat then (i - 1)%nat else i)) /\
    disk_codes reg' = delete to_del (disk_codes reg) /\
    active_disks reg' = (active_disks reg - 1)%Z /\
    dense reg'.
Proof.
  intros (Hinj & Himg & Hcount) Hk.
  assert (Hlt : (to_del < length (disk_codes reg))%nat).
  { assert (Z.of_nat to_del < active_disks reg)%Z by (apply Himg; eauto). lia. }
  unfold delete_code. rewrite (proj2 (dict_get_Returns _ _ _) Hk). simpl.
  destruct (getitem_lt (disk_codes reg) to_del Hlt) as (c & -> & Hc). simpl.
  eexists. split; [reflexivity|]. simpl.
  set (shift := fun i : nat => if (to_del <? i)%nat then (i - 1)%nat else i).
  assert (Hother : forall k' i, k' <> k -> disk_codes_indices reg !! k' = Some i ->
            delete k (shift <$> disk_codes_indices reg) !! k' = Some (shift i)).
  { intros k' i Hne Hk'. rewrite lookup_delete_ne by done.
    by rewrite lookup_fmap, Hk'. }
  assert (Hback : forall k' i', delete k (shift <$> disk_codes_indices reg) !! k' = Some i' ->
            exists i, k' <> k /\ disk_codes_indices reg !! k' = Some i /\
                      i <> to_del /\ i' = shift i).
  { intros k' i' Hk'. destruct (decide (k' = k)) as [->|Hne].
    - by rewrite lookup_delete_eq in Hk'.
    - rewrite lookup_delete_ne, lookup_fmap in Hk' by done.
      destruct (disk_codes_indices reg !! k') as [i|] eqn:Hi; [|done].
      inversion Hk'; subst i'. exists i. repeat split; [done|].
      intros ->. apply Hne. by apply (Hinj k' k to_del). }
  assert (Hlen : length (delete to_del (disk_codes reg))
                 = (length (disk_codes reg) - 1)%nat).
  { apply length_delete. eauto. }
  repeat split; simpl.
  - apply lookup_delete_eq.
  - done.
  - intros k1 k2 i' H1 H2.
    apply Hback in H1 as (i1 & _ & H1 & Hn1 & ->).
    apply Hback in H2 as (i2 & _ & H2 & Hn2 & Heq).
    apply (Hinj k1 k2 i1); [done|].
    replace i1 with i2; [done|].
    unfold shift in Heq. cbv beta in Heq.
    destruct (Nat.ltb_spec to_del i1); destruct (Nat.ltb_spec to_del i2); lia.
  - intros [k' Hk'].
    apply Hback in Hk' as (i0 & _ & Hi0 & Hn & ->).
    assert (Z.of_nat i0 < active_disks reg)%Z by (apply Himg; eauto).
    unfold shift. cbv beta. destruct (Nat.ltb_spec to_del i0); lia.
  - intros Hi.
    destruct (decide (i < to_del)%nat) as [Hlow|Hhigh].
    + destruct (proj2 (Himg i)) as [k' Hk']; [lia|].
      exists k'. rewrite (Hother k' i); [|intros ->; rewrite Hk in Hk'; inversion Hk'; lia|done].
      unfold shift. cbv beta. destruct (Nat.ltb_spec to_del i); [lia | done].
    + destruct (proj2 (Himg (S i))) as [k' Hk']; [lia|].
      exists k'. rewrite (Hother k' (S i)); [|intros ->; rewrite Hk in Hk'; inversion Hk'; lia|done].
      unfold shift. cbv beta. destruct (Nat.ltb_spec to_del (S i)); [f_equal | ]; lia.
  - rewrite Hlen. lia.
Qed.

Section Registry.
Context {np : Numpy} {un : Units}.

Lemma key_retire_star (why : retirement) (t : Q) (s : Star) :
  key (retire_star why t s) = key s.
Proof. destruct s, why; reflexivity. Qed.

Lemma retire_disk_Returns (why : retirement) (t : Q) (s s' : Star)
    (reg reg' : Registry) :
  retire_disk why t s reg = Returns (s', reg') ->
  s' = retire_star why t s /\ delete_code (key s) reg = Returns reg'.
Proof.
  unfold retire_disk. rewrite key_retire_star. intros Hb.
  apply bind_Returns in Hb as (reg0 & Hdel & Hret). by inversion Hret; subst.
Qed.

Lemma delete_code_Returns (k : N) (reg reg' : Registry) :
  delete_code k reg = Returns reg' ->
  exists to_del, disk_codes_indices reg !! k = Some to_del.
Proof.
  unfold delete_code. intros Hb.
  apply bind_Returns in Hb as (to_del & Hget & _).
  exists to_del. by apply dict_get_Returns.
Qed.

Lemma reachable_dense (reg : Registry) : reachable reg -> dense reg.
Proof.
  induction 1 as [small_stars Hnd | reg reg' why t s s' _ IH Hret].
  - by apply initial_registry_dense.
  - apply retire_disk_Returns in Hret as [_ Hdel].
    destruct (delete_code_Returns _ _ _ Hdel) as [to_del Hk].
    destruct (delete_code_dense _ _ _ IH Hk) as (reg2 & Hdel2 & _ & _ & _ & _ & Hd).
    congruence.
Qed.

(** C3: every registry reached from the initial one by retirements is
    dense (the key-to-position map is injective and its image is
    [0 .. active_disks - 1]); and each way of retiring a registered star
    returns, removes its entry, lowers by one the positions above the
    removed one, lowers [active_disks] by one and leaves a dense registry. *)
Theorem registry_stays_dense (reg : Registry) :
  reachable reg ->
  dense reg /\
  forall (why : retirement) (t : Q) (s : Star) (to_del : nat),
    disk_codes_indices reg !! key s = Some to_del ->
    exists s' reg',
      retire_disk why t s reg = Returns (s', reg') /\
      disk_codes_indices reg' !! key s = None /\
      (forall k' i, k' <> key s -> disk_codes_indices reg !! k' = Some i ->
         disk_codes_indices reg' !! k'
         = Some (if (to_del <? i)%nat then (i - 1)%nat else i)) /\
      disk_codes reg' = delete to_del (disk_codes reg) /\
      active_disks reg' = (active_disks reg - 1)%Z /\
      dense reg' /\ reachable reg'.
Proof.
  intros Hreach. pose proof (reachable_dense reg Hreach) as Hdense.
  split; [done|].
  intros why t s to_del Hk.
  destruct (delete_code_dense _ _ _ Hdense Hk)
    as (reg' & Hdel & Hgone & Hshift & Hcodes & Hcount & Hdense').
  assert (Hret : retire_disk why t s reg = Returns (retire_star why t s, reg')).
  { unfold retire_disk. rewrite key_retire_star, Hdel. done. }
  exists (retire_star why t s), reg'.
  repeat split; try done; try apply Hdense'.
  by apply (reachable_retire reg reg' why t s (retire_star why t s)).
Qed.

End Registry.

Section RegistryExamples.
#[local] Existing Instances sample_numpy cgs_units.

Lemma registry_stays_dense_witness :
  let reg := initial_registry [(1%N, sample_disk); (2%N, sample_disk)] in
  dense reg /\
  forall (why : retirement) (t : Q) (s : Star) (to_del : nat),
    disk_codes_indices reg !! key s = Some to_del ->
    exists s' reg',
      retire_disk why t s reg = Returns (s', reg') /\
      disk_codes_indices reg' !! key s = None /\
      (forall k' i, k' <> key s -> disk_codes_indices reg !! k' = Some i ->
         disk_codes_indices reg' !! k'
         = Some (if (to_del <? i)%nat then (i - 1)%nat else i)) /\
      disk_codes reg' = delete to_del (disk_codes reg) /\
      active_disks reg' = (active_disks reg - 1)%Z /\
      dense reg' /\ reachable reg'.
Proof.
  apply (registry_stays_dense
           (initial_registry [(1%N, sample_disk); (2%N, sample_disk)])).
  apply reachable_initial. simpl.
  apply NoDup_cons. split; [|apply NoDup_singleton].
  intros Hin. apply list_elem_of_singleton in Hin. discriminate.
Defined.

End RegistryExamples.

(** ** Photoevaporation Engine: retirement *)

Lemma delete_code_registered (k : N) (to_del : nat) (reg : Registry) :
  disk_codes_indices reg !! k = Some to_del ->
  (to_del < length (disk_codes reg))%nat ->
  exists reg',
    delete_code k reg = Returns reg' /\
    disk_codes_indices reg' !! k = None /\
    disk_codes reg' = delete to_del (disk_codes reg) /\
    active_disks reg' = (active_disks reg - 1)%Z.
Proof.
  intros Hk Hlt. unfold delete_code.
  rewrite (proj2 (dict_get_Returns _ _ _) Hk). simpl.
  destruct (getitem_lt (disk_codes reg) to_del Hlt) as (c & -> & _). simpl.
  eexists. split; [reflexivity|]. simpl.
  repeat split. apply lookup_delete_eq.
Qed.

Section Photoevaporation.
Context {np : Numpy} {un : Units}.

(** C5: when the cumulative photoevaporative loss, this step's loss
    included, reaches the initial disk mass (equality included), or the
    disk mass is under 0.03 MEarth, the disk of a registered star is
    retired: radius and mass are zeroed, [dispersed] is set, the registry
    entry is removed and the counter lowered, and [evaporate] is not
    called. *)
Theorem photoevaporation_threshold_retires
    (t total_photoevap_mass_loss_euv total_photoevap_mass_loss_fuv : Q)
    (ss : Star) (reg : Registry) (to_del : nat) :
  disk_codes_indices reg !! key ss = Some to_del ->
  (to_del < length (disk_codes reg))%nat ->
  initial_disk_mass ss
    <= cumulative_photoevap_mass_loss ss
       + (total_photoevap_mass_loss_euv + total_photoevap_mass_loss_fuv)
  \/ disk_mass ss < 0.03 * MEarth ->
  exists ss' reg',
    apply_photoevaporation t total_photoevap_mass_loss_euv
                           total_photoevap_mass_loss_fuv ss reg
    = Returns (ss', reg', []) /\
    disk_radius ss' == 0 /\
    disk_mass ss' == 0 /\
    dispersed ss' = true /\
    checked ss' = true /\
    key ss' = key ss /\
    disk_codes_indices reg' !! key ss = None /\
    disk_codes reg' = delete to_del (disk_codes reg) /\
    active_disks reg' = (active_disks reg - 1)%Z.
Proof.
  intros Hk Hlt Hcond.
  destruct (delete_code_registered _ _ _ Hk Hlt)
    as (reg' & Hdel & Hgone & Hcodes & Hcount).
  assert (Htest :
    Qleb (initial_disk_mass ss)
         (cumulative_photoevap_mass_loss ss
          + (total_photoevap_mass_loss_euv + total_photoevap_mass_loss_fuv))
    || Qltb (disk_mass ss) (0.03 * MEarth) = true).
  { apply orb_true_iff.
    destruct Hcond; [left; by apply Qleb_le | right; by apply Qltb_lt]. }
  unfold apply_photoevaporation, retire_disk.
  destruct ss as []. cbn in *. rewrite Htest. cbn. rewrite Hdel. cbn.
  eexists _, _. split; [reflexivity|]. cbn.
  repeat split; first [done | ring].
Qed.

End Photoevaporation.

Section PhotoevaporationExamples.
#[local] Existing Instances sample_numpy cgs_units.

(** The loss of the step brings the cumulative loss to the initial disk
    mass exactly. *)
Lemma photoevaporation_threshold_retires_witness :
  let ss := sample_star 1 (0, 0, 0) (0, 0, 0) in
  let reg := initial_registry [(1%N, sample_disk); (2%N, sample_disk)] in
  exists ss' reg',
    apply_photoevaporation 1000 0 (initial_disk_mass ss) ss reg
    = Returns (ss', reg', []) /\
    disk_radius ss' == 0 /\
    disk_mass ss' == 0 /\
    dispersed ss' = true /\
    checked ss' = true /\
    key ss' = key ss /\
    disk_codes_indices reg' !! key ss = None /\
    disk_codes reg' = delete 0%nat (disk_codes reg) /\
    active_disks reg' = (active_disks reg - 1)%Z.
Proof.
  apply (photoevaporation_threshold_retires 1000 0
           (initial_disk_mass (sample_star 1 (0, 0, 0) (0, 0, 0)))
           (sample_star 1 (0, 0, 0) (0, 0, 0))
           (initial_registry [(1%N, sample_disk); (2%N, sample_disk)]) 0).
  - reflexivity.
  - simpl. lia.
  - left. vm_compute. discriminate.
Defined.

End PhotoevaporationExamples.

(** ** Photoevaporation Engine: the FUV flux *)

Section FarFieldFlux.
Context {np : Numpy} {un : Units}.

Lemma placement_set_EUV (v : bool) (ss : Star) :
  placement (set_EUV v ss) = placement ss.
Proof. by destruct ss. Qed.

Lemma fuv_contribution_placement (s ss ss' : Star) :
  placement ss' = placement ss -> fuv_contribution s ss' = fuv_contribution s ss.
Proof.
  unfold placement, fuv_contribution, distance, EUV_dmin.
  intros [= _ _ -> ->]. done.
Qed.

(** One turn of the inner loop: the entry of the star grows by its
    contribution, the other entries stay. *)
Lemma irradiate_spec (s ss : Star) (total_radiation : gmap N Q) :
  is_Some (total_radiation !! key ss) ->
  exists ss' total_radiation',
    irradiate s (luminosity_fit (stellar_mass s / MSun)) ss total_radiation
    = Returns (ss', total_radiation') /\
    placement ss' = placement ss /\
    (forall k, is_Some (total_radiation' !! k) <-> is_Some (total_radiation !! k)) /\
    (forall k, k <> key ss -> total_radiation' !! k = total_radiation !! k) /\
    (forall v, total_radiation !! key ss = Some v ->
       exists v', total_radiation' !! key ss = Some v' /\
                  v' == v + (if dispersed ss then 0 else fuv_contribution s ss)).
Proof.
  intros [old Hold]. unfold irradiate, fuv_contribution.
  destruct (dispersed ss) eqn:Hdisp.
  { exists ss, total_radiation. repeat split; try done.
    intros v Hv. exists v. split; [done | ring]. }
  destruct (Qltb (distance s ss) (EUV_dmin ss)) eqn:Hnear.
  { exists (set_EUV true ss), total_radiation.
    repeat split; try done; [apply placement_set_EUV|].
    intros v Hv. exists v. split; [done | ring]. }
  rewrite (proj2 (dict_get_Returns _ _ _) Hold). simpl.
  eexists _, _. split; [reflexivity|]. repeat split.
  - intros Hk. destruct (decide (k = key ss)) as [->|Hne]; [eauto|].
    by rewrite lookup_insert_ne in Hk.
  - intros Hk. destruct (decide (k = key ss)) as [->|Hne].
    + rewrite lookup_insert_eq. eauto.
    + by rewrite lookup_insert_ne.
  - intros k Hne. by rewrite lookup_insert_ne.
  - intros v Hv. rewrite lookup_insert_eq. eexists. split; [reflexivity|].
    assert (old = v) as -> by congruence. reflexivity.
Qed.

(** The inner loop over small stars of distinct keys. *)
Lemma irradiate_all_spec (s : Star) (small_stars : list Star)
    (total_radiation : gmap N Q) :
  NoDup (key <$> small_stars) ->
  (forall ss, ss ∈ small_stars -> is_Some (total_radiation !! key ss)) ->
  exists small_stars' total_radiation',
    irradiate_all s (luminosity_fit (stellar_mass s / MSun)) small_stars
                  total_radiation
    = Returns (small_stars', total_radiation') /\
    placement <$> small_stars' = placement <$> small_stars /\
    (forall k, is_Some (total_radiation' !! k) <-> is_Some (total_radiation !! k)) /\
    (forall k, k ∉ key <$> small_stars ->
               total_radiation' !! k = total_radiation !! k) /\
    (forall ss v, ss ∈ small_stars -> total_radiation !! key ss = Some v ->
       exists v', total_radiation' !! key ss = Some v' /\
                  v' == v + (if dispersed ss then 0 else fuv_contribution s ss)).
Proof.
  revert total_radiation.
  induction small_stars as [|ss0 rest IH]; intros total_radiation Hnd Hdom.
  { exists [], total_radiation. repeat split; try done.
    intros ss v Hin. by apply elem_of_nil in Hin. }
  rewrite fmap_cons in Hnd. apply NoDup_cons in Hnd as [Hfresh Hnd].
  destruct (irradiate_spec s ss0 total_radiation) as
    (ss0' & tr1 & Hturn & Hplace & Hdom1 & Hother1 & Hown1).
  { apply Hdom. by left. }
  destruct (IH tr1 Hnd) as (rest' & tr2 & Hrest & Hplaces & Hdom2 & Hother2 & Hown2).
  { intros ss Hin. apply Hdom1, Hdom. by right. }
  exists (ss0' :: rest'), tr2. repeat split.
  - simpl. rewrite Hturn. simpl. rewrite Hrest. done.
  - rewrite !fmap_cons. by rewrite Hplace, Hplaces.
  - intros Hk. by apply Hdom1, Hdom2.
  - intros Hk. by apply Hdom2, Hdom1.
  - intros k Hk. rewrite fmap_cons in Hk. apply not_elem_of_cons in Hk as [Hne Hk].
    rewrite Hother2 by done. by apply Hother1.
  - intros ss v Hin Hv. apply elem_of_cons in Hin as [->|Hin].
    + destruct (Hown1 v Hv) as (v' & Hv' & Heq).
      exists v'. split; [|done]. by rewrite Hother2.
    + apply Hown2; [done|]. rewrite Hother1; [done|].
      intros Heq. apply Hfresh. rewrite <- Heq.
      by apply list_elem_of_fmap_2.
Qed.

Lemma fuv_sum_placement (bright_stars : list Star) (ss ss' : Star) :
  placement ss' = placement ss -> fuv_sum bright_stars ss' = fuv_sum bright_stars ss.
Proof.
  intros Hp. unfold fuv_sum. generalize 0.
  induction bright_stars as [|s rest IH]; intros total; simpl; [done|].
  by rewrite (fuv_contribution_placement s ss ss' Hp), IH.
Qed.

Lemma fuv_sum_from (bright_stars : list Star) (ss : Star) (total : Q) :
  fold_left (fun total s => total + fuv_contribution s ss) bright_stars total
  == total + fuv_sum bright_stars ss.
Proof.
  unfold fuv_sum. revert total.
  induction bright_stars as [|s rest IH]; intros total; simpl; [ring|].
  rewrite (IH (total + _)), (IH (0 + _)). ring.
Qed.

(** The outer loop: every small star that is not dispersed receives the
    sum of the contributions of the bright stars. *)
Lemma fuv_radiation_spec (bright_stars small_stars : list Star)
    (total_radiation : gmap N Q) :
  NoDup (key <$> small_stars) ->
  (forall ss, ss ∈ small_stars -> is_Some (total_radiation !! key ss)) ->
  exists small_stars' total_radiation',
    fuv_radiation bright_stars small_stars total_radiation
    = Returns (small_stars', total_radiation') /\
    placement <$> small_stars' = placement <$> small_stars /\
    (forall ss v, ss ∈ small_stars -> dispersed ss = false ->
       total_radiation !! key ss = Some v ->
       exists v', total_radiation' !! key ss = Some v' /\
                  v' == v + fuv_sum bright_stars ss).
Proof.
  revert small_stars total_radiation.
  induction bright_stars as [|s rest IH]; intros small_stars total_radiation Hnd Hdom.
  { exists small_stars, total_radiation. repeat split; try done.
    intros ss v _ _ Hv. exists v. split; [done|]. unfold fuv_sum. simpl. ring. }
  destruct (irradiate_all_spec s small_stars total_radiation Hnd Hdom)
    as (stars1 & tr1 & Hinner & Hplaces1 & Hdom1 & _ & Hown1).
  assert (Hkeys : key <$> stars1 = key <$> small_stars).
  { transitivity ((fun p : N * bool * Vec3 * Q => p.1.1.1) <$> (placement <$> stars1)).
    - rewrite <- list_fmap_compose. done.
    - rewrite Hplaces1, <- list_fmap_compose. done. }
  assert (Hpair : forall ss, ss ∈ small_stars ->
            exists ss1, ss1 ∈ stars1 /\ placement ss1 = placement ss).
  { intros ss Hin.
    assert (Hp : placement ss ∈ placement <$> stars1)
      by (rewrite Hplaces1; by apply list_elem_of_fmap_2).
    apply list_elem_of_fmap in Hp as (ss1 & Heq & Hin1). eauto. }
  assert (Hpair' : forall ss1, ss1 ∈ stars1 ->
            exists ss, ss ∈ small_stars /\ placement ss1 = placement ss).
  { intros ss1 Hin.
    assert (Hp : placement ss1 ∈ placement <$> small_stars)
      by (rewrite <- Hplaces1; by apply list_elem_of_fmap_2).
    apply list_elem_of_fmap in Hp as (ss & Heq & Hin1). eauto. }
  destruct (IH stars1 tr1) as (stars2 & tr2 & Houter & Hplaces2 & Hown2).
  { by rewrite Hkeys. }
  { intros ss1 Hin1. destruct (Hpair' ss1 Hin1) as (ss & Hin & Hp).
    replace (key ss1) with (key ss) by (by inversion Hp).
    by apply Hdom1, Hdom. }
  exists stars2, tr2. repeat split.
  - simpl. rewrite Hinner. simpl. done.
  - by rewrite Hplaces2.
  - intros ss v Hin Hdisp Hv.
    destruct (Hown1 ss v Hin Hv) as (v1 & Hv1 & Heq1). rewrite Hdisp in Heq1.
    destruct (Hpair ss Hin) as (ss1 & Hin1 & Hp).
    assert (Hk : key ss1 = key ss) by (by inversion Hp).
    assert (Hd : dispersed ss1 = false) by (inversion Hp; congruence).
    rewrite <- Hk in Hv1.
    destruct (Hown2 ss1 v1 Hin1 Hd Hv1) as (v2 & Hv2 & Heq2).
    exists v2. rewrite <- Hk. split; [done|].
    rewrite Heq2, Heq1. unfold fuv_sum at 2. simpl.
    rewrite fuv_sum_from.
    rewrite (fuv_sum_placement rest ss ss1 Hp). ring.
Qed.
End FarFieldFlux.

Lemma init_total_radiation_from (small_stars : list Star) (total_radiation : gmap N Q) :
  let total_radiation' :=
    fold_left (fun total_radiation ss => <[key ss := 0]> total_radiation)
              small_stars total_radiation in
  (forall k v, total_radiation !! k = Some v -> v = 0) ->
  (forall k v, total_radiation' !! k = Some v -> v = 0) /\
  (forall k, is_Some (total_radiation !! k) -> is_Some (total_radiation' !! k)) /\
  (forall ss, ss ∈ small_stars -> is_Some (total_radiation' !! key ss)).
Proof.
  revert total_radiation.
  induction small_stars as [|ss0 rest IH]; intros total_radiation tr' Hzero; subst tr'.
  { simpl. repeat split; try done. intros ss Hin. by apply elem_of_nil in Hin. }
  simpl. destruct (IH (<[key ss0 := 0]> total_radiation)) as (Hz & Hkeep & Hin).
  { intros k v Hk. apply lookup_insert_Some in Hk as [[_ <-]|[_ Hk]]; [done|].
    by apply (Hzero k). }
  repeat split; [done | |].
  - intros k Hk. apply Hkeep. destruct (decide (key ss0 = k)) as [->|Hne].
    + rewrite lookup_insert_eq. eauto.
    + by rewrite lookup_insert_ne.
  - intros ss Hss. apply elem_of_cons in Hss as [->|Hss]; [|by apply Hin].
    apply Hkeep. rewrite lookup_insert_eq. eauto.
Qed.

Section FarFieldQuery.
Context {np : Numpy} {un : Units}.

Lemma init_total_radiation_lookup (small_stars : list Star) (ss : Star) :
  ss ∈ small_stars -> init_total_radiation small_stars !! key ss = Some 0.
Proof.
  intros Hin. unfold init_total_radiation.
  destruct (init_total_radiation_from small_stars ∅) as (Hz & _ & Hdom).
  { intros k v Hk. by rewrite lookup_empty in Hk. }
  destruct (Hdom ss Hin) as [v Hv]. by rewrite Hv, (Hz _ _ Hv).
Qed.

(** C6, amended: for small stars of distinct keys, the FUV coordinate of
    the query point of a star that is not dispersed is the sum, over the
    bright stars, of the luminosity of the bright star over the sphere of
    radius their distance, in units of G0 (1.6e-3 erg / s / cm**2); a
    bright star closer than the EUV distance [EUV_dmin] of the small star
    adds nothing to the sum. *)
Theorem fuv_query_coordinate (bright_stars small_stars : list Star) (ss : Star) :
  NoDup (key <$> small_stars) ->
  ss ∈ small_stars ->
  dispersed ss = false ->
  exists small_stars' total_radiation flux,
    total_radiation_of bright_stars small_stars
    = Returns (small_stars', total_radiation) /\
    total_radiation !! key ss = Some flux /\
    flux == fuv_sum bright_stars ss /\
    forall (reg : Registry) (star : Star) (i : nat) (c : Disk),
      key star = key ss ->
      disk_codes_indices reg !! key star = Some i ->
      disk_codes reg !! i = Some c ->
      grid c <> [] ->
      exists xi0 xi2 xi3,
        query_point total_radiation reg star = Returns (xi0, flux, xi2, xi3).
Proof.
  intros Hnd Hin Hdisp. unfold total_radiation_of.
  destruct (fuv_radiation_spec bright_stars small_stars
              (init_total_radiation small_stars) Hnd)
    as (stars' & tr & Hloop & _ & Hown).
  { intros ss0 Hin0. rewrite init_total_radiation_lookup by done. eauto. }
  destruct (Hown ss 0 Hin Hdisp (init_total_radiation_lookup _ _ Hin))
    as (flux & Hflux & Heq).
  exists stars', tr, flux. repeat split; [done | done | rewrite Heq; ring |].
  intros reg star i c Hkey Hi Hc Hgrid. unfold query_point.
  rewrite Hkey in *.
  unfold dict_get, get_disk_radius, getitem.
  destruct (grid c) as [|c0 rest] eqn:Hcells; [done|].
  repeat first [rewrite Hflux | rewrite Hi | rewrite Hc | rewrite Hcells
               | progress simpl].
  eauto.
Qed.

End FarFieldQuery.

Section FarFieldExamples.
#[local] Existing Instances sample_numpy cgs_units.

(** C6 as stated fails: a bright star of 20 MSun at 1e16 cm (under the EUV
    distance) of a small star with a disk of 100 au has a positive
    luminosity and flux at that distance, and the FUV coordinate of the
    query point of the small star is 0. *)
Lemma fuv_coordinate_skips_near_bright_star :
  let s := sample_bright_star 3 (1e16, 0, 0) in
  let ss := sample_star 1 (0, 0, 0) (0, 0, 0) in
  let reg := initial_registry [(1%N, sample_disk)] in
  dispersed ss = false /\
  0 < radiation_at_distance (luminosity_fit (stellar_mass s / MSun)) (distance s ss) /\
  match total_radiation_of [s] [ss] with
  | Returns (small_stars', total_radiation) =>
      total_radiation !! key ss = Some 0 /\
      match query_point total_radiation reg ss with
      | Returns (xi0, xi1, xi2, xi3) => xi1 = 0
      | Raises _ => False
      end
  | Raises _ => False
  end.
Proof. vm_compute. repeat split; reflexivity. Qed.

(** Two small stars and two bright stars of 20 MSun: one at 1e18 cm of the
    first small star, beyond its EUV distance, and one at 1e16 cm, under
    it.  The FUV coordinate of the first small star is the flux of the far
    bright star alone, and it is positive. *)
Lemma fuv_query_coordinate_witness :
  let far := sample_bright_star 3 (1e18, 0, 0) in
  let near := sample_bright_star 4 (1e16, 0, 0) in
  let ss := sample_star 1 (0, 0, 0) (0, 0, 0) in
  let other := sample_star 2 (0, 2e18, 0) (0, 0, 0) in
  (exists small_stars' total_radiation flux,
     total_radiation_of [far; near] [ss; other]
     = Returns (small_stars', total_radiation) /\
     total_radiation !! key ss = Some flux /\
     flux == fuv_sum [far; near] ss /\
     forall (reg : Registry) (star : Star) (i : nat) (c : Disk),
       key star = key ss ->
       disk_codes_indices reg !! key star = Some i ->
       disk_codes reg !! i = Some c ->
       grid c <> [] ->
       exists xi0 xi2 xi3,
         query_point total_radiation reg star = Returns (xi0, flux, xi2, xi3)) /\
  EUV_dmin ss <= distance far ss /\
  distance near ss < EUV_dmin ss /\
  0 < fuv_sum [far; near] ss /\
  fuv_sum [far; near] ss
  == radiation_at_distance (luminosity_fit (stellar_mass far / MSun))
                           (distance far ss) / 1.6e-3.
Proof.
  intros far near ss other. split.
  - apply (fuv_query_coordinate [far; near] [ss; other] ss).
    + simpl. apply NoDup_cons. split; [|apply NoDup_singleton].
      intros Hin. apply list_elem_of_singleton in Hin. discriminate.
    + apply elem_of_cons. by left.
    + reflexivity.
  - vm_compute. repeat split; first [reflexivity | discriminate].
Defined.

End FarFieldExamples.

(** * Further properties *)

(** ** Grid Query Layer: errors, limits, truncation *)

Lemma where_first_radius (disk : Disk) (i : nat) (c : Cell) :
  grid disk !! i = Some c ->
  exists init_cell x,
    where_first (fun c' => Qeqb (r c') (r c)) (grid disk) = Returns init_cell /\
    (init_cell <= i)%nat /\ grid disk !! init_cell = Some x /\ r x == r c.
Proof.
  intros Hc.
  destruct (where_first_total (fun c' => Qeqb (r c') (r c)) (grid disk) i c Hc)
    as (init_cell & Hwhere & Hle); [by apply Qeqb_eq|].
  destruct (where_first_Returns _ _ _ Hwhere) as (x & Hx & Hrx & _).
  exists init_cell, x. repeat split; [done | done | done | by apply Qeqb_eq].
Qed.

(** X1: the grid queries raise only on a grid without cells, and then
    [IndexError]: on any other grid [get_disk_radius], [evaporate] and
    [get_disk_density] return. *)
Theorem grid_queries_raise_only_on_empty_grid (disk : Disk) (density_limit mass_to_remove : Q)
    (e : exn) :
  (get_disk_radius disk density_limit = Raises e <-> e = IndexError /\ grid disk = []) /\
  (evaporate disk mass_to_remove = Raises e <-> e = IndexError /\ grid disk = []) /\
  (get_disk_density disk = Raises e <-> e = IndexError /\ grid disk = []).
Proof.
  destruct (grid disk) as [|c0 rest] eqn:Hgrid.
  - unfold evaporate, get_disk_density, get_disk_radius, getitem. rewrite Hgrid. simpl.
    split; [|split]; (split; [intros [= <-]; done | intros [-> _]; done]).
  - assert (Hne : grid disk <> []) by (rewrite Hgrid; done).
    destruct (get_disk_radius_cell disk density_limit Hne) as (i & c & Hrad & Hc).
    destruct (get_disk_radius_cell disk radius_density_limit Hne) as (i' & c' & Hrad' & Hc').
    destruct (where_first_radius disk i' c' Hc') as (init_cell & x & Hwhere & _ & Hx & _).
    destruct (evaporate_loop_total disk mass_to_remove 0 init_cell) as [res Hres].
    { apply lookup_lt_Some in Hx. lia. }
    unfold evaporate, get_disk_density. rewrite Hrad, Hrad'. simpl.
    rewrite Hwhere. simpl. rewrite Hres, <- Hgrid.
    split; [|split]; (split; [discriminate | intros [_ Hnil]; done]).
Qed.

(** The cells two scans agree on. *)
Lemma scan_radius_limit_mono (limit1 limit2 prev_r : Q) (cells : list Cell) :
  limit1 <= limit2 ->
  (forall c, c ∈ cells -> prev_r <= r c) ->
  increasing_radii cells ->
  scan_radius limit2 prev_r cells <= scan_radius limit1 prev_r cells.
Proof.
  intros Hlim. revert prev_r.
  induction cells as [|c rest IH]; intros prev_r Hprev Hinc; simpl; [lra|].
  assert (Hrest : increasing_radii rest).
  { intros i j ci cj Hij Hi Hj. apply (Hinc (S i) (S j)); [lia | done | done]. }
  assert (Hhead : forall c', c' ∈ rest -> r c <= r c').
  { intros c' Hin. apply list_elem_of_lookup in Hin as [j Hj].
    apply Qlt_le_weak. apply (Hinc 0%nat (S j)); [lia | done | done]. }
  case_Qltb (column_density c) limit2; case_Qltb (column_density c) limit1.
  - lra.
  - (* the scan with the lower limit goes on: it ends at or after [c] *)
    clear IH. assert (Hge : forall p cs, (forall c', c' ∈ cs -> p <= r c') ->
                increasing_radii cs -> p <= scan_radius limit1 p cs).
    { intros p cs. revert p. induction cs as [|d ds IHd]; intros p Hp Hi; simpl; [lra|].
      destruct (Qltb (column_density d) limit1); [lra|].
      assert (p <= r d) by (apply Hp; by left).
      assert (r d <= scan_radius limit1 (r d) ds); [|lra].
      apply IHd.
      - intros c' Hin. apply list_elem_of_lookup in Hin as [j Hj].
        apply Qlt_le_weak. apply (Hi 0%nat (S j)); [lia | done | done].
      - intros i j ci cj Hij Hci Hcj. apply (Hi (S i) (S j)); [lia | done | done]. }
    assert (prev_r <= r c) by (apply Hprev; by left).
    assert (r c <= scan_radius limit1 (r c) rest) by (by apply Hge). lra.
  - lra.
  - by apply IH.
Qed.

(** X2: on a grid of increasing radii, lowering the density limit never
    lowers the radius [get_disk_radius] returns. *)
Theorem get_disk_radius_limit_mono (disk : Disk) (limit1 limit2 radius1 radius2 : Q) :
  increasing_radii (grid disk) ->
  limit1 <= limit2 ->
  get_disk_radius disk limit1 = Returns radius1 ->
  get_disk_radius disk limit2 = Returns radius2 ->
  radius2 <= radius1.
Proof.
  intros Hinc Hlim. unfold get_disk_radius, getitem.
  destruct (grid disk) as [|c0 rest] eqn:Hgrid; [discriminate|]. simpl.
  intros [= <-] [= <-]. 
  assert (Haux : forall p, p <= r c0 ->
            scan_radius limit2 p (c0 :: rest) <= scan_radius limit1 p (c0 :: rest)).
  { intros p Hp. apply scan_radius_limit_mono; [done | | done].
    intros c Hin. apply elem_of_cons in Hin as [->|Hin]; [done|].
    apply list_elem_of_lookup in Hin as [j Hj].
    assert (r c0 < r c) by (apply (Hinc 0%nat (S j)); [lia | done | done]). lra. }
  apply Haux. lra.
Qed.

Lemma sample_disk_increasing : increasing_radii (grid sample_disk).
Proof.
  intros i j ci cj Hij Hi Hj.
  destruct i as [|[|[|[|i]]]]; destruct j as [|[|[|[|j]]]];
    simpl in Hi, Hj; try lia; try discriminate;
    inversion Hi; inversion Hj; subst; reflexivity.
Qed.

Lemma get_disk_radius_limit_mono_witness :
  exists radius1 radius2,
    get_disk_radius sample_disk 1e-13 = Returns radius1 /\
    get_disk_radius sample_disk 1e-10 = Returns radius2 /\
    radius2 <= radius1.
Proof.
  eexists _, _. split; [reflexivity|]. split; [reflexivity|].
  apply (get_disk_radius_limit_mono sample_disk 1e-13 1e-10 _ _
           sample_disk_increasing).
  - vm_compute. discriminate.
  - reflexivity.
  - reflexivity.
Defined.

(** X3: two truncations with the same density limit are one truncation at
    the smaller of the two radii; so truncating twice at one radius is the
    same as truncating once. *)
Theorem truncate_disk_twice (disk : Disk) (radius1 radius2 density_limit : Q) :
  truncate_disk (truncate_disk disk radius1 density_limit) radius2 density_limit
  = truncate_disk disk (if Qltb radius1 radius2 then radius1 else radius2)
                  density_limit /\
  truncate_disk (truncate_disk disk radius1 density_limit) radius1 density_limit
  = truncate_disk disk radius1 density_limit.
Proof.
  assert (Hcell : forall a b c,
            truncate_cell b density_limit (truncate_cell a density_limit c)
            = truncate_cell (if Qltb a b then a else b) density_limit c).
  { intros a b c. unfold truncate_cell.
    case_Qltb a b; case_Qltb a (r c); simpl; case_Qltb b (r c); simpl;
      try reflexivity; exfalso; lra. }
  assert (Hdisk : forall a b,
            truncate_disk (truncate_disk disk a density_limit) b density_limit
            = truncate_disk disk (if Qltb a b then a else b) density_limit).
  { intros a b. unfold truncate_disk. simpl. f_equal.
    rewrite map_map. apply map_ext. intros c. apply Hcell. }
  split; [apply Hdisk|].
  rewrite Hdisk. by destruct (Qltb radius1 radius1).
Qed.

Lemma filter_none {A : Type} (f : A -> bool) (l : list A) :
  (forall x, x ∈ l -> f x = false) -> List.filter f l = [].
Proof.
  induction l as [|x rest IH]; intros Hall; simpl; [done|].
  rewrite (Hall x) by (by left). apply IH. intros y Hy. apply Hall. by right.
Qed.

Lemma filter_all {A : Type} (f : A -> bool) (l : list A) :
  (forall x, x ∈ l -> f x = true) -> List.filter f l = l.
Proof.
  induction l as [|x rest IH]; intros Hall; simpl; [done|].
  rewrite (Hall x) by (by left). f_equal. apply IH. intros y Hy. apply Hall. by right.
Qed.

(** On a grid of increasing radii the cells counted by [get_disk_mass] are
    the cells of radius at most [radius]. *)
Lemma mass_cells_prefix (cells : list Cell) (radius : Q) :
  increasing_radii cells ->
  forall c, c ∈ take (length (List.filter (fun c => Qleb (r c) radius) cells)) cells ->
            r c <= radius.
Proof.
  induction cells as [|c0 rest IH]; intros Hinc c Hin; simpl in Hin.
  { by apply elem_of_nil in Hin. }
  assert (Hrest : increasing_radii rest).
  { intros i j ci cj Hij Hi Hj. apply (Hinc (S i) (S j)); [lia | done | done]. }
  case_Qleb (r c0) radius; simpl in Hin.
  - apply elem_of_cons in Hin as [->|Hin]; [done | by apply IH].
  - assert (Hnone : List.filter (fun c => Qleb (r c) radius) rest = []).
    { apply filter_none. intros d Hd. apply list_elem_of_lookup in Hd as [j Hj].
      apply Qleb_gt.
      assert (r c0 < r d) by (apply (Hinc 0%nat (S j)); [lia | done | done]). lra. }
    rewrite Hnone in Hin. simpl in Hin. by apply elem_of_nil in Hin.
Qed.

Lemma filter_truncate_length (cells : list Cell) (new_radius density_limit radius : Q) :
  length (List.filter (fun c => Qleb (r c) radius)
            (map (truncate_cell new_radius density_limit) cells))
  = length (List.filter (fun c => Qleb (r c) radius) cells).
Proof.
  induction cells as [|c rest IH]; simpl; [done|].
  replace (r (truncate_cell new_radius density_limit c)) with (r c)
    by (unfold truncate_cell; by destruct (Qltb new_radius (r c))).
  destruct (Qleb (r c) radius); simpl; by rewrite IH.
Qed.

(** The cells counted by [get_disk_mass] inside the truncation radius are
    left as they were by the truncation at that radius. *)
Lemma take_truncate_prefix (cells : list Cell) (radius density_limit : Q) (n : nat) :
  (forall c, c ∈ take n cells -> r c <= radius) ->
  take n (map (truncate_cell radius density_limit) cells) = take n cells.
Proof.
  intros Hprefix. rewrite firstn_map.
  induction (take n cells) as [|c rest IH]; simpl; [done|].
  rewrite IH by (intros d Hd; apply Hprefix; by right).
  f_equal. unfold truncate_cell.
  case_Qltb radius (r c); [|done].
  assert (r c <= radius) by (apply Hprefix; by left). lra.
Qed.

(** X4: on a grid of increasing radii a truncation leaves the mass inside
    every radius up to the truncation radius as it was. *)
Theorem truncate_disk_keeps_inner_mass (disk : Disk)
    (new_radius density_limit radius : Q) :
  increasing_radii (grid disk) ->
  radius <= new_radius ->
  get_disk_mass (truncate_disk disk new_radius density_limit) radius
  = get_disk_mass disk radius.
Proof.
  intros Hinc Hle. unfold get_disk_mass. simpl.
  rewrite filter_truncate_length.
  pose proof (mass_cells_prefix (grid disk) radius Hinc) as Hprefix.
  set (n := length (List.filter (fun c => Qleb (r c) radius) (grid disk))) in *.
  rewrite firstn_map.
  replace (map (truncate_cell new_radius density_limit) (take n (grid disk)))
    with (take n (grid disk)); [done|].
  induction (take n (grid disk)) as [|c rest IH]; simpl; [done|].
  rewrite <- IH by (intros d Hd; apply Hprefix; by right).
  f_equal. unfold truncate_cell.
  case_Qltb new_radius (r c); [|done].
  assert (r c <= radius) by (apply Hprefix; by left). lra.
Qed.

Lemma truncate_disk_keeps_inner_mass_witness :
  get_disk_mass (truncate_disk sample_disk (60 * 1.49597870691e13)
                               truncate_density_limit)
                (50 * 1.49597870691e13)
  = get_disk_mass sample_disk (50 * 1.49597870691e13).
Proof.
  apply (truncate_disk_keeps_inner_mass sample_disk _ _ _ sample_disk_increasing).
  vm_compute. discriminate.
Defined.

(** The scan of an untouched prefix: cells the truncation leaves alone up to
    the first cell under the limit. *)
Lemma scan_radius_truncate_outside (new_radius prev_r : Q) (cells : list Cell) :
  increasing_radii cells ->
  scan_radius radius_density_limit prev_r cells <= new_radius ->
  (forall c, c ∈ cells -> prev_r < r c) ->
  scan_radius radius_density_limit prev_r
    (map (truncate_cell new_radius truncate_density_limit) cells)
  = scan_radius radius_density_limit prev_r cells.
Proof.
  revert prev_r. induction cells as [|c rest IH]; intros prev_r Hinc Hscan Hprev;
    simpl in *; [done|].
  assert (Hrest : increasing_radii rest).
  { intros i j ci cj Hij Hi Hj. apply (Hinc (S i) (S j)); [lia | done | done]. }
  assert (Hnext : forall c', c' ∈ rest -> r c < r c').
  { intros c' Hin. apply list_elem_of_lookup in Hin as [j Hj].
    apply (Hinc 0%nat (S j)); [lia | done | done]. }
  unfold truncate_cell at 1 2.
  case_Qltb (column_density c) radius_density_limit.
  - case_Qltb new_radius (r c); simpl; [done|].
    by rewrite (proj2 (Qltb_lt _ _) Hcmp).
  - assert (Hge : forall p cs, (forall c', c' ∈ cs -> p < r c') ->
                increasing_radii cs -> p <= scan_radius radius_density_limit p cs).
    { intros p cs. revert p. induction cs as [|d ds IHd]; intros p Hp Hi; simpl; [lra|].
      destruct (Qltb (column_density d) radius_density_limit); [lra|].
      assert (p < r d) by (apply Hp; by left).
      assert (r d <= scan_radius radius_density_limit (r d) ds); [|lra].
      apply IHd.
      - intros c' Hin. apply list_elem_of_lookup in Hin as [j Hj].
        apply (Hi 0%nat (S j)); [lia | done | done].
      - intros i j ci cj Hij Hci Hcj. apply (Hi (S i) (S j)); [lia | done | done]. }
    assert (r c <= scan_radius radius_density_limit (r c) rest) by (by apply Hge).
    case_Qltb new_radius (r c); [lra|]. simpl.
    rewrite (proj2 (Qltb_ge _ _) Hcmp). by apply IH.
Qed.

(** X5: on a grid of increasing radii, a truncation at a radius not under
    the disk radius changes neither the radius found by [get_disk_radius]
    nor the mass inside it. *)
Theorem truncate_disk_outside_is_noop (disk : Disk) (new_radius radius : Q) :
  increasing_radii (grid disk) ->
  get_disk_radius disk radius_density_limit = Returns radius ->
  radius <= new_radius ->
  get_disk_radius (truncate_disk disk new_radius truncate_density_limit)
                  radius_density_limit = Returns radius /\
  get_disk_mass (truncate_disk disk new_radius truncate_density_limit) radius
  = get_disk_mass disk radius.
Proof.
  intros Hinc Hrad Hle.
  split.
  2:{ unfold get_disk_mass. simpl. rewrite filter_truncate_length.
      rewrite take_truncate_prefix; [done|].
      intros c Hc. pose proof (mass_cells_prefix (grid disk) radius Hinc c Hc). lra. }
  revert Hrad. unfold get_disk_radius, getitem. rewrite truncate_disk_lookup.
  destruct (grid disk) as [|c0 rest] eqn:Hgrid; [discriminate|]. simpl.
  intros [= Hrad]. f_equal.
  assert (Hr0 : r (truncate_cell new_radius truncate_density_limit c0) = r c0)
    by (unfold truncate_cell; by destruct (Qltb new_radius (r c0))).
  rewrite Hr0, <- Hrad, Hgrid.
  (* the first cell is visited with its own radius as [prev_r] *)
  simpl. unfold truncate_cell at 1 2.
  assert (Hrest : increasing_radii rest).
  { intros i j ci cj Hij Hi Hj. apply (Hinc (S i) (S j)); [lia | done | done]. }
  assert (Hnext : forall c', c' ∈ rest -> r c0 < r c').
  { intros c' Hin. apply list_elem_of_lookup in Hin as [j Hj].
    apply (Hinc 0%nat (S j)); [lia | done | done]. }
  simpl in Hrad.
  case_Qltb (column_density c0) radius_density_limit.
  - case_Qltb new_radius (r c0); simpl; [done|].
    by rewrite (proj2 (Qltb_lt _ _) Hcmp).
  - case_Qltb new_radius (r c0); simpl.
    + exfalso. subst radius.
      assert (r c0 <= scan_radius radius_density_limit (r c0) rest); [|lra].
      clear -Hrest Hnext. revert Hnext Hrest. generalize (r c0).
      induction rest as [|d ds IHd]; intros p Hp Hi; simpl; [lra|].
      destruct (Qltb (column_density d) radius_density_limit); [lra|].
      assert (p < r d) by (apply Hp; by left).
      assert (r d <= scan_radius radius_density_limit (r d) ds); [|lra].
      apply IHd.
      * intros c' Hin. apply list_elem_of_lookup in Hin as [j Hj].
        apply (Hi 0%nat (S j)); [lia | done | done].
      * intros i j ci cj Hij Hci Hcj. apply (Hi (S i) (S j)); [lia | done | done].
    + rewrite (proj2 (Qltb_ge _ _) Hcmp).
      apply scan_radius_truncate_outside; [done | by rewrite Hrad | done].
Qed.

Lemma truncate_disk_outside_is_noop_witness :
  get_disk_radius (truncate_disk sample_disk (120 * 1.49597870691e13)
                                 truncate_density_limit)
                  radius_density_limit = Returns (100 * 1.49597870691e13) /\
  get_disk_mass (truncate_disk sample_disk (120 * 1.49597870691e13)
                               truncate_density_limit)
                (100 * 1.49597870691e13)
  = get_disk_mass sample_disk (100 * 1.49597870691e13).
Proof.
  apply (truncate_disk_outside_is_noop sample_disk _ _ sample_disk_increasing).
  - reflexivity.
  - vm_compute. discriminate.
Defined.

(** ** Grid Query Layer: masses, the cut of [evaporate], mean density *)

Lemma mass_sum_from (cells : list Cell) (total : Q) :
  fold_left (fun total_mass c => total_mass + cell_mass c) cells total
  == total + fold_left (fun total_mass c => total_mass + cell_mass c) cells 0.
Proof.
  revert total. induction cells as [|c rest IH]; intros total; simpl; [ring|].
  rewrite (IH (total + _)), (IH (0 + _)). ring.
Qed.

Lemma mass_sum_nonneg (cells : list Cell) :
  (forall c, c ∈ cells -> 0 <= cell_mass c) ->
  0 <= fold_left (fun total_mass c => total_mass + cell_mass c) cells 0.
Proof.
  induction cells as [|c rest IH]; intros Hpos; simpl; [lra|].
  pose proof (mass_sum_from rest (0 + cell_mass c)) as Hsum.
  assert (0 <= cell_mass c) by (apply Hpos; by left).
  assert (0 <= fold_left (fun total_mass c => total_mass + cell_mass c) rest 0).
  { apply IH. intros d Hd. apply Hpos. by right. }
  lra.
Qed.

Lemma filter_length_mono (cells : list Cell) (radius1 radius2 : Q) :
  radius1 <= radius2 ->
  (length (List.filter (fun c => Qleb (r c) radius1) cells)
   <= length (List.filter (fun c => Qleb (r c) radius2) cells))%nat.
Proof.
  intros Hle. induction cells as [|c rest IH]; simpl; [lia|].
  case_Qleb (r c) radius1.
  - rewrite (proj2 (Qleb_le (r c) radius2)) by lra. simpl. lia.
  - destruct (Qleb (r c) radius2); simpl; lia.
Qed.

(** X6: when no cell has a negative mass, the mass inside a radius is not
    negative and does not decrease when the radius grows. *)
Theorem get_disk_mass_mono (disk : Disk) (radius1 radius2 : Q) :
  (forall c, c ∈ grid disk -> 0 <= cell_mass c) ->
  radius1 <= radius2 ->
  0 <= get_disk_mass disk radius1 /\
  get_disk_mass disk radius1 <= get_disk_mass disk radius2.
Proof.
  intros Hpos Hle. unfold get_disk_mass.
  pose proof (filter_length_mono (grid disk) radius1 radius2 Hle) as Hlen.
  set (n1 := length (List.filter (fun c => Qleb (r c) radius1) (grid disk))) in *.
  set (n2 := length (List.filter (fun c => Qleb (r c) radius2) (grid disk))) in *.
  assert (Hin : forall n c, c ∈ take n (grid disk) -> 0 <= cell_mass c).
  { intros n c Hc. apply Hpos. apply elem_of_take in Hc as (i & Hi & _).
    apply list_elem_of_lookup. eauto. }
  split; [apply mass_sum_nonneg, Hin|].
  rewrite <- (take_drop n1 (take n2 (grid disk))).
  rewrite take_take, Nat.min_l by done.
  rewrite fold_left_app.
  pose proof (mass_sum_from (drop n1 (take n2 (grid disk)))
                (fold_left (fun total_mass c => total_mass + cell_mass c)
                           (take n1 (grid disk)) 0)) as Hsum.
  assert (0 <= fold_left (fun total_mass c => total_mass + cell_mass c)
                         (drop n1 (take n2 (grid disk))) 0); [|lra].
  apply mass_sum_nonneg. intros c Hc. apply (Hin n2).
  apply list_elem_of_lookup in Hc as [i Hi]. rewrite lookup_drop in Hi.
  apply list_elem_of_lookup. eauto.
Qed.

Lemma get_disk_mass_mono_witness :
  0 <= get_disk_mass sample_disk (50 * 1.49597870691e13) /\
  get_disk_mass sample_disk (50 * 1.49597870691e13)
  <= get_disk_mass sample_disk (100 * 1.49597870691e13).
Proof.
  apply (get_disk_mass_mono sample_disk).
  - intros c Hc. simpl in Hc.
    repeat (apply elem_of_cons in Hc as [->|Hc]; [vm_compute; discriminate|]).
    by apply elem_of_nil in Hc.
  - vm_compute. discriminate.
Defined.


Lemma outside_in_mass_from (cells : list Cell) (start : Q) :
  fold_right (fun c swiped_mass => swiped_mass + cell_mass c) start cells
  == start + outside_in_mass cells.
Proof.
  unfold outside_in_mass.
  induction cells as [|x rest IH]; simpl; [ring|]. rewrite IH. ring.
Qed.

Lemma outside_in_mass_snoc (cells : list Cell) (c : Cell) :
  outside_in_mass (cells ++ [c]) == cell_mass c + outside_in_mass cells.
Proof.
  unfold outside_in_mass at 1. rewrite fold_right_app. simpl.
  rewrite outside_in_mass_from. ring.
Qed.

(** The turn of the loop that returns a disk: the running total reaches the
    target at cell [i] and not before. *)
Lemma evaporate_loop_cut (disk d' : Disk) (mass_to_remove swiped_mass : Q) (n : nat) :
  swiped_mass < mass_to_remove ->
  evaporate_loop disk mass_to_remove swiped_mass n = Returns (Some d') ->
  exists i c,
    (1 <= i < n)%nat /\ grid disk !! i = Some c /\
    d' = truncate_disk disk (r c) truncate_density_limit /\
    swiped_mass + outside_in_mass (drop (S i) (take n (grid disk))) < mass_to_remove /\
    mass_to_remove <= swiped_mass + outside_in_mass (drop i (take n (grid disk))).
Proof.
  revert swiped_mass. induction n as [|k IH]; intros swiped_mass Hlt; simpl;
    [discriminate|].
  intros Hb. apply bind_Returns in Hb as (c & Hc & Hb).
  apply getitem_Returns in Hc.
  assert (Hk : length (take k (grid disk)) = k).
  { rewrite length_take. apply lookup_lt_Some in Hc. lia. }
  rewrite (take_S_r _ _ _ Hc).
  case_Qltb (swiped_mass + cell_mass c) mass_to_remove.
  - destruct (IH _ Hcmp Hb) as (i & ci & Hi & Hci & -> & Hbefore & Hat).
    exists i, ci. repeat split; [lia | lia | done | |].
    + rewrite drop_app_le by lia.
      rewrite (outside_in_mass_snoc (drop (S i) (take k (grid disk))) c). lra.
    + rewrite drop_app_le by lia.
      rewrite (outside_in_mass_snoc (drop i (take k (grid disk))) c). lra.
  - destruct (k =? 0)%nat eqn:Hk0; [discriminate|].
    apply Nat.eqb_neq in Hk0. inversion Hb; subst d'.
    exists k, c. repeat split; [lia | lia | done | |].
    + rewrite drop_ge by (rewrite length_app, Hk; simpl; lia).
      unfold outside_in_mass. simpl. lra.
    + rewrite drop_app_length' by done.
      unfold outside_in_mass. simpl. lra.
Qed.

(** X7: for a positive [mass_to_remove], a disk returned by [evaporate] was
    truncated at the radius of the first cell [i], going inwards from the
    cell under the outer edge, at which the running total of cell masses
    reaches [mass_to_remove]: the cells outside [i] hold less than the
    target, and with cell [i] they hold at least the target.  Cell [i]
    itself keeps its column density. *)
Theorem evaporate_cuts_where_target_is_met (disk d' : Disk) (mass_to_remove : Q) :
  0 < mass_to_remove ->
  evaporate disk mass_to_remove = Returns (Some d') ->
  exists radius init_cell i c,
    get_disk_radius disk radius_density_limit = Returns radius /\
    where_first (fun c => Qeqb (r c) radius) (grid disk) = Returns init_cell /\
    (1 <= i < init_cell)%nat /\ grid disk !! i = Some c /\
    d' = truncate_disk disk (r c) truncate_density_limit /\
    outside_in_mass (drop (S i) (take init_cell (grid disk))) < mass_to_remove /\
    mass_to_remove <= outside_in_mass (drop i (take init_cell (grid disk))) /\
    column_density <$> grid d' !! i = Some (column_density c).
Proof.
  intros Hpos Hev. unfold evaporate in Hev.
  apply bind_Returns in Hev as (radius & Hrad & Hev).
  apply bind_Returns in Hev as (init_cell & Hwhere & Hev).
  apply evaporate_loop_cut in Hev as (i & c & Hi & Hc & -> & Hbefore & Hat); [|done].
  exists radius, init_cell, i, c.
  repeat split; try done; try lia; try lra.
  rewrite truncate_disk_lookup, Hc. simpl. f_equal.
  unfold truncate_cell. by rewrite (proj2 (Qltb_ge (r c) (r c))) by lra.
Qed.

Lemma evaporate_cuts_where_target_is_met_witness :
  exists radius init_cell i c,
    get_disk_radius sample_disk radius_density_limit = Returns radius /\
    where_first (fun c => Qeqb (r c) radius) (grid sample_disk) = Returns init_cell /\
    (1 <= i < init_cell)%nat /\ grid sample_disk !! i = Some c /\
    truncate_disk sample_disk (50 * 1.49597870691e13) truncate_density_limit
    = truncate_disk sample_disk (r c) truncate_density_limit /\
    outside_in_mass (drop (S i) (take init_cell (grid sample_disk))) < 5e30 /\
    5e30 <= outside_in_mass (drop i (take init_cell (grid sample_disk))) /\
    column_density
      <$> grid (truncate_disk sample_disk (50 * 1.49597870691e13)
                              truncate_density_limit) !! i
    = Some (column_density c).
Proof.
  apply (evaporate_cuts_where_target_is_met sample_disk _ 5e30); reflexivity.
Defined.

Lemma values_sum_ge (values : list Q) (limit total : Q) :
  (forall x, x ∈ values -> limit <= x) ->
  total + limit * inject_Z (Z.of_nat (length values)) <= fold_left Qplus values total.
Proof.
  revert total. induction values as [|x rest IH]; intros total Hall.
  - simpl. change (inject_Z (Z.of_nat 0)) with 0. lra.
  - assert (limit <= x) by (apply Hall; by left).
    assert (Hrest : total + x + limit * inject_Z (Z.of_nat (length rest))
                    <= fold_left Qplus rest (total + x)).
    { apply IH. intros y Hy. apply Hall. by right. }
    simpl fold_left. cbn [length]. rewrite Nat2Z.inj_succ.
    unfold Z.succ. rewrite inject_Z_plus. change (inject_Z 1) with 1.
    generalize dependent (inject_Z (Z.of_nat (length rest))). intros n Hrest. lra.
Qed.

Lemma numpy_mean_ge (values : list Q) (limit d : Q) :
  (forall x, x ∈ values -> limit <= x) ->
  numpy_mean values = Some d -> limit <= d.
Proof.
  intros Hall. destruct values as [|x rest] eqn:Hv; [discriminate|].
  rewrite <- Hv in *. unfold numpy_mean. rewrite Hv at 1. intros [= <-].
  pose proof (values_sum_ge values limit 0 Hall) as Hsum.
  assert (Hn : 0 < inject_Z (Z.of_nat (length values))).
  { rewrite Hv. simpl length. rewrite Nat2Z.inj_succ.
    change 0 with (inject_Z 0). rewrite <- Zlt_Qlt. lia. }
  apply Qle_shift_div_l; [done | lra].
Qed.

(** X8: the mean density [get_disk_density] returns is never under the
    density limit of the radius query; it is [nan] exactly when the mean
    runs over no cell, that is when the first cell of the grid has the disk
    radius, and then the comparison with the dispersion threshold is
    false. *)
Theorem get_disk_density_above_limit (disk : Disk) (density : option Q) :
  get_disk_density disk = Returns density ->
  match density with
  | Some d => radius_density_limit <= d
  | None =>
      (exists c0 radius,
         grid disk !! 0%nat = Some c0 /\
         get_disk_radius disk radius_density_limit = Returns radius /\
         r c0 == radius) /\
      nan_leb density dispersion_threshold = false
  end.
Proof.
  unfold get_disk_density. intros Hb.
  apply bind_Returns in Hb as (radius & Hrad & Hb).
  apply bind_Returns in Hb as (radius_index & Hwhere & [= <-]).
  destruct (where_first_Returns _ _ _ Hwhere) as (x & Hx & Hrx & _).
  apply Qeqb_eq in Hrx.
  destruct (numpy_mean (column_density <$> take radius_index (grid disk)))
    as [d|] eqn:Hmean.
  - refine (numpy_mean_ge _ _ _ _ Hmean).
    intros v Hv. apply list_elem_of_fmap in Hv as (c & -> & Hc).
    apply elem_of_take in Hc as (j & Hj & Hlt).
    (* cell [j] comes before the cell the scan stopped at *)
    revert Hrad. unfold get_disk_radius, getitem.
    destruct (grid disk) as [|c0 rest] eqn:Hgrid; [discriminate|]. simpl.
    intros [= Hrad].
    destruct (scan_radius_spec radius_density_limit (r c0) (c0 :: rest))
      as (k & Hk & Hdense & _ & Hres).
    simpl in Hres.
    apply (Hdense j); [|done].
    destruct k as [|k'].
    + (* the scan stopped at the first cell: the index is 0 *)
      rewrite Hres in Hrad.
      assert (Hzero : where_first (fun c => Qeqb (r c) radius) (c0 :: rest)
                      = Returns 0%nat).
      { simpl. by rewrite (proj2 (Qeqb_eq (r c0) radius)) by (rewrite Hrad; reflexivity). }
      rewrite Hzero in Hwhere. inversion Hwhere. lia.
    + rewrite Hres in Hrad.
      destruct ((c0 :: rest) !! k') as [ck|] eqn:Hck.
      2:{ apply lookup_ge_None in Hck. simpl in *. lia. }
      simpl in Hrad.
      destruct (where_first_total (fun c => Qeqb (r c) radius) (c0 :: rest) k' ck Hck)
        as (i' & Hi' & Hle).
      { apply Qeqb_eq. rewrite Hrad. reflexivity. }
      rewrite Hi' in Hwhere. inversion Hwhere. lia.
  - split; [|done].
    destruct (take radius_index (grid disk)) as [|c1 l1] eqn:Htake; [|discriminate].
    destruct radius_index as [|n]; [|by destruct (grid disk)].
    exists x, radius. done.
Qed.

Lemma get_disk_density_above_limit_witness :
  get_disk_density sample_disk = Returns (Some (110 # 2)) /\
  radius_density_limit <= 110 # 2.
Proof.
  split; [reflexivity|].
  apply (get_disk_density_above_limit sample_disk (Some (110 # 2))).
  reflexivity.
Defined.

(** ** The initial column density *)

Lemma initialize_vader_code_grid (numpy_exp : Q -> Q) {np : Numpy} (disk : Disk)
    (disk_radius disk_mass alpha : Q) :
  exists Sigma_0,
    grid (initialize_vader_code numpy_exp disk disk_radius disk_mass alpha)
    = (fun c => {| r := r c;
                   column_density :=
                     Sigma_0 * (disk_radius / r c) * numpy_exp (- r c / disk_radius)
                     * (if Qleb (r c) disk_radius then 1 else 0)
                     + profile_lower_density;
                   area := area c |}) <$> grid disk.
Proof.
  eexists. unfold initialize_vader_code, set_column_density, column_density_profile.
  cbn [grid]. induction (grid disk) as [|c rest IH]; [done|].
  cbn. f_equal. apply IH.
Qed.

Lemma scan_radius_profile (f : Cell -> Q) (rc prev_r : Q) (cells : list Cell) :
  prev_r <= rc ->
  (forall c, rc < r c -> f c < radius_density_limit) ->
  scan_radius radius_density_limit prev_r
    ((fun c => {| r := r c; column_density := f c; area := area c |}) <$> cells)
  <= rc.
Proof.
  intros Hprev Hout. revert prev_r Hprev.
  induction cells as [|c rest IH]; intros prev_r Hprev; simpl; [done|].
  case_Qltb (f c) radius_density_limit; [done|].
  apply IH. destruct (Qlt_le_dec rc (r c)) as [Hgt|Hle]; [|done].
  specialize (Hout c Hgt). lra.
Qed.

(** X9: in a disk as [initialize_vader_code] leaves it, every cell beyond
    the characteristic radius holds the lower density 1e-12 of the profile,
    which is under the limit of the radius query; so when the first cell is
    within the characteristic radius the radius found by [get_disk_radius]
    is at most the characteristic radius.  The radii and areas of the cells
    are those of the solver grid. *)
Theorem initial_disk_radius_within_characteristic (numpy_exp : Q -> Q) {np : Numpy}
    (disk : Disk) (disk_radius disk_mass alpha : Q) (c0 : Cell) :
  grid disk !! 0%nat = Some c0 ->
  r c0 <= disk_radius ->
  let disk' := initialize_vader_code numpy_exp disk disk_radius disk_mass alpha in
  (forall i c', grid disk' !! i = Some c' -> disk_radius < r c' ->
                column_density c' == profile_lower_density) /\
  r <$> grid disk' = r <$> grid disk /\
  area <$> grid disk' = area <$> grid disk /\
  exists radius,
    get_disk_radius disk' radius_density_limit = Returns radius /\
    radius <= disk_radius.
Proof.
  intros Hc0 Hle disk'.
  destruct (initialize_vader_code_grid numpy_exp disk disk_radius disk_mass alpha)
    as [Sigma_0 Hgrid].
  fold disk' in Hgrid.
  set (f := fun c => Sigma_0 * (disk_radius / r c) * numpy_exp (- r c / disk_radius)
                     * (if Qleb (r c) disk_radius then 1 else 0)
                     + profile_lower_density) in *.
  assert (Hout : forall c, disk_radius < r c -> f c == profile_lower_density).
  { intros c Hgt. unfold f. rewrite (proj2 (Qleb_gt _ _) Hgt). ring. }
  repeat split.
  - intros i c' Hc' Hgt. rewrite Hgrid, list_lookup_fmap in Hc'.
    destruct (grid disk !! i) as [c|]; [|done]. inversion Hc'; subst c'.
    simpl in *. by apply Hout.
  - rewrite Hgrid, <- list_fmap_compose. done.
  - rewrite Hgrid, <- list_fmap_compose. done.
  - unfold get_disk_radius, getitem. rewrite Hgrid, list_lookup_fmap, Hc0. simpl.
    eexists. split; [reflexivity|].
    apply scan_radius_profile; [done|].
    intros c Hgt. apply Qle_lt_trans with profile_lower_density; [|reflexivity].
    apply Qle_lteq. right. by apply Hout.
Qed.

Lemma initial_disk_radius_within_characteristic_witness :
  let disk' := @initialize_vader_code sample_numpy sample_exp sample_disk
                 (60 * 1.49597870691e13) 1.98892e32 5e-3 in
  (forall i c', grid disk' !! i = Some c' -> 60 * 1.49597870691e13 < r c' ->
                column_density c' == profile_lower_density) /\
  r <$> grid disk' = r <$> grid sample_disk /\
  area <$> grid disk' = area <$> grid sample_disk /\
  exists radius,
    get_disk_radius disk' radius_density_limit = Returns radius /\
    radius <= 60 * 1.49597870691e13.
Proof.
  apply (@initial_disk_radius_within_characteristic sample_exp sample_numpy
           sample_disk (60 * 1.49597870691e13) 1.98892e32 5e-3
           {| r := 1 * 1.49597870691e13; column_density := 100; area := 1e27 |}).
  - reflexivity.
  - vm_compute. discriminate.
Defined.

(** ** Table bracketing: any query *)

Lemma value_below_any (column : list Q) (val : Q) :
  column <> [] ->
  exists value_below,
    try_except_ValueError (numpy_max (List.filter (fun x => Qltb x val) column))
                          (numpy_min column) = Returns value_below /\
    In value_below column /\
    ((value_below < val /\ forall x, In x column -> x < val -> x <= value_below) \/
     ((forall x, In x column -> val <= x) /\
      forall x, In x column -> value_below <= x)).
Proof.
  intros Hne.
  destruct (List.filter (fun x => Qltb x val) column) as [|y ys] eqn:Hfilter.
  - simpl. destruct (numpy_min_spec column Hne) as (m & -> & Hm & Hmin).
    exists m. repeat split; [done|]. right. split; [|done].
    intros x Hx. apply Qltb_ge.
    destruct (Qltb x val) eqn:Hlt; [|done].
    assert (In x (List.filter (fun x => Qltb x val) column))
      by (apply filter_In; done).
    rewrite Hfilter in *. done.
  - destruct (numpy_max_spec (y :: ys)) as (m & Hmax & Hm & Hgreatest); [done|].
    rewrite Hmax. simpl. rewrite <- Hfilter in Hm, Hgreatest.
    apply filter_In in Hm as [Hm Hlt]. apply Qltb_lt in Hlt.
    exists m. repeat split; [done|]. left. split; [done|].
    intros x Hx Hxlt. apply Hgreatest, filter_In. split; [done | by apply Qltb_lt].
Qed.

Lemma value_above_any (column : list Q) (val : Q) :
  column <> [] ->
  exists value_above,
    try_except_ValueError (numpy_min (List.filter (fun x => Qltb val x) column))
                          (numpy_max column) = Returns value_above /\
    In value_above column /\
    ((val < value_above /\ forall x, In x column -> val < x -> value_above <= x) \/
     ((forall x, In x column -> x <= val) /\
      forall x, In x column -> x <= value_above)).
Proof.
  intros Hne.
  destruct (List.filter (fun x => Qltb val x) column) as [|y ys] eqn:Hfilter.
  - simpl. destruct (numpy_max_spec column Hne) as (m & -> & Hm & Hmax).
    exists m. repeat split; [done|]. right. split; [|done].
    intros x Hx. apply Qltb_ge.
    destruct (Qltb val x) eqn:Hlt; [|done].
    assert (In x (List.filter (fun x => Qltb val x) column))
      by (apply filter_In; done).
    rewrite Hfilter in *. done.
  - destruct (numpy_min_spec (y :: ys)) as (m & Hmin & Hm & Hleast); [done|].
    rewrite Hmin. simpl. rewrite <- Hfilter in Hm, Hleast.
    apply filter_In in Hm as [Hm Hlt]. apply Qltb_lt in Hlt.
    exists m. repeat split; [done|]. left. split; [done|].
    intros x Hx Hxlt. apply Hleast, filter_In. split; [done | by apply Qltb_lt].
Qed.

(** The first row holding a value of the column, with the rows before it. *)
Lemma where_first_value_first (column : list Q) (v : Q) :
  In v column ->
  exists i vi, where_first (fun x => Qeqb x v) column = Returns i /\
               column !! i = Some vi /\ vi == v /\
               forall i' v', (i' < i)%nat -> column !! i' = Some v' -> ~ v' == v.
Proof.
  intros Hin. apply list_elem_of_In, list_elem_of_lookup in Hin as [i0 Hi0].
  destruct (where_first_total (fun x => Qeqb x v) column i0 v Hi0) as (i & Hi & _).
  { by apply Qeqb_eq. }
  destruct (where_first_Returns _ _ _ Hi) as (vi & Hvi & Heq & Hbefore).
  exists i, vi. repeat split; [done | done | by apply Qeqb_eq |].
  intros i' v' Hlt Hv'. apply Qeqb_neq. by apply (Hbefore i').
Qed.

(** X10: [find_indices] raises only on an empty column, and then
    [ValueError]; on any other column and for every query it returns two
    rows of the column, the value of the row below is at most the value of
    the row above, and each row is the first one that holds its value. *)
Theorem find_indices_returns_rows (column : list Q) (val : Q) :
  (column = [] /\ find_indices column val = Raises ValueError) \/
  (exists i j vi vj,
     find_indices column val = Returns (i, j) /\
     column !! i = Some vi /\ column !! j = Some vj /\
     vi <= vj /\
     (forall i' v, (i' < i)%nat -> column !! i' = Some v -> ~ v == vi) /\
     (forall j' v, (j' < j)%nat -> column !! j' = Some v -> ~ v == vj)).
Proof.
  destruct column as [|x0 rest] eqn:Hcol; [left; done|]. right. rewrite <- Hcol.
  assert (Hne : column <> []) by (rewrite Hcol; done).
  destruct (value_below_any column val Hne) as (vb & Hvb & Hvb_in & Hbelow).
  destruct (value_above_any column val Hne) as (va & Hva & Hva_in & Habove).
  destruct (where_first_value_first column vb Hvb_in) as (i & vi & Hi & Hvi & Hvi_eq & Hfi).
  destruct (where_first_value_first column va Hva_in) as (j & vj & Hj & Hvj & Hvj_eq & Hfj).
  exists i, j, vi, vj. repeat split; try done.
  - unfold find_indices. rewrite Hvb. simpl. rewrite Hi. simpl.
    rewrite Hva. simpl. rewrite Hj. done.
  - destruct Hbelow as [[Hlt _]|[_ Hmin]].
    + destruct Habove as [[Hgt _]|[_ Hmax]]; [lra|].
      specialize (Hmax vb Hvb_in). lra.
    + specialize (Hmin va Hva_in). lra.
  - intros i' v Hlt Hv Heq. apply (Hfi i' v Hlt Hv). lra.
  - intros j' v Hlt Hv Heq. apply (Hfj j' v Hlt Hv). lra.
Qed.

(** A query under every value of the column: both brackets are the first row
    of the minimum. *)
Lemma find_indices_under (column : list Q) (val : Q) :
  column <> [] ->
  (forall x, In x column -> val < x) ->
  exists i v, find_indices column val = Returns (i, i) /\
              column !! i = Some v /\ val < v /\
              forall x, In x column -> v <= x.
Proof.
  intros Hne Hall.
  assert (Hbelow : List.filter (fun x => Qltb x val) column = []).
  { apply filter_none. intros x Hx. apply Qltb_ge.
    apply Qlt_le_weak, Hall. by apply list_elem_of_In. }
  assert (Habove : List.filter (fun x => Qltb val x) column = column).
  { apply filter_all. intros x Hx. apply Qltb_lt, Hall. by apply list_elem_of_In. }
  destruct (numpy_min_spec column Hne) as (m & Hmin & Hm & Hleast).
  destruct (where_first_value column m Hm) as (i & v & Hi & Hv & Heq).
  exists i, v. repeat split; [| done | |].
  - unfold find_indices. rewrite Hbelow, Habove. simpl.
    rewrite Hmin. repeat first [rewrite Hi | progress simpl]. done.
  - specialize (Hall m Hm). lra.
  - intros x Hx. specialize (Hleast x Hx). lra.
Qed.

Lemma find_indices_over (column : list Q) (val : Q) :
  column <> [] ->
  (forall x, In x column -> x < val) ->
  exists i v, find_indices column val = Returns (i, i) /\
              column !! i = Some v /\ v < val /\
              forall x, In x column -> x <= v.
Proof.
  intros Hne Hall.
  assert (Habove : List.filter (fun x => Qltb val x) column = []).
  { apply filter_none. intros x Hx. apply Qltb_ge.
    apply Qlt_le_weak, Hall. by apply list_elem_of_In. }
  assert (Hbelow : List.filter (fun x => Qltb x val) column = column).
  { apply filter_all. intros x Hx. apply Qltb_lt, Hall. by apply list_elem_of_In. }
  destruct (numpy_max_spec column Hne) as (m & Hmax & Hm & Hgreatest).
  destruct (where_first_value column m Hm) as (i & v & Hi & Hv & Heq).
  exists i, v. repeat split; [| done | |].
  - unfold find_indices. rewrite Hbelow, Habove. simpl.
    rewrite Hmax. repeat first [rewrite Hi | progress simpl]. done.
  - specialize (Hall m Hm). lra.
  - intros x Hx. specialize (Hgreatest x Hx). lra.
Qed.

(** X11: a query outside the range of the column is clamped: under every
    value both brackets are the first row of the column minimum, over every
    value both are the first row of the column maximum. *)
Theorem find_indices_clamps (column : list Q) (val : Q) :
  column <> [] ->
  (forall x, In x column -> val < x) \/ (forall x, In x column -> x < val) ->
  exists i v,
    find_indices column val = Returns (i, i) /\
    column !! i = Some v /\
    ((val < v /\ forall x, In x column -> v <= x) \/
     (v < val /\ forall x, In x column -> x <= v)).
Proof.
  intros Hne [Hunder|Hover].
  - destruct (find_indices_under column val Hne Hunder) as (i & v & Hf & Hv & Hlt & Hmin).
    exists i, v. repeat split; [done | done | by left].
  - destruct (find_indices_over column val Hne Hover) as (i & v & Hf & Hv & Hlt & Hmax).
    exists i, v. repeat split; [done | done | by right].
Qed.

Lemma find_indices_clamps_witness :
  exists i v,
    find_indices [10; 100; 1000; 10; 100; 1000] 0 = Returns (i, i) /\
    [10; 100; 1000; 10; 100; 1000] !! i = Some v /\
    ((0 < v /\ forall x, In x [10; 100; 1000; 10; 100; 1000] -> v <= x) \/
     (v < 0 /\ forall x, In x [10; 100; 1000; 10; 100; 1000] -> x <= v)).
Proof.
  apply (find_indices_clamps [10; 100; 1000; 10; 100; 1000] 0).
  - discriminate.
  - left. intros x Hx. simpl in Hx.
    repeat (destruct Hx as [<-|Hx]; [reflexivity|]). done.
Defined.

(** ** The values handed to the interpolation *)

Lemma list_index_Returns (x : nat) (l : list nat) (k : nat) :
  list_index x l = Returns k ->
  l !! k = Some x /\ forall j, (j < k)%nat -> l !! j <> Some x.
Proof.
  revert k. induction l as [|y rest IH]; intros k; simpl; [discriminate|].
  destruct (Nat.eqb_spec y x) as [->|Hne].
  - intros [= <-]. split; [done | intros; lia].
  - intros Hb. apply bind_Returns in Hb as (k' & Hk' & [= <-]).
    destruct (IH _ Hk') as [Hlook Hfirst]. split; [done|].
    intros [|j] Hj; simpl; [congruence | apply Hfirst; lia].
Qed.

Lemma list_index_total (x : nat) (l : list nat) :
  x ∈ l -> exists k, list_index x l = Returns k /\ (k < length l)%nat.
Proof.
  induction l as [|y rest IH]; intros Hin; [by apply elem_of_nil in Hin|]. simpl.
  destruct (Nat.eqb_spec y x) as [->|Hne].
  - exists 0%nat. split; [done | lia].
  - apply elem_of_cons in Hin as [->|Hin]; [done|].
    destruct (IH Hin) as (k & -> & Hk). exists (S k). split; [done | lia].
Qed.

(** The loop over [todo]: a slot no entry of [todo] points to is left as it
    was, and the slot an entry points to holds the table value of the
    entry. *)
Lemma fill_Mdot_values_spec (grid_log10Mdot : list Q) (indices_list todo : list nat)
    (Mdot_values : list (option Q)) :
  (forall x, x ∈ todo -> x ∈ indices_list) ->
  (forall x, x ∈ todo -> (x < length grid_log10Mdot)%nat) ->
  (length indices_list <= length Mdot_values)%nat ->
  exists values,
    fill_Mdot_values grid_log10Mdot indices_list todo Mdot_values = Returns values /\
    length values = length Mdot_values /\
    (forall k, (forall x, x ∈ todo -> list_index x indices_list <> Returns k) ->
               values !! k = Mdot_values !! k) /\
    (forall x k, x ∈ todo -> list_index x indices_list = Returns k ->
                 values !! k = Some (grid_log10Mdot !! x)).
Proof.
  revert Mdot_values.
  induction todo as [|x rest IH]; intros Mdot_values Hsub Hrange Hlen.
  { exists Mdot_values. split; [done|]. split; [done|]. split; [done|].
    intros x k Hin. by apply elem_of_nil in Hin. }
  simpl.
  destruct (getitem_lt grid_log10Mdot x) as (v & -> & Hv); [apply Hrange; by left|].
  destruct (list_index_total x indices_list) as (slot & Hslot & Hslot_lt);
    [apply Hsub; by left|].
  rewrite Hslot. simpl.
  destruct (getitem_lt Mdot_values slot) as (old & -> & _); [lia|]. simpl.
  destruct (IH (<[slot := Some v]> Mdot_values)) as (values & -> & Hlen' & Hkeep & Hset).
  { intros y Hy. apply Hsub. by right. }
  { intros y Hy. apply Hrange. by right. }
  { by rewrite length_insert. }
  rewrite length_insert in Hlen'.
  exists values. repeat split; [done | |].
  - intros k Hk. rewrite Hkeep.
    + apply list_lookup_insert_ne. intros <-. by apply (Hk x); [left|].
    + intros y Hy. apply Hk. by right.
  - intros y k Hy Hyk. apply elem_of_cons in Hy as [->|Hy]; [|by apply (Hset y)].
    assert (k = slot) as -> by congruence.
    destruct (decide (x ∈ rest)) as [Hin|Hnotin]; [by apply (Hset x)|].
    rewrite Hkeep.
    + rewrite list_lookup_insert_eq by lia. by rewrite Hv.
    + intros y Hy Hyslot. apply Hnotin.
      destruct (list_index_Returns _ _ _ Hyslot) as [Hy' _].
      destruct (list_index_Returns _ _ _ Hslot) as [Hx' _].
      by assert (y = x) as -> by congruence.
Qed.

(** X12: [Mdot_values] is written through [indices_list.index(x)], the first
    position of [x]: for at most eight rows of the table, the slot of a row
    that stands there for the first time holds the table value of the row,
    and the slot of a row that already stands earlier in [indices_list] is
    never written. *)
Theorem Mdot_values_written_at_first_position (grid_log10Mdot : list Q)
    (indices_list : list nat) :
  (length indices_list <= 8)%nat ->
  (forall x, x ∈ indices_list -> (x < length grid_log10Mdot)%nat) ->
  exists values,
    Mdot_values_of grid_log10Mdot indices_list = Returns values /\
    length values = 8%nat /\
    forall k x, indices_list !! k = Some x ->
      ((forall j, (j < k)%nat -> indices_list !! j <> Some x) ->
       values !! k = Some (grid_log10Mdot !! x)) /\
      (forall j, (j < k)%nat -> indices_list !! j = Some x ->
                 values !! k = Some None).
Proof.
  intros Hlen Hrange. unfold Mdot_values_of.
  destruct (fill_Mdot_values_spec grid_log10Mdot indices_list indices_list
              empty_Mdot_values) as (values & Hfill & Hlen' & Hkeep & Hset);
    [done | done | done |].
  exists values. split; [done|]. split; [done|]. intros k x Hkx. split.
  - intros Hfirst. apply (Hset x); [apply list_elem_of_lookup; eauto|].
    destruct (list_index_total x indices_list) as (k' & Hk' & _);
      [apply list_elem_of_lookup; eauto|].
    destruct (list_index_Returns _ _ _ Hk') as [Hlook Hbefore].
    destruct (Nat.lt_trichotomy k' k) as [Hlt|[->|Hgt]]; [|done|].
    + by destruct (Hfirst k' Hlt).
    + by destruct (Hbefore k Hgt).
  - intros j Hj Hjx. rewrite Hkeep.
    + apply lookup_replicate_2. apply lookup_lt_Some in Hkx. lia.
    + intros y _ Hy. destruct (list_index_Returns _ _ _ Hy) as [Hlook Hbefore].
      assert (y = x) as -> by congruence. by apply (Hbefore j).
Qed.

Lemma Mdot_values_written_at_first_position_witness :
  exists values,
    Mdot_values_of [1; 2; 3; 4] [0; 0; 1; 3]%nat = Returns values /\
    length values = 8%nat /\
    forall k x, [0; 0; 1; 3]%nat !! k = Some x ->
      ((forall j, (j < k)%nat -> [0; 0; 1; 3]%nat !! j <> Some x) ->
       values !! k = Some ([1; 2; 3; 4] !! x)) /\
      (forall j, (j < k)%nat -> [0; 0; 1; 3]%nat !! j = Some x ->
                 values !! k = Some None).
Proof.
  apply (Mdot_values_written_at_first_position [1; 2; 3; 4] [0; 0; 1; 3]%nat).
  - simpl. lia.
  - intros x Hx. simpl.
    repeat (apply elem_of_cons in Hx as [->|Hx]; [lia|]).
    by apply elem_of_nil in Hx.
Defined.

(** A slot no entry of [todo] points to is left as it was. *)
Lemma fill_Mdot_values_keeps (grid_log10Mdot : list Q) (indices_list todo : list nat)
    (Mdot_values values : list (option Q)) (k : nat) :
  fill_Mdot_values grid_log10Mdot indices_list todo Mdot_values = Returns values ->
  (forall x, x ∈ todo -> list_index x indices_list <> Returns k) ->
  values !! k = Mdot_values !! k.
Proof.
  revert Mdot_values. induction todo as [|x rest IH]; intros Mdot_values; simpl.
  { by intros [= ->]. }
  intros Hb Hk.
  apply bind_Returns in Hb as (v & _ & Hb).
  apply bind_Returns in Hb as (slot & Hslot & Hb).
  apply bind_Returns in Hb as (old & _ & Hb).
  rewrite (IH _ Hb) by (intros y Hy; apply Hk; by right).
  apply list_lookup_insert_ne. intros <-. by apply (Hk x); [left|].
Qed.

Lemma find_indices_clamp_rows (column : list Q) (val : Q) :
  column <> [] ->
  (forall x, In x column -> val < x) \/ (forall x, In x column -> x < val) ->
  exists i, find_indices column val = Returns (i, i).
Proof.
  intros Hne [Hunder|Hover].
  - destruct (find_indices_under column val Hne Hunder) as (i & v & Hf & _). eauto.
  - destruct (find_indices_over column val Hne Hover) as (i & v & Hf & _). eauto.
Qed.

Section TableRows.
Context {np : Numpy} {un : Units}.

(** X13: when the FUV flux of a star lies outside the table (under every
    flux of the table, or over every one), the two rows bracketing it on
    that axis are one row, and the fourth slot of [Mdot_values], the one of
    the row above on the FUV axis, is never written. *)
Theorem clamped_FUV_axis_leaves_slot_unwritten
    (grid_stellar_mass grid_FUV grid_disk_mass grid_disk_radius grid_log10Mdot : list Q)
    (total_radiation_ss : Q) (ss : Star) (indices_list : list nat)
    (values : list (option Q)) :
  (forall x, In x grid_FUV -> total_radiation_ss < x) \/
  (forall x, In x grid_FUV -> x < total_radiation_ss) ->
  fried_indices grid_stellar_mass grid_FUV grid_disk_mass grid_disk_radius
                total_radiation_ss ss = Returns indices_list ->
  Mdot_values_of grid_log10Mdot indices_list = Returns values ->
  indices_list !! 2%nat = indices_list !! 3%nat /\
  values !! 3%nat = Some None.
Proof.
  intros Hout Hrows Hvalues. unfold fried_indices in Hrows.
  apply bind_Returns in Hrows as ([i0 j0] & H0 & Hrows).
  apply bind_Returns in Hrows as ([i1 j1] & H1 & Hrows).
  apply bind_Returns in Hrows as ([i2 j2] & H2 & Hrows).
  apply bind_Returns in Hrows as ([i3 j3] & H3 & [= <-]).
  assert (Hne : grid_FUV <> []).
  { intros ->. discriminate. }
  assert (Hsame : i1 = j1).
  { destruct (find_indices_clamp_rows grid_FUV total_radiation_ss Hne Hout)
      as (i & Hi). congruence. }
  subst j1. split; [done|].
  (* no entry points to slot 3: the row standing there stands at slot 2 *)
  rewrite (fill_Mdot_values_keeps _ _ _ _ _ 3 Hvalues); [done|].
  intros y _ Hy. destruct (list_index_Returns _ _ _ Hy) as [Hlook Hbefore].
  simpl in Hlook. inversion Hlook; subst y. by apply (Hbefore 2%nat); [lia|].
Qed.

End TableRows.

Section TableRowsExamples.
#[local] Existing Instances sample_numpy cgs_units.

(** A table of four rows and a star that receives no radiation. *)
Lemma clamped_FUV_axis_leaves_slot_unwritten_witness :
  exists indices_list values,
    fried_indices [0.5; 0.5; 1; 1] [10; 100; 10; 100] [1; 1; 200; 200]
                  [50; 150; 50; 150] 0 (sample_star 1 (0, 0, 0) (0, 0, 0))
    = Returns indices_list /\
    Mdot_values_of [-9; -8; -7; -6] indices_list = Returns values /\
    indices_list !! 2%nat = indices_list !! 3%nat /\
    values !! 3%nat = Some None.
Proof.
  eexists _, _. split; [vm_compute; reflexivity|]. split; [vm_compute; reflexivity|].
  apply (clamped_FUV_axis_leaves_slot_unwritten
           [0.5; 0.5; 1; 1] [10; 100; 10; 100] [1; 1; 200; 200] [50; 150; 50; 150]
           [-9; -8; -7; -6] 0 (sample_star 1 (0, 0, 0) (0, 0, 0))).
  - left. intros x Hx. simpl in Hx.
    repeat (destruct Hx as [<-|Hx]; [reflexivity|]). done.
  - vm_compute. reflexivity.
  - vm_compute. reflexivity.
Defined.

End TableRowsExamples.

(** ** Encounter Resolver: the other branches of [resolve_encounter] *)

Section EncounterMore.
Context {np : Numpy} {un : Units}.

(** The state in which the loop of [resolve_encounter] reaches star [i],
    and what the call returns for that star once its turn is known. *)
Lemma resolve_encounter_turn (stars : Star * Star)
    (disk_codes : option Disk * option Disk) (time : Q) (i : nat) :
  (i < 2)%nat ->
  exists stars_i new_codes_i truncated_i,
    nth2 stars_i i
    = set_collisional_radius (0.49 * periastron_distance stars) (nth2 stars i) /\
    stellar_mass (nth2 stars_i (1 - i)) = stellar_mass (nth2 stars (1 - i)) /\
    forall s' code truncated_r,
      resolve_star (periastron_distance stars) time disk_codes i
                   (stars_i, new_codes_i, truncated_i)
      = (set_nth2 stars_i i s', new_codes_i ++ [code], truncated_r) ->
      exists stars' new_codes truncated,
        resolve_encounter stars disk_codes time = (stars', new_codes, truncated) /\
        nth2 stars' i = s' /\
        new_codes !! i = Some code /\
        (truncated_r = true -> truncated = true).
Proof.
  intros Hi. unfold resolve_encounter.
  set (ca := periastron_distance stars).
  set (stars0 := (set_collisional_radius (0.49 * ca) stars.1,
                  set_collisional_radius (0.49 * ca) stars.2)).
  cbn [fold_left].
  destruct i as [|[|i]]; [| |lia].
  - exists stars0, [], false. split; [done|]. split.
    { apply stellar_mass_set_collisional_radius. }
    intros s' code truncated_r ->.
    destruct (resolve_star_frame ca time disk_codes 1 (set_nth2 stars0 0 s')
                ([] ++ [code]) truncated_r) as (s1 & code1 & tr' & -> & _ & Htr).
    eexists _, _, _. split; [reflexivity|].
    rewrite nth2_set_nth2_other by done. rewrite nth2_set_nth2. done.
  - destruct (resolve_star_frame ca time disk_codes 0 stars0 [] false)
      as (s0 & code0 & tr0 & -> & Hsm0 & _).
    exists (set_nth2 stars0 0 s0), ([] ++ [code0]), tr0. split.
    { by rewrite nth2_set_nth2_other. }
    split.
    { simpl (1 - 1)%nat. rewrite nth2_set_nth2, Hsm0.
      apply stellar_mass_set_collisional_radius. }
    intros s' code truncated_r ->.
    eexists _, _, _. split; [reflexivity|].
    rewrite nth2_set_nth2. done.
Qed.

(** The truncation radius of star [i] is the same in the state of its turn. *)
Lemma truncation_radius_turn (closest_approach v : Q) (s partner s_i partner_i : Star) :
  s_i = set_collisional_radius v s ->
  stellar_mass partner_i = stellar_mass partner ->
  truncation_radius closest_approach s_i partner_i
  = truncation_radius closest_approach s partner.
Proof.
  intros -> Hp. unfold truncation_radius.
  by rewrite Hp, stellar_mass_set_collisional_radius.
Qed.

(** The turn of a star whose disk is cut at more than 0.5 au. *)
Lemma resolve_star_truncated (closest_approach time : Q)
    (disk_codes : option Disk * option Disk) (i : nat)
    (stars : Star * Star) (new_codes : list (option Disk)) (truncated : bool)
    (c : Disk) :
  let s := nth2 stars i in
  let radius := truncation_radius closest_approach s (nth2 stars (1 - i)) in
  let new_disk := truncate_disk c radius truncate_density_limit in
  nth2 disk_codes i = Some c ->
  radius < disk_radius s ->
  0.5 * au < radius ->
  exists s',
    resolve_star closest_approach time disk_codes i (stars, new_codes, truncated)
    = (set_nth2 stars i s', new_codes ++ [Some new_disk], true) /\
    disk_mass s' = get_disk_mass new_disk radius /\
    truncation_mass_loss s'
    = get_disk_mass c (disk_radius s) - get_disk_mass new_disk radius /\
    cumulative_truncation_mass_loss s'
    = cumulative_truncation_mass_loss s
      + (get_disk_mass c (disk_radius s) - get_disk_mass new_disk radius) /\
    mass s' = stellar_mass s + get_disk_mass new_disk radius /\
    disk_radius s' = disk_radius s /\
    dispersed s' = dispersed s /\
    encounters s' = (encounters s + 1)%Z /\
    collisional_radius s' = collisional_radius s.
Proof.
  intros s radius new_disk Hc Hlt Hgt. unfold resolve_star. rewrite Hc.
  fold s. fold radius.
  apply Qltb_lt in Hlt. apply Qleb_gt in Hgt. rewrite Hlt, Hgt.
  clear Hlt Hgt Hc. subst new_disk. clearbody radius. destruct s as [].
  cbn. match goal with |- context [Qltb ?a ?b] => destruct (Qltb a b) end;
    cbn; eexists; (split; [reflexivity|]); cbn; done.
Qed.

(** The turn of a star without a disk code, or whose truncation radius is
    not under its disk radius: nothing of the disk bookkeeping changes. *)
Lemma resolve_star_untouched (closest_approach time : Q)
    (disk_codes : option Disk * option Disk) (i : nat)
    (stars : Star * Star) (new_codes : list (option Disk)) (truncated : bool) :
  let s := nth2 stars i in
  let radius := truncation_radius closest_approach s (nth2 stars (1 - i)) in
  (forall c, nth2 disk_codes i = Some c -> ~ radius < disk_radius s) ->
  exists s',
    resolve_star closest_approach time disk_codes i (stars, new_codes, truncated)
    = (set_nth2 stars i s', new_codes ++ [nth2 disk_codes i], truncated) /\
    stellar_mass s' = stellar_mass s /\
    disk_radius s' = disk_radius s /\
    disk_mass s' = disk_mass s /\
    mass s' = mass s /\
    dispersed s' = dispersed s /\
    encounters s' = encounters s /\
    truncation_mass_loss s' = truncation_mass_loss s /\
    cumulative_truncation_mass_loss s' = cumulative_truncation_mass_loss s.
Proof.
  intros s radius Hno. unfold resolve_star.
  destruct (nth2 disk_codes i) as [c|].
  2:{ exists s. split; [|done]. f_equal. f_equal. unfold set_nth2, s, nth2.
      destruct (i =? 0)%nat, stars; done. }
  fold s. fold radius.
  assert (Hge : Qltb radius (disk_radius s) = false).
  { apply Qltb_ge. apply Qnot_lt_le. by apply (Hno c). }
  rewrite Hge. clear Hge Hno. clearbody radius. destruct s as [].
  cbn. match goal with |- context [Qltb ?a ?b] => destruct (Qltb a b) end;
    cbn; eexists; (split; [reflexivity|]); cbn; done.
Qed.

(** What no turn touches, and the reference disk of a turn. *)
Lemma resolve_star_keeps (closest_approach time : Q)
    (disk_codes : option Disk * option Disk) (i : nat)
    (stars : Star * Star) (new_codes : list (option Disk)) (truncated : bool) :
  let s := nth2 stars i in
  let radius := truncation_radius closest_approach s (nth2 stars (1 - i)) in
  exists s' code truncated',
    resolve_star closest_approach time disk_codes i (stars, new_codes, truncated)
    = (set_nth2 stars i s', new_codes ++ [code], truncated') /\
    (code = None <-> nth2 disk_codes i = None) /\
    (nth2 disk_codes i = None -> s' = s) /\
    key s' = key s /\ stellar_mass s' = stellar_mass s /\
    position s' = position s /\ velocity s' = velocity s /\
    collisional_radius s' = collisional_radius s /\
    initial_disk_mass s' = initial_disk_mass s /\
    cumulative_photoevap_mass_loss s' = cumulative_photoevap_mass_loss s /\
    (forall c, nth2 disk_codes i = Some c ->
       if Qltb radius (disk_size_np s)
       then disk_size_np s' = radius /\ disk_mass_np s' = disk_mass_np s * 1.6
       else disk_size_np s' = disk_size_np s /\ disk_mass_np s' = disk_mass_np s).
Proof.
  intros s radius. unfold resolve_star.
  destruct (nth2 disk_codes i) as [c|].
  2:{ exists s, None, truncated. split; [|done]. f_equal. f_equal.
      unfold set_nth2, s, nth2. destruct (i =? 0)%nat, stars; done. }
  fold s. fold radius. clearbody radius. destruct s as [].
  cbn.
  repeat match goal with
         | |- context [Qltb ?a ?b] => destruct (Qltb a b) eqn:?; cbn
         | |- context [Qleb ?a ?b] => destruct (Qleb a b) eqn:?; cbn
         end;
    eexists _, _, _; (split; [reflexivity|]); cbn;
    repeat split; intros; done.
Qed.

(** The mass of a shorter prefix of the grid is not larger. *)
Lemma mass_take_le (cells : list Cell) (n1 n2 : nat) :
  (forall c, c ∈ cells -> 0 <= cell_mass c) ->
  (n1 <= n2)%nat ->
  fold_left (fun total_mass c => total_mass + cell_mass c) (take n1 cells) 0
  <= fold_left (fun total_mass c => total_mass + cell_mass c) (take n2 cells) 0.
Proof.
  intros Hpos Hle.
  rewrite <- (take_drop n1 (take n2 cells)).
  rewrite take_take, Nat.min_l by done.
  rewrite fold_left_app.
  pose proof (mass_sum_from (drop n1 (take n2 cells))
                (fold_left (fun total_mass c => total_mass + cell_mass c)
                           (take n1 cells) 0)) as Hsum.
  assert (0 <= fold_left (fun total_mass c => total_mass + cell_mass c)
                         (drop n1 (take n2 cells)) 0); [|lra].
  apply mass_sum_nonneg. intros c Hc. apply Hpos.
  apply list_elem_of_lookup in Hc as [j Hj]. rewrite lookup_drop in Hj.
  apply lookup_take_Some in Hj as [Hj _].
  apply list_elem_of_lookup. eauto.
Qed.

(** X14: whatever the encounter, [resolve_encounter] hands back one entry
    per star, null exactly where it was given null; both stars get 0.49
    times the periastron distance as collisional radius; and key, stellar
    mass, position, velocity, initial disk mass and the photoevaporation
    total of either star stay as they were. *)
Theorem resolve_encounter_frame (stars : Star * Star)
    (disk_codes : option Disk * option Disk) (time : Q) :
  exists stars' code0 code1 truncated,
    resolve_encounter stars disk_codes time = (stars', [code0; code1], truncated) /\
    (code0 = None <-> disk_codes.1 = None) /\
    (code1 = None <-> disk_codes.2 = None) /\
    forall i, (i < 2)%nat ->
      let s := nth2 stars i in
      let s' := nth2 stars' i in
      collisional_radius s' = 0.49 * periastron_distance stars /\
      key s' = key s /\ stellar_mass s' = stellar_mass s /\
      position s' = position s /\ velocity s' = velocity s /\
      initial_disk_mass s' = initial_disk_mass s /\
      cumulative_photoevap_mass_loss s' = cumulative_photoevap_mass_loss s.
Proof.
  unfold resolve_encounter.
  set (ca := periastron_distance stars).
  set (stars0 := (set_collisional_radius (0.49 * ca) stars.1,
                  set_collisional_radius (0.49 * ca) stars.2)).
  cbn [fold_left].
  destruct (resolve_star_keeps ca time disk_codes 0 stars0 [] false)
    as (s0 & code0 & tr0 & -> & Hc0 & _ & K0 & M0 & P0 & V0 & C0 & I0 & L0 & _).
  destruct (resolve_star_keeps ca time disk_codes 1 (set_nth2 stars0 0 s0)
              ([] ++ [code0]) tr0)
    as (s1 & code1 & tr1 & -> & Hc1 & _ & K1 & M1 & P1 & V1 & C1 & I1 & L1 & _).
  exists (set_nth2 (set_nth2 stars0 0 s0) 1 s1), code0, code1, tr1.
  split; [done|]. split; [done|]. split; [done|].
  rewrite nth2_set_nth2_other in K1, M1, P1, V1, C1, I1, L1 by done.
  intros i Hi. destruct i as [|[|i]]; [| |lia]; cbv zeta.
  - rewrite nth2_set_nth2_other by done. rewrite nth2_set_nth2.
    rewrite K0, M0, P0, V0, C0, I0, L0.
    unfold stars0, nth2; simpl. by destruct (stars.1).
  - rewrite nth2_set_nth2.
    rewrite K1, M1, P1, V1, C1, I1, L1.
    unfold stars0, nth2; simpl. by destruct (stars.2).
Qed.

(** X15: a star handed in without a disk code (a bright star) comes out
    of the encounter with nothing changed but its collisional radius. *)
Theorem resolve_encounter_leaves_star_without_code (stars : Star * Star)
    (disk_codes : option Disk * option Disk) (time : Q) (i : nat) :
  (i < 2)%nat ->
  nth2 disk_codes i = None ->
  exists stars' new_codes truncated,
    resolve_encounter stars disk_codes time = (stars', new_codes, truncated) /\
    nth2 stars' i
    = set_collisional_radius (0.49 * periastron_distance stars) (nth2 stars i) /\
    new_codes !! i = Some None.
Proof.
  intros Hi Hnone.
  destruct (resolve_encounter_turn stars disk_codes time i Hi)
    as (stars_i & codes_i & tr_i & Hs & _ & Hturn).
  destruct (resolve_star_keeps (periastron_distance stars) time disk_codes i
              stars_i codes_i tr_i)
    as (s' & code & tr' & Hres & Hcode & Hsame & _).
  destruct (Hturn _ _ _ Hres) as (stars' & new_codes & truncated & Hcall & Hs' & Hl & _).
  exists stars', new_codes, truncated. split; [done|].
  rewrite Hs', (Hsame Hnone), Hs, Hl. split; [done|].
  by rewrite (proj2 Hcode Hnone).
Qed.

(** X16: when no star with a disk code has a truncation radius under its
    disk radius, the encounter is reported as not truncating, the disk
    codes are handed back as they came, and disk radius, disk mass, total
    mass, encounter counter, dispersal flag and truncation losses of both
    stars stay as they were. *)
Theorem resolve_encounter_without_truncation (stars : Star * Star)
    (disk_codes : option Disk * option Disk) (time : Q) :
  (forall i c, (i < 2)%nat -> nth2 disk_codes i = Some c ->
     ~ truncation_radius (periastron_distance stars) (nth2 stars i)
                         (nth2 stars (1 - i))
       < disk_radius (nth2 stars i)) ->
  exists stars',
    resolve_encounter stars disk_codes time
    = (stars', [disk_codes.1; disk_codes.2], false) /\
    forall i, (i < 2)%nat ->
      let s := nth2 stars i in
      let s' := nth2 stars' i in
      disk_radius s' = disk_radius s /\ disk_mass s' = disk_mass s /\
      mass s' = mass s /\ dispersed s' = dispersed s /\
      encounters s' = encounters s /\
      truncation_mass_loss s' = truncation_mass_loss s /\
      cumulative_truncation_mass_loss s' = cumulative_truncation_mass_loss s.
Proof.
  intros Hno. unfold resolve_encounter.
  set (ca := periastron_distance stars) in *.
  set (stars0 := (set_collisional_radius (0.49 * ca) stars.1,
                  set_collisional_radius (0.49 * ca) stars.2)).
  cbn [fold_left].
  assert (H0 : forall j, nth2 stars0 j = set_collisional_radius (0.49 * ca) (nth2 stars j)).
  { intros j. unfold nth2, stars0. by destruct (j =? 0)%nat. }
  assert (Hsm : forall j, stellar_mass (nth2 stars0 j) = stellar_mass (nth2 stars j)).
  { intros j. rewrite H0. apply stellar_mass_set_collisional_radius. }
  destruct (resolve_star_untouched ca time disk_codes 0 stars0 [] false)
    as (s0 & -> & M0 & R0 & D0 & T0 & P0 & E0 & L0 & C0).
  { intros c Hc. unfold truncation_radius.
    rewrite !Hsm, H0, disk_radius_set_collisional_radius.
    apply (Hno 0%nat c); [lia | done]. }
  set (stars1 := set_nth2 stars0 0 s0).
  assert (H1 : nth2 stars1 1 = nth2 stars0 1) by (apply nth2_set_nth2_other; done).
  assert (H10 : nth2 stars1 0 = s0) by apply nth2_set_nth2.
  destruct (resolve_star_untouched ca time disk_codes 1 stars1
              ([] ++ [nth2 disk_codes 0]) false)
    as (s1 & -> & M1 & R1 & D1 & T1 & P1 & E1 & L1 & C1).
  { intros c Hc. simpl (1 - 1)%nat. rewrite H1, H10. unfold truncation_radius.
    rewrite M0, !Hsm, H0, disk_radius_set_collisional_radius.
    apply (Hno 1%nat c); [lia | done]. }
  exists (set_nth2 stars1 1 s1). split; [done|].
  intros i Hi. destruct i as [|[|i]]; [| |lia]; cbv zeta.
  - unfold stars1. rewrite nth2_set_nth2_other by done. rewrite nth2_set_nth2.
    rewrite R0, D0, T0, P0, E0, L0, C0, H0. by destruct (nth2 stars 0).
  - rewrite nth2_set_nth2. rewrite R1, D1, T1, P1, E1, L1, C1, H1, H0.
    by destruct (nth2 stars 1).
Qed.


(** The bookkeeping of the dispersal branch: the disk mass is zeroed before
    it is read for the loss, and the total mass is not recomputed. *)
Lemma resolve_star_dispersed_loss (closest_approach time : Q)
    (disk_codes : option Disk * option Disk) (i : nat)
    (stars : Star * Star) (new_codes : list (option Disk)) (truncated : bool)
    (c : Disk) :
  let s := nth2 stars i in
  let radius := truncation_radius closest_approach s (nth2 stars (1 - i)) in
  nth2 disk_codes i = Some c ->
  radius < disk_radius s ->
  radius <= 0.5 * au ->
  exists s',
    resolve_star closest_approach time disk_codes i (stars, new_codes, truncated)
    = (set_nth2 stars i s', new_codes ++ [Some c], true) /\
    truncation_mass_loss s' == 0 /\
    cumulative_truncation_mass_loss s' == cumulative_truncation_mass_loss s /\
    mass s' = mass s.
Proof.
  intros s radius Hc Hlt Hle. unfold resolve_star. rewrite Hc.
  fold s. fold radius.
  apply Qltb_lt in Hlt. apply Qleb_le in Hle. rewrite Hlt, Hle.
  clear Hlt Hle Hc. clearbody radius. destruct s as [].
  cbn. match goal with |- context [Qltb ?a ?b] => destruct (Qltb a b) end;
    cbn; eexists; (split; [reflexivity|]);
    cbn; (split; [ring|]); (split; [ring|]); reflexivity.
Qed.

(** X17: a star of the encounter whose truncation radius is under its disk
    radius and over 0.5 au gets its disk truncated at that radius: the
    encounter counts as truncating, the code handed back is the truncated
    disk, the disk mass is the mass of the truncated disk inside the
    truncation radius, the loss recorded and added to the running total is
    the old mass inside the old radius minus the new disk mass, the total
    mass is the stellar mass plus the new disk mass, and the encounter
    counter grows by one.  The star's disk radius and dispersal flag are
    left as they were. *)
Theorem resolve_encounter_truncates (stars : Star * Star)
    (disk_codes : option Disk * option Disk) (time : Q) (i : nat) (c : Disk) :
  let s := nth2 stars i in
  let radius :=
    truncation_radius (periastron_distance stars) s (nth2 stars (1 - i)) in
  let new_disk := truncate_disk c radius truncate_density_limit in
  (i < 2)%nat ->
  nth2 disk_codes i = Some c ->
  radius < disk_radius s ->
  0.5 * au < radius ->
  exists stars' new_codes,
    resolve_encounter stars disk_codes time = (stars', new_codes, true) /\
    new_codes !! i = Some (Some new_disk) /\
    disk_mass (nth2 stars' i) = get_disk_mass new_disk radius /\
    truncation_mass_loss (nth2 stars' i)
    = get_disk_mass c (disk_radius s) - get_disk_mass new_disk radius /\
    cumulative_truncation_mass_loss (nth2 stars' i)
    = cumulative_truncation_mass_loss s
      + (get_disk_mass c (disk_radius s) - get_disk_mass new_disk radius) /\
    mass (nth2 stars' i) = stellar_mass s + get_disk_mass new_disk radius /\
    encounters (nth2 stars' i) = (encounters s + 1)%Z /\
    disk_radius (nth2 stars' i) = disk_radius s /\
    dispersed (nth2 stars' i) = dispersed s.
Proof.
  intros s radius new_disk Hi Hc Hlt Hgt.
  destruct (resolve_encounter_turn stars disk_codes time i Hi)
    as (stars_i & codes_i & tr_i & Hs & Hp & Hturn).
  pose proof (truncation_radius_turn (periastron_distance stars) _ _ _ _ _ Hs Hp)
    as Hrad. fold s in Hrad. fold radius in Hrad.
  destruct (resolve_star_truncated (periastron_distance stars) time disk_codes i
              stars_i codes_i tr_i c)
    as (s' & Hres & Hm & Hl & Hcl & Hmass & Hr & Hd & He & _).
  { done. }
  { rewrite Hrad, Hs. fold s. by destruct s. }
  { by rewrite Hrad. }
  rewrite Hrad in Hres, Hm, Hl, Hcl, Hmass. rewrite Hs in Hl, Hcl, Hmass, Hr, Hd, He.
  fold s in Hl, Hcl, Hmass, Hr, Hd, He.
  destruct (Hturn _ _ _ Hres) as (stars' & new_codes & truncated & Hcall & Hs' & Hcode & Htr).
  rewrite (Htr eq_refl) in Hcall.
  exists stars', new_codes. rewrite Hs'. split; [done|]. split; [done|].
  split; [done|].
  clear - Hl Hcl Hmass Hr Hd He. destruct s; simpl in *. done.
Qed.

(** X18: on a grid of increasing radii without negative cell masses, the
    disk mass a truncating encounter leaves is the mass the disk held
    inside the truncation radius; the loss recorded is not negative and
    the running total of the losses does not shrink. *)
Theorem resolve_encounter_keeps_inner_mass (stars : Star * Star)
    (disk_codes : option Disk * option Disk) (time : Q) (i : nat) (c : Disk) :
  let s := nth2 stars i in
  let radius :=
    truncation_radius (periastron_distance stars) s (nth2 stars (1 - i)) in
  (i < 2)%nat ->
  nth2 disk_codes i = Some c ->
  radius < disk_radius s ->
  0.5 * au < radius ->
  increasing_radii (grid c) ->
  (forall cell, cell ∈ grid c -> 0 <= cell_mass cell) ->
  exists stars' new_codes,
    resolve_encounter stars disk_codes time = (stars', new_codes, true) /\
    disk_mass (nth2 stars' i) = get_disk_mass c radius /\
    0 <= truncation_mass_loss (nth2 stars' i) /\
    cumulative_truncation_mass_loss s
    <= cumulative_truncation_mass_loss (nth2 stars' i).
Proof.
  intros s radius Hi Hc Hlt Hgt Hinc Hpos.
  destruct (resolve_encounter_turn stars disk_codes time i Hi)
    as (stars_i & codes_i & tr_i & Hs & Hp & Hturn).
  pose proof (truncation_radius_turn (periastron_distance stars) _ _ _ _ _ Hs Hp)
    as Hrad. fold s in Hrad. fold radius in Hrad.
  destruct (resolve_star_truncated (periastron_distance stars) time disk_codes i
              stars_i codes_i tr_i c)
    as (s' & Hres & Hm & Hl & Hcl & _).
  { done. }
  { rewrite Hrad, Hs. fold s. by destruct s. }
  { by rewrite Hrad. }
  rewrite Hrad in Hres, Hm, Hl, Hcl. rewrite Hs in Hl, Hcl.
  replace (disk_radius (set_collisional_radius
             (0.49 * periastron_distance stars) (nth2 stars i)))
    with (disk_radius s) in Hl, Hcl by (unfold s; by destruct (nth2 stars i)).
  replace (cumulative_truncation_mass_loss (set_collisional_radius
             (0.49 * periastron_distance stars) (nth2 stars i)))
    with (cumulative_truncation_mass_loss s) in Hcl
    by (unfold s; by destruct (nth2 stars i)).
  destruct (Hturn _ _ _ Hres) as (stars' & new_codes & truncated & Hcall & Hs' & _ & Htr).
  rewrite (Htr eq_refl) in Hcall.
  exists stars', new_codes. rewrite Hs'. split; [done|].
  assert (Hkept : get_disk_mass (truncate_disk c radius truncate_density_limit) radius
                  = get_disk_mass c radius).
  { unfold get_disk_mass. simpl. rewrite filter_truncate_length.
    rewrite take_truncate_prefix; [done|].
    apply mass_cells_prefix, Hinc. }
  assert (Hle : get_disk_mass c radius <= get_disk_mass c (disk_radius s)).
  { unfold get_disk_mass. apply mass_take_le; [done|].
    apply filter_length_mono. lra. }
  rewrite Hm, Hl, Hcl, Hkept. split; [done|]. split; lra.
Qed.

(** X19: in the dispersal branch (truncation radius under the disk radius
    and at most 0.5 au) the disk mass is zeroed before the loss is read
    from it: the loss recorded for the encounter is zero, the running
    total of the truncation losses keeps its value and the total mass of
    the star is not recomputed. *)
Theorem resolve_encounter_dispersal_records_no_loss (stars : Star * Star)
    (disk_codes : option Disk * option Disk) (time : Q) (i : nat) (c : Disk) :
  let s := nth2 stars i in
  let radius :=
    truncation_radius (periastron_distance stars) s (nth2 stars (1 - i)) in
  (i < 2)%nat ->
  nth2 disk_codes i = Some c ->
  radius < disk_radius s ->
  radius <= 0.5 * au ->
  exists stars' new_codes,
    resolve_encounter stars disk_codes time = (stars', new_codes, true) /\
    truncation_mass_loss (nth2 stars' i) == 0 /\
    cumulative_truncation_mass_loss (nth2 stars' i)
    == cumulative_truncation_mass_loss s /\
    mass (nth2 stars' i) = mass s.
Proof.
  intros s radius Hi Hc Hlt Hle.
  destruct (resolve_encounter_turn stars disk_codes time i Hi)
    as (stars_i & codes_i & tr_i & Hs & Hp & Hturn).
  pose proof (truncation_radius_turn (periastron_distance stars) _ _ _ _ _ Hs Hp)
    as Hrad. fold s in Hrad. fold radius in Hrad.
  destruct (resolve_star_dispersed_loss (periastron_distance stars) time disk_codes i
              stars_i codes_i tr_i c)
    as (s' & Hres & Hl & Hcl & Hmass).
  { done. }
  { rewrite Hrad, Hs. fold s. by destruct s. }
  { by rewrite Hrad. }
  rewrite Hs in Hcl, Hmass. fold s in Hcl, Hmass.
  destruct (Hturn _ _ _ Hres) as (stars' & new_codes & truncated & Hcall & Hs' & _ & Htr).
  rewrite (Htr eq_refl) in Hcall.
  exists stars', new_codes. rewrite Hs'. split; [done|]. split; [done|].
  clear - Hcl Hmass. destruct s; simpl in *. done.
Qed.

(** X20: for a star with a disk code the reference disk without
    photoevaporation is cut whenever the truncation radius is under its
    size, whatever the size of the simulated disk: its size becomes the
    truncation radius and its mass is multiplied by 1.6; otherwise both
    stay as they were. *)
Theorem resolve_encounter_reference_disk (stars : Star * Star)
    (disk_codes : option Disk * option Disk) (time : Q) (i : nat) (c : Disk) :
  let s := nth2 stars i in
  let radius :=
    truncation_radius (periastron_distance stars) s (nth2 stars (1 - i)) in
  (i < 2)%nat ->
  nth2 disk_codes i = Some c ->
  exists stars' new_codes truncated,
    resolve_encounter stars disk_codes time = (stars', new_codes, truncated) /\
    if Qltb radius (disk_size_np s)
    then disk_size_np (nth2 stars' i) = radius /\
         disk_mass_np (nth2 stars' i) = disk_mass_np s * 1.6
    else disk_size_np (nth2 stars' i) = disk_size_np s /\
         disk_mass_np (nth2 stars' i) = disk_mass_np s.
Proof.
  intros s radius Hi Hc.
  destruct (resolve_encounter_turn stars disk_codes time i Hi)
    as (stars_i & codes_i & tr_i & Hs & Hp & Hturn).
  pose proof (truncation_radius_turn (periastron_distance stars) _ _ _ _ _ Hs Hp)
    as Hrad. fold s in Hrad. fold radius in Hrad.
  destruct (resolve_star_keeps (periastron_distance stars) time disk_codes i
              stars_i codes_i tr_i)
    as (s' & code & tr' & Hres & _ & _ & _ & _ & _ & _ & _ & _ & _ & Hnp).
  specialize (Hnp c Hc). rewrite Hrad, Hs in Hnp. fold s in Hnp.
  destruct (Hturn _ _ _ Hres) as (stars' & new_codes & truncated & Hcall & Hs' & _).
  exists stars', new_codes, truncated. rewrite Hs'. split; [done|].
  clear - Hnp. destruct s; simpl in *. done.
Qed.

(** X21: two stars at different places and of non-zero total mass, whose
    orbital energy is not zero and whose relative position and relative
    velocity have a zero cross product (stars at relative rest, or moving
    along the line that joins them), have a periastron distance of zero,
    for every square root that is not negative and maps zero to zero.
    No division of the computation is by zero there: the semi-major axis
    is not zero and one plus the eccentricity is positive. *)
Theorem periastron_distance_head_on (stars : Star * Star) :
  let mu := constants_G * (mass stars.1 + mass stars.2) in
  let r := vsub (position stars.1) (position stars.2) in
  let v := vsub (velocity stars.1) (velocity stars.2) in
  let E := vlength v * vlength v / 2 - mu / vlength r in
  let a := - mu / 2 / E in
  let p := vlength (numpy_cross r v) * vlength (numpy_cross r v) / mu in
  let e := numpy_sqrt (1 - p / a) in
  (forall x, x == 0 -> numpy_sqrt x == 0) ->
  (forall x, 0 <= numpy_sqrt x) ->
  ~ mu == 0 ->
  ~ vlength r == 0 ->
  ~ E == 0 ->
  (let '(x, y, z) := numpy_cross r v in x == 0 /\ y == 0 /\ z == 0) ->
  ~ a == 0 /\ 0 < 1 + e /\ p == 0 /\ periastron_distance stars == 0.
Proof.
  intros mu r v E a p e Hsqrt Hpos Hmu Hr HE Hcross.
  assert (Hlen : vlength (numpy_cross r v) == 0).
  { destruct (numpy_cross r v) as [[x y] z]. destruct Hcross as (Hx & Hy & Hz).
    unfold vlength. apply Hsqrt. rewrite Hx, Hy, Hz. ring. }
  assert (Hp : p == 0).
  { unfold p. rewrite Hlen. unfold Qdiv. ring. }
  assert (He : 0 < 1 + e).
  { pose proof (Hpos (1 - p / a)) as H0. fold e in H0. lra. }
  split.
  { unfold a. intros Ha. apply Hmu.
    assert (Hmul : - mu / 2 / E * E == - mu / 2) by (field; exact HE).
    assert (Hhalf : - mu / 2 == 0) by (rewrite <- Hmul, Ha; ring).
    assert (Hdouble : mu == - (- mu / 2) * 2) by field.
    rewrite Hdouble, Hhalf. ring. }
  split; [done|]. split; [done|].
  change (periastron_distance stars) with (p / (1 + e)).
  rewrite Hp. unfold Qdiv. ring.
Qed.

End EncounterMore.

Section EncounterMoreExamples.
#[local] Existing Instances sample_numpy cgs_units.

(** A small star meets a bright star that has no disk code. *)
Lemma resolve_encounter_leaves_star_without_code_witness :
  let stars := (sample_star 1 (200 * au, 0, 0) (0, 30000, 0),
                sample_bright_star 2 (0, 0, 0)) in
  exists stars' new_codes truncated,
    resolve_encounter stars (Some sample_disk, None) 1000
    = (stars', new_codes, truncated) /\
    nth2 stars' 1
    = set_collisional_radius (0.49 * periastron_distance stars) (nth2 stars 1) /\
    new_codes !! 1%nat = Some None.
Proof.
  intros stars.
  apply (resolve_encounter_leaves_star_without_code stars (Some sample_disk, None)
           1000 1).
  - lia.
  - reflexivity.
Defined.

(** Two stars on a wide orbit, 2000 au apart: the truncation radius is
    beyond both disks. *)
Lemma resolve_encounter_without_truncation_witness :
  let stars := (sample_star 1 (2000 * au, 0, 0) (0, 100000, 0),
                sample_star 2 (0, 0, 0) (0, 0, 0)) in
  exists stars',
    resolve_encounter stars (Some sample_disk, Some sample_disk) 1000
    = (stars', [Some sample_disk; Some sample_disk], false) /\
    forall i, (i < 2)%nat ->
      let s := nth2 stars i in
      let s' := nth2 stars' i in
      disk_radius s' = disk_radius s /\ disk_mass s' = disk_mass s /\
      mass s' = mass s /\ dispersed s' = dispersed s /\
      encounters s' = encounters s /\
      truncation_mass_loss s' = truncation_mass_loss s /\
      cumulative_truncation_mass_loss s' = cumulative_truncation_mass_loss s.
Proof.
  intros stars.
  apply (resolve_encounter_without_truncation stars
           (Some sample_disk, Some sample_disk) 1000).
  intros i c Hi _. destruct i as [|[|i]]; [| |lia]; vm_compute; discriminate.
Defined.

(** Two stars 200 au apart, the first moving across at 3 km/s: the
    truncation radius is about 57 au. *)
Lemma resolve_encounter_truncates_witness :
  let stars := (sample_star 1 (200 * au, 0, 0) (0, 300000, 0),
                sample_star 2 (0, 0, 0) (0, 0, 0)) in
  let radius := truncation_radius (periastron_distance stars) stars.1 stars.2 in
  let new_disk := truncate_disk sample_disk radius truncate_density_limit in
  exists stars' new_codes,
    resolve_encounter stars (Some sample_disk, Some sample_disk) 1000
    = (stars', new_codes, true) /\
    new_codes !! 0%nat = Some (Some new_disk) /\
    disk_mass (nth2 stars' 0) = get_disk_mass new_disk radius /\
    truncation_mass_loss (nth2 stars' 0)
    = get_disk_mass sample_disk (disk_radius stars.1) - get_disk_mass new_disk radius /\
    cumulative_truncation_mass_loss (nth2 stars' 0)
    = cumulative_truncation_mass_loss stars.1
      + (get_disk_mass sample_disk (disk_radius stars.1)
         - get_disk_mass new_disk radius) /\
    mass (nth2 stars' 0) = stellar_mass stars.1 + get_disk_mass new_disk radius /\
    encounters (nth2 stars' 0) = (encounters stars.1 + 1)%Z /\
    disk_radius (nth2 stars' 0) = disk_radius stars.1 /\
    dispersed (nth2 stars' 0) = dispersed stars.1.
Proof.
  intros stars.
  apply (resolve_encounter_truncates stars (Some sample_disk, Some sample_disk)
           1000 0 sample_disk).
  - lia.
  - reflexivity.
  - vm_compute. reflexivity.
  - vm_compute. reflexivity.
Defined.

Lemma resolve_encounter_keeps_inner_mass_witness :
  let stars := (sample_star 1 (200 * au, 0, 0) (0, 300000, 0),
                sample_star 2 (0, 0, 0) (0, 0, 0)) in
  let radius := truncation_radius (periastron_distance stars) stars.1 stars.2 in
  exists stars' new_codes,
    resolve_encounter stars (Some sample_disk, Some sample_disk) 1000
    = (stars', new_codes, true) /\
    disk_mass (nth2 stars' 0) = get_disk_mass sample_disk radius /\
    0 <= truncation_mass_loss (nth2 stars' 0) /\
    cumulative_truncation_mass_loss stars.1
    <= cumulative_truncation_mass_loss (nth2 stars' 0).
Proof.
  intros stars.
  apply (resolve_encounter_keeps_inner_mass stars (Some sample_disk, Some sample_disk)
           1000 0 sample_disk).
  - lia.
  - reflexivity.
  - vm_compute. reflexivity.
  - vm_compute. reflexivity.
  - apply sample_disk_increasing.
  - intros cell Hcell. simpl in Hcell.
    repeat (apply elem_of_cons in Hcell as [->|Hcell]; [vm_compute; discriminate|]).
    by apply elem_of_nil in Hcell.
Defined.

Lemma resolve_encounter_dispersal_records_no_loss_witness :
  let stars := sample_encounter in
  exists stars' new_codes,
    resolve_encounter stars (Some sample_disk, Some sample_disk) 1000
    = (stars', new_codes, true) /\
    truncation_mass_loss (nth2 stars' 0) == 0 /\
    cumulative_truncation_mass_loss (nth2 stars' 0)
    == cumulative_truncation_mass_loss stars.1 /\
    mass (nth2 stars' 0) = mass stars.1.
Proof.
  intros stars.
  apply (resolve_encounter_dispersal_records_no_loss stars
           (Some sample_disk, Some sample_disk) 1000 0 sample_disk).
  - lia.
  - reflexivity.
  - vm_compute. reflexivity.
  - vm_compute. discriminate.
Defined.

Lemma resolve_encounter_reference_disk_witness :
  let stars := (sample_star 1 (200 * au, 0, 0) (0, 300000, 0),
                sample_star 2 (0, 0, 0) (0, 0, 0)) in
  let radius := truncation_radius (periastron_distance stars) stars.1 stars.2 in
  exists stars' new_codes truncated,
    resolve_encounter stars (Some sample_disk, Some sample_disk) 1000
    = (stars', new_codes, truncated) /\
    if Qltb radius (disk_size_np stars.1)
    then disk_size_np (nth2 stars' 0) = radius /\
         disk_mass_np (nth2 stars' 0) = disk_mass_np stars.1 * 1.6
    else disk_size_np (nth2 stars' 0) = disk_size_np stars.1 /\
         disk_mass_np (nth2 stars' 0) = disk_mass_np stars.1.
Proof.
  intros stars.
  apply (resolve_encounter_reference_disk stars (Some sample_disk, Some sample_disk)
           1000 0 sample_disk).
  - lia.
  - reflexivity.
Defined.

(** Two stars at rest, 200 au apart. *)
Lemma periastron_distance_head_on_witness :
  let stars := (sample_star 1 (200 * au, 0, 0) (0, 0, 0),
                sample_star 2 (0, 0, 0) (0, 0, 0)) in
  let mu := constants_G * (mass stars.1 + mass stars.2) in
  let r := vsub (position stars.1) (position stars.2) in
  let v := vsub (velocity stars.1) (velocity stars.2) in
  let E := vlength v * vlength v / 2 - mu / vlength r in
  let a := - mu / 2 / E in
  let p := vlength (numpy_cross r v) * vlength (numpy_cross r v) / mu in
  let e := numpy_sqrt (1 - p / a) in
  ~ a == 0 /\ 0 < 1 + e /\ p == 0 /\ periastron_distance stars == 0.
Proof.
  intros stars.
  apply (periastron_distance_head_on stars).
  - intros [n d] Hx. unfold Qeq in Hx. simpl in Hx.
    assert (n = 0%Z) as -> by lia. reflexivity.
  - intros x. unfold numpy_sqrt, sample_numpy, sample_sqrt, Qle. simpl.
    rewrite Z.mul_1_r. apply Z.sqrt_nonneg.
  - vm_compute. discriminate.
  - vm_compute. discriminate.
  - vm_compute. discriminate.
  - vm_compute. done.
Defined.

End EncounterMoreExamples.

(** ** Disk Registry: lookups, and the disk check of [main] *)

(** The creation loop appends the codes in the order of the small stars. *)
Lemma register_all_codes (small_stars : list (N * Disk)) (reg : Registry) :
  disk_codes (fold_left (fun reg s => register s.1 s.2 reg) small_stars reg)
  = disk_codes reg ++ small_stars.*2.
Proof.
  revert reg. induction small_stars as [|[k0 c0] rest IH]; intros reg; simpl.
  - by rewrite app_nil_r.
  - rewrite IH. simpl. by rewrite <- app_assoc.
Qed.

(** X22: after the creation loop over small stars with distinct keys, the
    key of the [j]-th small star maps to position [j], and the lookup
    [disk_codes[disk_codes_indices[key]]] returns the code made for it. *)
Theorem initial_registry_lookup (small_stars : list (N * Disk)) (j : nat)
    (k : N) (c : Disk) :
  NoDup small_stars.*1 ->
  small_stars !! j = Some (k, c) ->
  disk_codes_indices (initial_registry small_stars) !! k = Some j /\
  disk_code_of (initial_registry small_stars) k = Returns c.
Proof.
  intros Hnd Hj.
  destruct (register_all_spec small_stars empty_registry Hnd) as [_ Hidx].
  { intros k' _. apply lookup_empty. }
  assert (Hk : disk_codes_indices (initial_registry small_stars) !! k = Some j).
  { unfold initial_registry. simpl. apply Hidx. right. exists j.
    split; [|done]. by rewrite list_lookup_fmap, Hj. }
  split; [done|].
  unfold disk_code_of. rewrite (proj2 (dict_get_Returns _ _ _) Hk). simpl.
  apply getitem_Returns. unfold initial_registry. simpl.
  rewrite register_all_codes. simpl. by rewrite list_lookup_fmap, Hj.
Qed.

Section RegistryMore.
Context {np : Numpy} {un : Units}.

(** The deletion and the shift leave every other key with its code. *)
Lemma delete_code_keeps_other_codes (k k' : N) (reg reg' : Registry) :
  dense reg ->
  delete_code k reg = Returns reg' ->
  k' <> k ->
  disk_code_of reg' k' = disk_code_of reg k'.
Proof.
  intros (Hinj & _ & _) Hdel Hne.
  unfold delete_code in Hdel.
  apply bind_Returns in Hdel as (to_del & Hget & Hdel).
  apply bind_Returns in Hdel as (c & _ & Hdel).
  apply dict_get_Returns in Hget.
  inversion Hdel; subst reg'; clear Hdel.
  unfold disk_code_of, dict_get. simpl.
  rewrite lookup_delete_ne by done. rewrite lookup_fmap.
  destruct (disk_codes_indices reg !! k') as [i|] eqn:Hi; simpl; [|done].
  assert (i <> to_del).
  { intros ->. apply Hne. by apply (Hinj k' k to_del). }
  unfold getitem.
  destruct (Nat.ltb_spec to_del i).
  - rewrite list_lookup_delete_ge by lia. by replace (S (i - 1)) with i by lia.
  - by rewrite list_lookup_delete_lt by lia.
Qed.

(** A retirement that returns takes a dense registry to a dense one. *)
Lemma retire_disk_dense (why : retirement) (t : Q) (s s' : Star)
    (reg reg' : Registry) :
  dense reg ->
  retire_disk why t s reg = Returns (s', reg') ->
  dense reg'.
Proof.
  intros Hdense Hret.
  apply retire_disk_Returns in Hret as [_ Hdel].
  destruct (delete_code_Returns _ _ _ Hdel) as [to_del Hk].
  destruct (delete_code_dense _ _ _ Hdense Hk) as (reg2 & Hdel2 & _ & _ & _ & _ & Hd).
  congruence.
Qed.

(** X23: in a dense registry a retirement leaves every other star with
    its own code: after the deletion and the shift of the larger
    positions, the lookup of any other key returns what it returned
    before (the same code, or the same error for a key that is not
    registered). *)
Theorem retire_disk_keeps_other_codes (reg reg' : Registry) (why : retirement)
    (t : Q) (s s' : Star) (k' : N) :
  dense reg ->
  retire_disk why t s reg = Returns (s', reg') ->
  k' <> key s ->
  disk_code_of reg' k' = disk_code_of reg k'.
Proof.
  intros Hdense Hret Hne.
  apply retire_disk_Returns in Hret as [_ Hdel].
  by apply (delete_code_keeps_other_codes (key s) k' reg reg').
Qed.

(** X24: a star whose disk was retired is not registered any more: the
    lookup of its code raises [KeyError], and so does any path that would
    retire it a second time. *)
Theorem retire_disk_twice_raises (reg reg' : Registry) (why why' : retirement)
    (t t' : Q) (s s' : Star) :
  retire_disk why t s reg = Returns (s', reg') ->
  disk_code_of reg' (key s) = Raises KeyError /\
  retire_disk why' t' s' reg' = Raises KeyError.
Proof.
  intros Hret.
  apply retire_disk_Returns in Hret as [-> Hdel].
  unfold delete_code in Hdel.
  apply bind_Returns in Hdel as (to_del & _ & Hdel).
  apply bind_Returns in Hdel as (c & _ & Hdel).
  inversion Hdel; subst reg'; clear Hdel.
  unfold retire_disk, delete_code, disk_code_of, dict_get. simpl.
  rewrite !key_retire_star, lookup_delete_eq. done.
Qed.

(** One turn of the disk check leaves the registry as it is or retires a
    disk, and keeps the key of the star. *)
Lemma check_disk_dense (t : Q) (s s' : Star) (c : Disk) (diverged_c : bool)
    (reg reg' : Registry) :
  check_disk t s c diverged_c reg = Returns (s', reg') ->
  key s' = key s /\ (dense reg -> dense reg').
Proof.
  unfold check_disk. intros Hret.
  assert (Hretire : forall why,
    retire_disk why t s reg = Returns (s', reg') ->
    key s' = key s /\ (dense reg -> dense reg')).
  { intros why Hr. split.
    - apply retire_disk_Returns in Hr as [-> _]. apply key_retire_star.
    - intros Hdense. by apply (retire_disk_dense why t s s' reg reg'). }
  cbv zeta in Hret.
  destruct (dispersed s && negb (checked s)); [by apply (Hretire DispersedInEncounter)|].
  destruct (code s && negb (checked s)).
  - destruct diverged_c; [by apply (Hretire Diverged)|].
    apply bind_Returns in Hret as (density & _ & Hret).
    destruct (_ || _); [by apply (Hretire DensityThreshold)|].
    apply bind_Returns in Hret as (radius & _ & Hret).
    inversion Hret; subst. split; [by destruct s | done].
  - apply bind_Returns in Hret as (radius & _ & Hret).
    inversion Hret; subst. split; [by destruct s | done].
Qed.

(** The shape of a run of the disk check over a star and a code. *)
Lemma check_disks_cons (t : Q) (s : Star) (small_stars : list Star) (c : Disk)
    (diverged_c : bool) (codes : list (Disk * bool)) (reg reg' : Registry)
    (stars' : list Star) :
  check_disks t (s :: small_stars) ((c, diverged_c) :: codes) reg
  = Returns (stars', reg') ->
  exists s1 reg1 rest',
    check_disk t s c diverged_c reg = Returns (s1, reg1) /\
    check_disks t small_stars codes reg1 = Returns (rest', reg') /\
    stars' = s1 :: rest'.
Proof.
  simpl. intros Hb.
  apply bind_Returns in Hb as ([s1 reg1] & Hone & Hb).
  apply bind_Returns in Hb as ([rest' reg2] & Hrest & Hb).
  inversion Hb; subst. eauto 10.
Qed.

(** X25: the disk check of a time step takes a dense registry to a dense
    registry, whatever disks it retires, and leaves the stars in their
    order with their keys. *)
Theorem check_disks_keeps_registry (t : Q) (small_stars stars' : list Star)
    (codes : list (Disk * bool)) (reg reg' : Registry) :
  dense reg ->
  check_disks t small_stars codes reg = Returns (stars', reg') ->
  dense reg' /\ key <$> stars' = key <$> small_stars.
Proof.
  revert codes reg stars'.
  induction small_stars as [|s rest IH]; intros codes reg stars' Hdense Hret.
  { simpl in Hret. inversion Hret; subst. done. }
  destruct codes as [|[c diverged_c] codes].
  { simpl in Hret. inversion Hret; subst. done. }
  apply check_disks_cons in Hret as (s1 & reg1 & rest' & Hone & Hrest & ->).
  apply check_disk_dense in Hone as [Hkey Hone].
  destruct (IH codes reg1 rest' (Hone Hdense) Hrest) as [Hr Hkeys].
  split; [done|]. by rewrite !fmap_cons, Hkey, Hkeys.
Qed.

(** X26: the disk check pairs stars and codes by position and stops at the
    shorter list: the small stars at positions from the number of codes on
    are handed back as they were. *)
Theorem check_disks_stops_at_codes (t : Q) (small_stars stars' : list Star)
    (codes : list (Disk * bool)) (reg reg' : Registry) :
  check_disks t small_stars codes reg = Returns (stars', reg') ->
  length stars' = length small_stars /\
  drop (length codes) stars' = drop (length codes) small_stars.
Proof.
  revert codes reg stars'.
  induction small_stars as [|s rest IH]; intros codes reg stars' Hret.
  { simpl in Hret. inversion Hret; subst. done. }
  destruct codes as [|[c diverged_c] codes].
  { simpl in Hret. inversion Hret; subst. done. }
  apply check_disks_cons in Hret as (s1 & reg1 & rest' & _ & Hrest & ->).
  destruct (IH codes reg1 rest' Hrest) as [Hlen Hdrop].
  simpl. by rewrite Hlen, Hdrop.
Qed.

(** X27: in a dense registry the disk check retires a registered star
    that an encounter marked dispersed and that was not checked yet,
    whatever code it is paired with: disk radius and disk mass are zeroed,
    the star is marked checked and without code, its dispersal time
    becomes the time of the check, its registry entry is removed, its code
    is deleted and the counter of active disks is lowered by one. *)
Theorem check_disk_retires_dispersed_star (t : Q) (s : Star) (c : Disk)
    (diverged_c : bool) (reg : Registry) (to_del : nat) :
  dense reg ->
  dispersed s = true ->
  checked s = false ->
  disk_codes_indices reg !! key s = Some to_del ->
  exists s' reg',
    check_disk t s c diverged_c reg = Returns (s', reg') /\
    disk_radius s' == 0 /\ disk_mass s' == 0 /\
    dispersed s' = true /\ checked s' = true /\ code s' = false /\
    dispersal_time s' = t /\
    disk_codes_indices reg' !! key s = None /\
    disk_codes reg' = delete to_del (disk_codes reg) /\
    active_disks reg' = (active_disks reg - 1)%Z.
Proof.
  intros Hdense Hd Hc Hk.
  destruct (delete_code_dense _ _ _ Hdense Hk)
    as (reg' & Hdel & Hnone & _ & Hcodes & Hactive & _).
  exists (retire_star DispersedInEncounter t s), reg'.
  unfold check_disk. rewrite Hd, Hc. simpl.
  unfold retire_disk. rewrite key_retire_star, Hdel. simpl.
  split; [done|].
  destruct s; simpl in *. subst.
  split; [ring|]. split; [ring|]. done.
Qed.

(** X28: a star that is already checked is not retired again by the disk
    check: the registry is left as it is, the mass that left the paired
    code through its inner boundary is added to the stellar mass, the disk
    radius and the disk mass are read from the paired code, and the total
    mass is their sum with the stellar mass. *)
Theorem check_disk_updates_checked_star (t : Q) (s : Star) (c : Disk)
    (diverged_c : bool) (reg : Registry) (radius : Q) :
  checked s = true ->
  get_disk_radius c radius_density_limit = Returns radius ->
  exists s',
    check_disk t s c diverged_c reg = Returns (s', reg) /\
    stellar_mass s' = stellar_mass s + inner_boundary_mass_out c /\
    disk_radius s' = radius /\
    disk_mass s' = get_disk_mass c radius /\
    mass s' = stellar_mass s' + disk_mass s' /\
    checked s' = true /\ dispersed s' = dispersed s.
Proof.
  intros Hc Hradius. unfold check_disk. rewrite Hc, !andb_false_r.
  cbv zeta. rewrite Hradius. simpl.
  eexists. split; [reflexivity|]. destruct s; simpl in *. done.
Qed.

End RegistryMore.

Section RegistryMoreExamples.
#[local] Existing Instances sample_numpy cgs_units.

Lemma sample_keys_NoDup : NoDup [1%N; 2%N; 3%N].
Proof.
  repeat (apply NoDup_cons; split;
          [intros Hin; repeat (apply elem_of_cons in Hin as [Hin|Hin]; [discriminate|]);
           by apply elem_of_nil in Hin|]).
  apply NoDup_nil_2.
Qed.

(** Three small stars; the second has a disk cut at 60 au. *)
Lemma initial_registry_lookup_witness :
  let cut := truncate_disk sample_disk (60 * au) truncate_density_limit in
  let small_stars := [(1%N, sample_disk); (2%N, cut); (3%N, sample_disk)] in
  disk_codes_indices (initial_registry small_stars) !! 2%N = Some 1%nat /\
  disk_code_of (initial_registry small_stars) 2%N = Returns cut.
Proof.
  intros cut small_stars.
  apply (initial_registry_lookup small_stars 1 2%N cut).
  - apply sample_keys_NoDup.
  - reflexivity.
Defined.

(** The first of three small stars is retired; the second keeps its code. *)
Lemma retire_disk_keeps_other_codes_witness :
  let cut := truncate_disk sample_disk (60 * au) truncate_density_limit in
  let reg := initial_registry [(1%N, sample_disk); (2%N, cut); (3%N, sample_disk)] in
  let s := sample_star 1 (0, 0, 0) (0, 0, 0) in
  exists s' reg',
    retire_disk EvaporatedAway 1000 s reg = Returns (s', reg') /\
    disk_code_of reg' 2%N = disk_code_of reg 2%N.
Proof.
  intros cut reg s. eexists _, _. split; [vm_compute; reflexivity|].
  eapply (retire_disk_keeps_other_codes reg _ EvaporatedAway 1000 s _ 2%N).
  - apply initial_registry_dense. apply sample_keys_NoDup.
  - vm_compute. reflexivity.
  - discriminate.
Defined.

Lemma retire_disk_twice_raises_witness :
  let reg := initial_registry [(1%N, sample_disk); (2%N, sample_disk)] in
  let s := sample_star 1 (0, 0, 0) (0, 0, 0) in
  exists s' reg',
    retire_disk DensityThreshold 1000 s reg = Returns (s', reg') /\
    disk_code_of reg' (key s) = Raises KeyError /\
    retire_disk PhotoevapThreshold 2000 s' reg' = Raises KeyError.
Proof.
  intros reg s. eexists _, _. split; [vm_compute; reflexivity|].
  eapply (retire_disk_twice_raises reg _ DensityThreshold PhotoevapThreshold
           1000 2000 s _).
  vm_compute. reflexivity.
Defined.

(** The first of three small stars was dispersed in an encounter. *)
Lemma check_disks_keeps_registry_witness :
  let small_stars := [set_dispersed true (sample_star 1 (0, 0, 0) (0, 0, 0));
                      sample_star 2 (0, 0, 0) (0, 0, 0);
                      sample_star 3 (0, 0, 0) (0, 0, 0)] in
  let codes := [(sample_disk, false); (sample_disk, false); (sample_disk, false)] in
  let reg := initial_registry [(1%N, sample_disk); (2%N, sample_disk);
                               (3%N, sample_disk)] in
  exists stars' reg',
    check_disks 1000 small_stars codes reg = Returns (stars', reg') /\
    dense reg' /\ key <$> stars' = key <$> small_stars.
Proof.
  intros small_stars codes reg. eexists _, _. split; [vm_compute; reflexivity|].
  eapply (check_disks_keeps_registry 1000 small_stars _ codes reg).
  - apply initial_registry_dense. apply sample_keys_NoDup.
  - vm_compute. reflexivity.
Defined.

(** Three small stars and two codes: the third star is not visited. *)
Lemma check_disks_stops_at_codes_witness :
  let small_stars := [sample_star 1 (0, 0, 0) (0, 0, 0);
                      sample_star 2 (0, 0, 0) (0, 0, 0);
                      set_dispersed true (sample_star 3 (0, 0, 0) (0, 0, 0))] in
  let codes := [(sample_disk, false); (sample_disk, false)] in
  let reg := initial_registry [(1%N, sample_disk); (2%N, sample_disk);
                               (3%N, sample_disk)] in
  exists stars' reg',
    check_disks 1000 small_stars codes reg = Returns (stars', reg') /\
    length stars' = length small_stars /\
    drop (length codes) stars' = drop (length codes) small_stars.
Proof.
  intros small_stars codes reg. eexists _, _. split; [vm_compute; reflexivity|].
  eapply (check_disks_stops_at_codes 1000 small_stars _ codes reg).
  vm_compute. reflexivity.
Defined.

Lemma check_disk_retires_dispersed_star_witness :
  let s := set_dispersed true (sample_star 2 (0, 0, 0) (0, 0, 0)) in
  let reg := initial_registry [(1%N, sample_disk); (2%N, sample_disk);
                               (3%N, sample_disk)] in
  exists s' reg',
    check_disk 1000 s sample_disk false reg = Returns (s', reg') /\
    disk_radius s' == 0 /\ disk_mass s' == 0 /\
    dispersed s' = true /\ checked s' = true /\ code s' = false /\
    dispersal_time s' = 1000 /\
    disk_codes_indices reg' !! key s = None /\
    disk_codes reg' = delete 1%nat (disk_codes reg) /\
    active_disks reg' = (active_disks reg - 1)%Z.
Proof.
  intros s reg.
  apply (check_disk_retires_dispersed_star 1000 s sample_disk false reg 1).
  - apply initial_registry_dense. apply sample_keys_NoDup.
  - reflexivity.
  - reflexivity.
  - reflexivity.
Defined.

(** A star whose disk was retired, paired with a live code. *)
Lemma check_disk_updates_checked_star_witness :
  let s := set_checked true (set_dispersed true (sample_star 1 (0, 0, 0) (0, 0, 0))) in
  let reg := initial_registry [(2%N, sample_disk)] in
  exists s',
    check_disk 1000 s sample_disk false reg = Returns (s', reg) /\
    stellar_mass s' = stellar_mass s + inner_boundary_mass_out sample_disk /\
    disk_radius s' = 100 * au /\
    disk_mass s' = get_disk_mass sample_disk (100 * au) /\
    mass s' = stellar_mass s' + disk_mass s' /\
    checked s' = true /\ dispersed s' = dispersed s.
Proof.
  intros s reg.
  apply (check_disk_updates_checked_star 1000 s sample_disk false reg (100 * au)).
  - reflexivity.
  - reflexivity.
Defined.

End RegistryMoreExamples.

(** ** Photoevaporation Engine: the disk that is evaporated *)

Section PhotoevaporationMore.
Context {np : Numpy} {un : Units}.

(** The two ways the end of the per-star body returns: through a
    retirement, or with the evaporated disk stored in place of the old
    one. *)
Lemma apply_photoevaporation_cases
    (t total_photoevap_mass_loss_euv total_photoevap_mass_loss_fuv : Q)
    (ss ss' : Star) (reg reg' : Registry) (calls : list (Disk * Q)) :
  let loss := total_photoevap_mass_loss_euv + total_photoevap_mass_loss_fuv in
  let ss1 := set_cumulative_photoevap_mass_loss
               (cumulative_photoevap_mass_loss (set_photoevap_mass_loss loss ss)
                + loss)
               (set_photoevap_mass_loss loss ss) in
  apply_photoevaporation t total_photoevap_mass_loss_euv
                         total_photoevap_mass_loss_fuv ss reg
  = Returns (ss', reg', calls) ->
  (exists why, retire_disk why t ss1 reg = Returns (ss', reg')) \/
  (exists i c d' radius',
     disk_codes_indices reg !! key ss1 = Some i /\
     disk_codes reg !! i = Some c /\
     evaporate c loss = Returns (Some d') /\
     get_disk_radius d' radius_density_limit = Returns radius' /\
     reg' = {| disk_codes := <[i := d']> (disk_codes reg);
               disk_codes_indices := disk_codes_indices reg;
               active_disks := active_disks reg |} /\
     ss' = set_disk_mass
             (get_disk_mass d' (disk_radius (set_disk_radius radius' ss1)))
             (set_disk_radius radius' ss1) /\
     calls = [(c, loss)]).
Proof.
  intros loss ss1. unfold apply_photoevaporation. cbv zeta.
  fold loss. fold ss1.
  destruct (_ || _).
  { intros Hb. apply bind_Returns in Hb as ([s0 reg0] & Hret & Hb).
    inversion Hb; subst. left. eauto. }
  intros Hb.
  apply bind_Returns in Hb as (i & Hi & Hb).
  apply bind_Returns in Hb as (c & Hc & Hb).
  apply bind_Returns in Hb as ([d'|] & Hevap & Hb).
  2:{ apply bind_Returns in Hb as ([s0 reg0] & Hret & Hb).
      inversion Hb; subst. left. eauto. }
  apply bind_Returns in Hb as (i' & Hi' & Hb).
  rewrite Hi in Hi'. inversion Hi'; subst i'.
  apply bind_Returns in Hb as (codes & Hset & Hb).
  unfold setitem in Hset. rewrite Hc in Hset. simpl in Hset.
  inversion Hset; subst codes. clear Hset Hi'.
  simpl in Hb.
  apply bind_Returns in Hb as (i' & Hi' & Hb).
  rewrite Hi in Hi'. inversion Hi'; subst i'. clear Hi'.
  apply bind_Returns in Hb as (c' & Hc' & Hb).
  apply dict_get_Returns in Hi. apply getitem_Returns in Hc, Hc'.
  rewrite list_lookup_insert_eq in Hc' by (by apply lookup_lt_Some in Hc).
  inversion Hc'; subst c'. clear Hc'.
  apply bind_Returns in Hb as (radius' & Hrad & Hb).
  inversion Hb; subst. right. exists i, c, d', radius'. done.
Qed.

(** X29: whatever branch the end of the per-star body takes, when it
    returns from a dense registry the registry is dense again; the star
    keeps its key; the loss of the step is recorded and added to the
    cumulative loss; [evaporate] was called at most once; and every other
    star keeps the code it had. *)
Theorem apply_photoevaporation_keeps_registry
    (t total_photoevap_mass_loss_euv total_photoevap_mass_loss_fuv : Q)
    (ss ss' : Star) (reg reg' : Registry) (calls : list (Disk * Q)) :
  dense reg ->
  apply_photoevaporation t total_photoevap_mass_loss_euv
                         total_photoevap_mass_loss_fuv ss reg
  = Returns (ss', reg', calls) ->
  dense reg' /\
  key ss' = key ss /\
  photoevap_mass_loss ss'
  = total_photoevap_mass_loss_euv + total_photoevap_mass_loss_fuv /\
  cumulative_photoevap_mass_loss ss'
  = cumulative_photoevap_mass_loss ss
    + (total_photoevap_mass_loss_euv + total_photoevap_mass_loss_fuv) /\
  (length calls <= 1)%nat /\
  (forall k', k' <> key ss -> disk_code_of reg' k' = disk_code_of reg k').
Proof.
  intros Hdense Hret.
  pose proof (apply_photoevaporation_cases _ _ _ _ _ _ _ _ Hret) as Hcases.
  cbv zeta in Hcases.
  set (loss := total_photoevap_mass_loss_euv + total_photoevap_mass_loss_fuv) in *.
  assert (Hcalls : (length calls <= 1)%nat).
  { clear Hcases. unfold apply_photoevaporation in Hret. cbv zeta in Hret.
    destruct (_ || _).
    { apply bind_Returns in Hret as ([s0 reg0] & _ & Hb). inversion Hb; subst.
      simpl. lia. }
    apply bind_Returns in Hret as (i & _ & Hb).
    apply bind_Returns in Hb as (c & _ & Hb).
    apply bind_Returns in Hb as ([d'|] & _ & Hb).
    - apply bind_Returns in Hb as (i' & _ & Hb).
      apply bind_Returns in Hb as (codes & _ & Hb).
      apply bind_Returns in Hb as (i'' & _ & Hb).
      apply bind_Returns in Hb as (c' & _ & Hb).
      apply bind_Returns in Hb as (radius' & _ & Hb).
      inversion Hb; subst. simpl. lia.
    - apply bind_Returns in Hb as ([s0 reg0] & _ & Hb). inversion Hb; subst.
      simpl. lia. }
  destruct Hcases as [[why Hretire]|(i & c & d' & radius' & Hi & Hc & _ & _ & -> & -> & _)].
  - split; [by apply (retire_disk_dense _ _ _ _ _ _ Hdense Hretire)|].
    pose proof Hretire as Hstar.
    apply retire_disk_Returns in Hstar as [-> Hdel].
    split; [rewrite key_retire_star; by destruct ss|].
    split; [by destruct ss, why|]. split; [by destruct ss, why|].
    split; [done|].
    intros k' Hne. apply (delete_code_keeps_other_codes _ k' reg reg' Hdense Hdel).
    by destruct ss.
  - destruct Hdense as (Hinj & Himg & Hcount).
    split.
    { unfold dense. simpl. rewrite length_insert. done. }
    split; [by destruct ss|]. split; [by destruct ss|]. split; [by destruct ss|].
    split; [done|].
    intros k' Hne. unfold disk_code_of, dict_get. simpl.
    destruct (disk_codes_indices reg !! k') as [i'|] eqn:Hi'; simpl; [|done].
    unfold getitem. rewrite list_lookup_insert_ne; [done|].
    intros Heq. subst i'. apply Hne. replace (key ss) with
      (key (set_cumulative_photoevap_mass_loss
              (cumulative_photoevap_mass_loss (set_photoevap_mass_loss loss ss) + loss)
              (set_photoevap_mass_loss loss ss))) by (by destruct ss).
    eapply Hinj; [exact Hi' | exact Hi].
Qed.

(** X30: under the thresholds, when [evaporate] returns a disk for the
    code of the star, that disk takes the place of the old code in the
    registry, at the same position; the star's disk radius is the outer
    edge of the evaporated disk and its disk mass is the mass of the
    evaporated disk inside that edge; the star is not marked dispersed. *)
Theorem apply_photoevaporation_evaporates
    (t total_photoevap_mass_loss_euv total_photoevap_mass_loss_fuv : Q)
    (ss : Star) (reg : Registry) (c d' : Disk) :
  let loss := total_photoevap_mass_loss_euv + total_photoevap_mass_loss_fuv in
  cumulative_photoevap_mass_loss ss + loss < initial_disk_mass ss ->
  0.03 * MEarth <= disk_mass ss ->
  disk_code_of reg (key ss) = Returns c ->
  evaporate c loss = Returns (Some d') ->
  exists ss' reg' radius',
    apply_photoevaporation t total_photoevap_mass_loss_euv
                           total_photoevap_mass_loss_fuv ss reg
    = Returns (ss', reg', [(c, loss)]) /\
    disk_code_of reg' (key ss) = Returns d' /\
    disk_codes_indices reg' = disk_codes_indices reg /\
    active_disks reg' = active_disks reg /\
    length (disk_codes reg') = length (disk_codes reg) /\
    get_disk_radius d' radius_density_limit = Returns radius' /\
    disk_radius ss' = radius' /\
    disk_mass ss' = get_disk_mass d' radius' /\
    dispersed ss' = dispersed ss /\ code ss' = code ss.
Proof.
  intros loss Hcum Hmass Hcode Hevap.
  unfold disk_code_of in Hcode.
  apply bind_Returns in Hcode as (i & Hi & Hc).
  pose proof Hc as Hlookup. apply getitem_Returns in Hlookup.
  assert (Hradius : exists radius',
             get_disk_radius d' radius_density_limit = Returns radius').
  { pose proof Hevap as Hloop. unfold evaporate in Hloop.
    apply bind_Returns in Hloop as (radius & _ & Hloop).
    apply bind_Returns in Hloop as (init_cell & _ & Hloop).
    apply evaporate_loop_Some in Hloop as (j & cj & _ & Hcj & ->).
    destruct (get_disk_radius_cell
                (truncate_disk c (r cj) truncate_density_limit) radius_density_limit)
      as (_ & cell & Hr & _); [|eauto].
    simpl. destruct (grid c); [done | discriminate]. }
  destruct Hradius as [radius' Hradius].
  assert (Htest :
    Qleb (initial_disk_mass ss) (cumulative_photoevap_mass_loss ss + loss)
    || Qltb (disk_mass ss) (0.03 * MEarth) = false).
  { apply orb_false_iff. split; [by apply Qleb_gt | by apply Qltb_ge]. }
  unfold apply_photoevaporation. fold loss.
  destruct ss as []. cbn -[dict_get getitem evaporate get_disk_radius get_disk_mass
                           setitem retire_disk Qleb Qltb] in *.
  rewrite Htest.
  eexists _, _, radius'. split.
  { rewrite Hi. simpl. rewrite Hc. simpl. rewrite Hevap. simpl.
    unfold setitem. rewrite Hc. simpl.
    unfold getitem at 1.
    rewrite list_lookup_insert_eq by (by apply lookup_lt_Some in Hlookup). simpl.
    rewrite Hradius. simpl. reflexivity. }
  simpl. unfold disk_code_of. simpl. rewrite Hi. simpl.
  unfold getitem.
  rewrite list_lookup_insert_eq by (by apply lookup_lt_Some in Hlookup).
  rewrite length_insert. done.
Qed.

End PhotoevaporationMore.

Section PhotoevaporationMoreExamples.
#[local] Existing Instances sample_numpy cgs_units.

(** A loss of 5e30 g is taken from the disk of the second of three stars. *)
Lemma apply_photoevaporation_keeps_registry_witness :
  let ss := sample_star 2 (0, 0, 0) (0, 0, 0) in
  let reg := initial_registry [(1%N, sample_disk); (2%N, sample_disk);
                               (3%N, sample_disk)] in
  exists ss' reg' calls,
    apply_photoevaporation 1000 0 5e30 ss reg = Returns (ss', reg', calls) /\
    dense reg' /\
    key ss' = key ss /\
    photoevap_mass_loss ss' = 0 + 5e30 /\
    cumulative_photoevap_mass_loss ss'
    = cumulative_photoevap_mass_loss ss + (0 + 5e30) /\
    (length calls <= 1)%nat /\
    (forall k', k' <> key ss -> disk_code_of reg' k' = disk_code_of reg k').
Proof.
  intros ss reg. eexists _, _, _. split; [vm_compute; reflexivity|].
  eapply (apply_photoevaporation_keeps_registry 1000 0 5e30 ss _ reg).
  - apply initial_registry_dense. apply sample_keys_NoDup.
  - vm_compute. reflexivity.
Defined.

Lemma apply_photoevaporation_evaporates_witness :
  let ss := sample_star 2 (0, 0, 0) (0, 0, 0) in
  let reg := initial_registry [(1%N, sample_disk); (2%N, sample_disk);
                               (3%N, sample_disk)] in
  let d' := truncate_disk sample_disk (50 * au) truncate_density_limit in
  exists ss' reg' radius',
    apply_photoevaporation 1000 0 5e30 ss reg
    = Returns (ss', reg', [(sample_disk, 0 + 5e30)]) /\
    disk_code_of reg' (key ss) = Returns d' /\
    disk_codes_indices reg' = disk_codes_indices reg /\
    active_disks reg' = active_disks reg /\
    length (disk_codes reg') = length (disk_codes reg) /\
    get_disk_radius d' radius_density_limit = Returns radius' /\
    disk_radius ss' = radius' /\
    disk_mass ss' = get_disk_mass d' radius' /\
    dispersed ss' = dispersed ss /\ code ss' = code ss.
Proof.
  intros ss reg d'.
  apply (apply_photoevaporation_evaporates 1000 0 5e30 ss reg sample_disk d').
  - vm_compute. reflexivity.
  - vm_compute. discriminate.
  - vm_compute. reflexivity.
  - vm_compute. reflexivity.
Defined.

End PhotoevaporationMoreExamples.
